(** * MarkBridge: the Confluence-to-Markdown transformation pipeline

    A shallow embedding of the content script
    [extension/content-scripts/confluence.js] and of the table rules of the
    popup script, together with the properties that the design document
    states about them.

    JavaScript strings are sequences of UTF-16 code units; they are modelled
    as lists of [N].  The DOM is modelled as a tree of element and text
    nodes; tables get a typed view (sections, rows, cells) that follows
    [HTMLTableElement.rows] and [HTMLTableRowElement.cells]. *)

From Stdlib Require Import ZArith NArith Lia.
From Stdlib Require Import Strings.String Strings.Ascii.
From stdpp Require Import base list option gmap.

Local Open Scope Z_scope.
Set Warnings "-register-all".

(* ===================================================================== *)
(** ** JavaScript strings *)
(* ===================================================================== *)

Module Js.

(** A string is its sequence of UTF-16 code units. *)
Abbreviation jsstring := (list N).

(** Embedding of an ASCII literal of the source. *)
Definition str (s : string) : jsstring :=
  map N_of_ascii (list_ascii_of_string s).
#[global] Arguments str s%_string.

Definition eqb (a b : jsstring) : bool := bool_decide (a = b).

(** [WhiteSpace] and [LineTerminator] of ECMAScript: what [\s] matches and
    what [String.prototype.trim] strips. *)
Definition isSpace (c : N) : bool :=
  ((9 <=? c) && (c <=? 13))%N
  || (c =? 32)%N || (c =? 160)%N || (c =? 5760)%N
  || ((8192 <=? c) && (c <=? 8202))%N
  || (c =? 8232)%N || (c =? 8233)%N || (c =? 8239)%N
  || (c =? 8287)%N || (c =? 12288)%N || (c =? 65279)%N.

(** [\w] is [[A-Za-z0-9_]]. *)
Definition isWord (c : N) : bool :=
  ((48 <=? c) && (c <=? 57))%N
  || ((65 <=? c) && (c <=? 90))%N
  || ((97 <=? c) && (c <=? 122))%N
  || (c =? 95)%N.

Definition isDigit (c : N) : bool := ((48 <=? c) && (c <=? 57))%N.

Fixpoint dropWhile {A} (p : A -> bool) (l : list A) : list A :=
  match l with
  | [] => []
  | x :: r => if p x then dropWhile p r else l
  end.

Fixpoint takeWhile {A} (p : A -> bool) (l : list A) : list A :=
  match l with
  | [] => []
  | x :: r => if p x then x :: takeWhile p r else []
  end.

Definition trimStart (s : jsstring) : jsstring := dropWhile isSpace s.
Definition trimEnd (s : jsstring) : jsstring := rev (dropWhile isSpace (rev s)).

(** [s.trim()] *)
Definition trim (s : jsstring) : jsstring := trimEnd (trimStart s).

(** [s.startsWith(p)] *)
Fixpoint startsWith (p s : jsstring) : bool :=
  match p, s with
  | [], _ => true
  | _ :: _, [] => false
  | a :: p', b :: s' => (a =? b)%N && startsWith p' s'
  end.

(** [s.includes(p)] *)
Fixpoint includes (p s : jsstring) : bool :=
  startsWith p s ||
  match s with
  | [] => false
  | _ :: s' => includes p s'
  end.

(** ASCII part of the Unicode lower- and upper-case mappings. *)
Definition lowerUnit (c : N) : N :=
  if ((65 <=? c) && (c <=? 90))%N then (c + 32)%N else c.
Definition upperUnit (c : N) : N :=
  if ((97 <=? c) && (c <=? 122))%N then (c - 32)%N else c.

Definition isAscii (c : N) : bool := (c <? 128)%N.

(** Value of a run of decimal digits, most significant first. *)
Fixpoint digitsValue (acc : Z) (ds : list N) : Z :=
  match ds with
  | [] => acc
  | d :: r => digitsValue (10 * acc + (Z.of_N d - 48)) r
  end.

(** [parseInt(s, 10)]: leading white space is skipped, an optional sign is
    read, then the longest run of decimal digits; [None] stands for [NaN]
    (no digit where one is expected). *)
Definition parseInt (s : jsstring) : option Z :=
  let s1 := trimStart s in
  let '(neg, s2) :=
    match s1 with
    | 45%N :: r => (true, r)
    | 43%N :: r => (false, r)
    | _ => (false, s1)
    end in
  match takeWhile isDigit s2 with
  | [] => None
  | ds => let v := digitsValue 0 ds in Some (if neg then - v else v)
  end.

(** Decimal rendering of a natural number, as template literals do. *)
Fixpoint decimalDigits (fuel : nat) (n : N) (acc : jsstring) : jsstring :=
  match fuel with
  | O => acc
  | S f =>
      let acc' := (48 + n mod 10)%N :: acc in
      if (n <? 10)%N then acc' else decimalDigits f (n / 10)%N acc'
  end.

Definition ofNat (n : nat) : jsstring :=
  decimalDigits (S n) (N.of_nat n) [].

End Js.

Import Js.

(* ===================================================================== *)
(** ** The document tree *)
(* ===================================================================== *)

Module Dom.

(** Attributes in source order; names are unique and lower-case, as the
    HTML parser leaves them. *)
Abbreviation attrs := (list (jsstring * jsstring)).

(** A node is a text node or an element ([tag] is the lower-case local
    name, so [nodeName === 'TH'] reads [tag = str "th"]). *)
Inductive node : Type :=
| Text (content : jsstring)
| Elem (tag : jsstring) (attributes : attrs) (children : list node).

(** [el.getAttribute(name)]; [None] is [null]. *)
Fixpoint getAttribute (name : jsstring) (a : attrs) : option jsstring :=
  match a with
  | [] => None
  | (k, v) :: r => if Js.eqb k name then Some v else getAttribute name r
  end.

Definition hasAttribute (name : jsstring) (a : attrs) : bool :=
  match getAttribute name a with Some _ => true | None => false end.

(** [el.removeAttribute(name)] *)
Fixpoint removeAttribute (name : jsstring) (a : attrs) : attrs :=
  match a with
  | [] => []
  | (k, v) :: r =>
      if Js.eqb k name then removeAttribute name r
      else (k, v) :: removeAttribute name r
  end.

(** [el.setAttribute(name, value)]: an existing attribute keeps its place. *)
Fixpoint setAttribute (name value : jsstring) (a : attrs) : attrs :=
  match a with
  | [] => [(name, value)]
  | (k, v) :: r =>
      if Js.eqb k name then (k, value) :: r
      else (k, v) :: setAttribute name value r
  end.

(** [node.textContent] *)
Fixpoint textContent (n : node) : jsstring :=
  match n with
  | Text s => s
  | Elem _ _ kids => concat (map textContent kids)
  end.

Definition textContentOf (kids : list node) : jsstring :=
  concat (map textContent kids).

(** Does a subtree contain an element whose tag satisfies [p]?
    ([el.querySelector('a, b, c') !== null] over the children [kids].) *)
Fixpoint hasDescendant (p : jsstring -> bool) (n : node) : bool :=
  match n with
  | Text _ => false
  | Elem t _ kids => p t || existsb (hasDescendant p) kids
  end.

Definition querySelectorTags (p : jsstring -> bool) (kids : list node) : bool :=
  existsb (hasDescendant p) kids.

(** *** Induction over nodes *)

Section NodeInduction.

Variable P : node -> Prop.
Hypothesis HText : forall s, P (Text s).
Hypothesis HElem : forall t a kids, Forall P kids -> P (Elem t a kids).

(** Induction over a node and, with it, over the nodes below it. *)
Fixpoint node_rect_nested (n : node) : P n :=
  match n with
  | Text s => HText s
  | Elem t a kids =>
      HElem t a kids
        ((fix go (l : list node) : Forall P l :=
            match l with
            | [] => @List.Forall_nil _ P
            | k :: r => @List.Forall_cons _ P k r (node_rect_nested k) (go r)
            end) kids)
  end.

End NodeInduction.

Definition isElement (n : node) : bool :=
  match n with Elem _ _ _ => true | Text _ => false end.

End Dom.

Import Dom.

(* ===================================================================== *)
(** ** Tables *)
(* ===================================================================== *)

Module Table.

Inductive cellTag : Type := TH | TD.

#[global] Instance cellTag_eq_dec : EqDecision cellTag.
Proof. solve_decision. Defined.

(** A [<th>] or [<td>] element. *)
Record cell : Type := mkCell {
  cellKind : cellTag;
  cellAttrs : attrs;
  cellKids : list node
}.

(** [row.cells] *)
Abbreviation cells := (list cell).

(** A [<tr>] element: its attributes and, through [row.cells], its cells.
    Children of a row that are not cells are never read or written by the
    normalizer and are left out. *)
Record row : Type := mkRow {
  rowAttrs : attrs;
  rowCells : cells
}.

(** A child of the [<table>] element. *)
Inductive section : Type :=
| THead (rows : list row)
| TBody (rows : list row)
| TFoot (rows : list row)
| DirectRow (r : row)            (* a [<tr>] that is a child of the table *)
| OtherChild (n : node).         (* caption, colgroup, text *)

Abbreviation table := (list section).

Definition theadRows (s : section) : list row :=
  match s with THead rs => rs | _ => [] end.
Definition bodyRows (s : section) : list row :=
  match s with TBody rs => rs | DirectRow r => [r] | _ => [] end.
Definition tfootRows (s : section) : list row :=
  match s with TFoot rs => rs | _ => [] end.

(** [table.rows]: the rows of the header sections, then the rows of the
    body sections and the direct rows in tree order, then the rows of the
    footer sections. *)
Definition tableRows (t : table) : list row :=
  concat (map theadRows t) ++ concat (map bodyRows t) ++ concat (map tfootRows t).

(** The rows that [f] selects, section by section. *)
Definition rowsOf (f : section -> list row) (t : table) : list row :=
  concat (f <$> t).

(** Writing rows back in place.  The normalizer edits row objects taken
    from [table.rows]; [refill] hands the edited rows back to the sections
    in the order in which [table.rows] lists them. *)
Fixpoint refillHead (t : table) (q : list row) : table * list row :=
  match t with
  | [] => ([], q)
  | THead rs :: r =>
      let '(r', q') := refillHead r (drop (length rs) q) in
      (THead (take (length rs) q) :: r', q')
  | s :: r => let '(r', q') := refillHead r q in (s :: r', q')
  end.

Fixpoint refillBody (t : table) (q : list row) : table * list row :=
  match t with
  | [] => ([], q)
  | TBody rs :: r =>
      let '(r', q') := refillBody r (drop (length rs) q) in
      (TBody (take (length rs) q) :: r', q')
  | DirectRow x :: r =>
      let '(r', q') := refillBody r (drop 1 q) in
      (match q with y :: _ => DirectRow y | [] => DirectRow x end :: r', q')
  | s :: r => let '(r', q') := refillBody r q in (s :: r', q')
  end.

Fixpoint refillFoot (t : table) (q : list row) : table * list row :=
  match t with
  | [] => ([], q)
  | TFoot rs :: r =>
      let '(r', q') := refillFoot r (drop (length rs) q) in
      (TFoot (take (length rs) q) :: r', q')
  | s :: r => let '(r', q') := refillFoot r q in (s :: r', q')
  end.

Definition refill (t : table) (rows : list row) : table :=
  let '(t1, q1) := refillHead t rows in
  let '(t2, q2) := refillBody t1 q1 in
  fst (refillFoot t2 q2).

End Table.

Import Table.

(* ===================================================================== *)
(** ** Numbers, and how a function can end *)
(* ===================================================================== *)

Module Num.

(** The Numbers that the span arithmetic of the table normalizer meets: a
    double that holds an integer, the two infinities, and NaN.  [Fin z] is
    the double of value [z]; the two zeros are not told apart, no operation
    of the normalizer does. *)
Inductive num : Type :=
| NaN
| NegInf
| PosInf
| Fin (z : Z).

#[global] Instance num_eq_dec : EqDecision num.
Proof. solve_decision. Defined.

(** The double nearest to an integer: an integer below [2^53] in size is a
    double; a larger one is rounded to 53 significant bits, a tie going to
    the even significand; what rounds to [2^1024] is infinity.  The sum of
    two doubles is the double nearest to the sum of their values. *)
Definition ofZ (z : Z) : num :=
  let a := Z.abs z in
  if a <? 2 ^ 53 then Fin z
  else
    let e := Z.log2 a - 52 in
    let q := a / 2 ^ e in
    let r := a mod 2 ^ e in
    let half := 2 ^ (e - 1) in
    let q' := if r <? half then q
              else if half <? r then q + 1
              else if Z.even q then q else q + 1 in
    let m := q' * 2 ^ e in
    if 2 ^ 1024 <=? m then (if z <? 0 then NegInf else PosInf)
    else Fin (if z <? 0 then - m else m).

(** [a + b] *)
Definition add (a b : num) : num :=
  match a with
  | NaN => NaN
  | PosInf => match b with NaN | NegInf => NaN | _ => PosInf end
  | NegInf => match b with NaN | PosInf => NaN | _ => NegInf end
  | Fin x =>
      match b with
      | NaN => NaN
      | PosInf => PosInf
      | NegInf => NegInf
      | Fin y => ofZ (x + y)
      end
  end.

(** [a < b]: false as soon as one side is NaN. *)
Definition lt (a b : num) : bool :=
  match a with
  | NaN | PosInf => false
  | NegInf => match b with NaN | NegInf => false | _ => true end
  | Fin x =>
      match b with
      | NaN | NegInf => false
      | PosInf => true
      | Fin y => x <? y
      end
  end.

(** [a >= b] *)
Definition ge (a b : num) : bool :=
  match a, b with
  | NaN, _ | _, NaN => false
  | _, _ => negb (lt a b)
  end.

(** The test of [x || 1]: zero and NaN count as false. *)
Definition truthy (a : num) : bool :=
  match a with
  | NaN => false
  | Fin z => negb (z =? 0)
  | _ => true
  end.

(** [new Array(len)] takes a length that is an integer from 0 to
    [2^32 - 1] and raises a [RangeError] for any other Number. *)
Definition arrayLength (len : num) : option Z :=
  match len with
  | Fin z => if (0 <=? z) && (z <? 2 ^ 32) then Some z else None
  | _ => None
  end.

(** The number of turns of [for (let d = 0; d < bound; d++)], [None] when
    the loop never ends.  The counter takes the integers from 0 upwards,
    each of them a double, as far as [2^53]; there [d++] leaves it as it
    is, since [2^53 + 1] is no double and the tie goes to [2^53].  So the
    loop ends exactly when the bound is at most [2^53]. *)
Definition loopCount (bound : num) : option nat :=
  match bound with
  | NaN | NegInf => Some 0%nat
  | PosInf => None
  | Fin z => if z <=? 2 ^ 53 then Some (Z.to_nat z) else None
  end.

End Num.

Module Outcome.

(** An exception that leaves the function: the [HierarchyRequestError] of
    the DOM, or the [RangeError] of the language. *)
Inductive domError : Type :=
| HierarchyRequestError
| RangeError.

(** A call returns, raises, or runs for ever.  Memory and time are not
    modelled: a loop that ends is taken to end. *)
Inductive outcome (A : Type) : Type :=
| Done (a : A)
| Throws (e : domError)
| Hangs.
#[global] Arguments Done {A} a.
#[global] Arguments Throws {A} e.
#[global] Arguments Hangs {A}.

End Outcome.

Import Outcome.

(* ===================================================================== *)
(** ** Step 1 of table normalization: span expansion *)
(* ===================================================================== *)

Module Expand.
Import Num.

(** [parseInt(cell.getAttribute(name), 10) || 1]: an absent attribute, a
    value that does not start with a number, and zero all give 1; any
    other value gives the double nearest to the integer that was read,
    which the engines compute exactly for the decimal radix. *)
Definition spanOf (name : jsstring) (c : cell) : num :=
  match getAttribute name (cellAttrs c) with
  | None => Fin 1
  | Some s =>
      match parseInt s with
      | None => Fin 1
      | Some v => if truthy (ofZ v) then ofZ v else Fin 1
      end
  end.

Definition colspanOf : cell -> num := spanOf (str "colspan").
Definition rowspanOf : cell -> num := spanOf (str "rowspan").

(** The inner loop of [getMaxColumns]: [count += colspan]. *)
Definition rowWidth (r : cells) : num :=
  foldl (fun count c => add count (colspanOf c)) (Fin 0) r.

(** [getMaxColumns(table)] *)
Definition getMaxColumns (t : table) : num :=
  foldl (fun max r => let count := rowWidth (rowCells r) in
                      if lt max count then count else max)
        (Fin 0) (tableRows t).

(** One entry of the grid. *)
Record info : Type := mkInfo {
  originRow : nat;
  originCol : nat;
  isOrigin : bool;
  infoCell : cell
}.

Abbreviation grid := (list (list (option info))).

(** [cell.removeAttribute('colspan'); cell.removeAttribute('rowspan')] *)
Definition stripSpans (c : cell) : cell :=
  mkCell (cellKind c)
         (removeAttribute (str "rowspan")
            (removeAttribute (str "colspan") (cellAttrs c)))
         (cellKids c).

(** [grid[r][cellIdx] !== null]: an index that is no element of the line
    (negative, NaN, infinite) reads [undefined], which is not [null]. *)
Definition notNull (line : list (option info)) (cellIdx : num) : bool :=
  match cellIdx with
  | Fin z =>
      if z <? 0 then true
      else match line !! Z.to_nat z with
           | Some None => false
           | _ => true
           end
  | _ => true
  end.

(** [while (cellIdx < maxCols && grid[r][cellIdx] !== null) cellIdx++]:
    the index at which the loop stops, [None] when it never does, which is
    the case when the test holds at an index that [cellIdx++] leaves as it
    is (minus infinity, or an integer so far below zero that the next one
    is no double).  [fuel] bounds the number of turns; the loop has
    stopped before it is used up. *)
Fixpoint nextFree (fuel : nat) (maxCols : Z) (line : list (option info))
    (cellIdx : num) : option num :=
  if lt cellIdx (Fin maxCols) && notNull line cellIdx
  then
    match fuel with
    | O => None
    | S f =>
        let next := add cellIdx (Fin 1) in
        if bool_decide (next = cellIdx) then None
        else nextFree f maxCols line next
    end
  else Some cellIdx.

(** Turns that [nextFree] can need from [cellIdx]: a turn that does not
    stall moves the index up by one at least, and at [maxCols] the loop
    stops. *)
Definition skipFuel (maxCols : Z) (cellIdx : num) : nat :=
  match cellIdx with
  | Fin z => Z.to_nat (maxCols - z)
  | _ => 1%nat
  end.

(** [grid[gr][gc] = v] *)
Definition gridSet (gr gc : nat) (v : option info) (g : grid) : grid :=
  alter (fun line => <[gc := v]> line) gr g.

(** The two nested loops that mark the cells covered by a span, for
    [rowspan] turns of the outer and [colspan] turns of the inner loop.
    The grid entry refers to the cell object, whose span attributes are
    removed right after the loops and before any entry is read: the entry
    holds the cell as it is read later.  Lines of the grid below the last
    table row are created by the source but never written or read. *)
Definition markSpan (nrows : nat) (maxCols : Z) (r : nat) (cellIdx : Z)
    (rowspan colspan : nat) (c : cell) (g : grid) : grid :=
  foldl (fun g dr =>
    foldl (fun g dc =>
      let gr := (r + dr)%nat in
      let gc := cellIdx + Z.of_nat dc in
      if (gr <? nrows)%nat && (gc <? maxCols) && (0 <=? gc)
      then gridSet gr (Z.to_nat gc)
             (Some (mkInfo r (Z.to_nat cellIdx)
                      (bool_decide (dr = 0%nat) && bool_decide (dc = 0%nat))
                      (stripSpans c))) g
      else g)
      g (seq 0 colspan))
    g (seq 0 rowspan).

(** State of the loop over the cells of one row: the column index, the
    grid, and whether [break] was taken. *)
Record rowState : Type := mkRowState {
  rsIdx : num;
  rsGrid : grid;
  rsBroken : bool
}.

(** The body of the loop over the cells; [None]: one of its loops never
    ends.  The inner marking loop is reached only when the outer one takes
    a turn.  When the index is NaN the marking loops run and write
    nothing, since [NaN < maxCols] is false. *)
Definition placeCell (nrows : nat) (maxCols : Z) (r : nat)
    (st : rowState) (c : cell) : option rowState :=
  if rsBroken st then Some st
  else
    let line := default [] (rsGrid st !! r) in
    match nextFree (skipFuel maxCols (rsIdx st)) maxCols line (rsIdx st) with
    | None => None
    | Some cellIdx =>
        if ge cellIdx (Fin maxCols) then Some (mkRowState cellIdx (rsGrid st) true)
        else
          let colspan := colspanOf c in
          let rowspan := rowspanOf c in
          match loopCount rowspan with
          | None => None
          | Some O => Some (mkRowState (add cellIdx colspan) (rsGrid st) false)
          | Some nr =>
              match loopCount colspan with
              | None => None
              | Some nc =>
                  let g :=
                    match cellIdx with
                    | Fin z => markSpan nrows maxCols r z nr nc c (rsGrid st)
                    | _ => rsGrid st
                    end in
                  Some (mkRowState (add cellIdx colspan) g false)
              end
          end
    end.

(** [for (const cell of Array.from(rows[r].cells))] *)
Fixpoint placeCells (nrows : nat) (maxCols : Z) (r : nat) (st : rowState)
    (cs : cells) : option rowState :=
  match cs with
  | [] => Some st
  | c :: rest =>
      match placeCell nrows maxCols r st c with
      | None => None
      | Some st' => placeCells nrows maxCols r st' rest
      end
  end.

(** The body of the outer loop for row [r]. *)
Definition placeRow (nrows : nat) (maxCols : Z) (g : grid) (r : nat) (cs : cells)
    : option grid :=
  rsGrid <$> placeCells nrows maxCols r (mkRowState (Fin 0) g false) cs.

Fixpoint placeRows (nrows : nat) (maxCols : Z) (g : grid) (r : nat)
    (rows : list cells) : option grid :=
  match rows with
  | [] => Some g
  | cs :: rest =>
      match placeRow nrows maxCols g r cs with
      | None => None
      | Some g' => placeRows nrows maxCols g' (S r) rest
      end
  end.

(** The grid after the first loop. *)
Definition buildGrid (rows : list cells) (maxCols : Z) : option grid :=
  placeRows (length rows) maxCols
    (replicate (length rows) (replicate (Z.to_nat maxCols) None)) 0%nat rows.

Definition emptyTd : cell := mkCell TD [] [].

(** [info.cell.cloneNode(false)] followed by [dup.textContent = '']. *)
Definition emptyDuplicate (c : cell) : cell := mkCell (cellKind c) (cellAttrs c) [].

Definition rebuildCell (e : option info) : cell :=
  match e with
  | Some i => if isOrigin i then infoCell i else emptyDuplicate (infoCell i)
  | None => emptyTd
  end.

(** The second loop: every row is emptied and refilled from its grid line. *)
Definition rebuildRow (maxCols : Z) (line : list (option info)) : cells :=
  (fun c => rebuildCell (mjoin (line !! c))) <$> seq 0 (Z.to_nat maxCols).

Definition expandRows (rows : list cells) (maxCols : Z) : option (list cells) :=
  (fun g => imap (fun r _ => rebuildRow maxCols (default [] (g !! r))) rows)
    <$> buildGrid rows maxCols.

(** [expandMergedCells(table)]: the first [new Array(maxCols)] comes
    before any cell is looked at. *)
Definition expandMergedCells (t : table) : outcome table :=
  let rows := tableRows t in
  match rows with
  | [] => Done t
  | _ =>
      match arrayLength (getMaxColumns t) with
      | None => Throws RangeError
      | Some maxCols =>
          match expandRows (rowCells <$> rows) maxCols with
          | None => Hangs
          | Some rebuilt =>
              Done (refill t (zip_with (fun r cs => mkRow (rowAttrs r) cs) rows rebuilt))
          end
      end
  end.

End Expand.

(** *** What the grid records, and where the cells are placed *)

Module ExpandSpec.
Import Num Expand.

(** [grid[r] && grid[r][c]] *)
Definition gridGet (g : grid) (r c : nat) : option info :=
  mjoin (default [] (g !! r) !! c).

(** A cell for which the marking loops run: its row, the column that the
    loop over the columns has found free for it, and the cell. *)
Record placement : Type := mkPlacement {
  plRow : nat;
  plCol : nat;
  plCell : cell
}.

(** The placement that the body of the loop over the cells makes for [c],
    if it makes one: the loop has not been left, and the column found is
    below [maxCols]. *)
Definition placedAt (maxCols : Z) (r : nat) (st : rowState) (c : cell)
    : list placement :=
  if rsBroken st then []
  else
    match nextFree (skipFuel maxCols (rsIdx st)) maxCols
            (default [] (rsGrid st !! r)) (rsIdx st) with
    | Some (Fin z) => if z <? maxCols then [mkPlacement r (Z.to_nat z) c] else []
    | _ => []
    end.

(** The placements of a run, in the order in which they are made. *)
Fixpoint traceCells (nrows : nat) (maxCols : Z) (r : nat) (st : rowState)
    (cs : cells) : list placement :=
  match cs with
  | [] => []
  | c :: rest =>
      placedAt maxCols r st c
      ++ match placeCell nrows maxCols r st c with
         | Some st' => traceCells nrows maxCols r st' rest
         | None => []
         end
  end.

Fixpoint traceRows (nrows : nat) (maxCols : Z) (g : grid) (r : nat)
    (rows : list cells) : list placement :=
  match rows with
  | [] => []
  | cs :: rest =>
      traceCells nrows maxCols r (mkRowState (Fin 0) g false) cs
      ++ match placeRow nrows maxCols g r cs with
         | Some g' => traceRows nrows maxCols g' (S r) rest
         | None => []
         end
  end.

Definition placements (rows : list cells) (maxCols : Z) : list placement :=
  traceRows (length rows) maxCols
    (replicate (length rows) (replicate (Z.to_nat maxCols) None)) 0%nat rows.

(** Turns of a marking loop. *)
Definition turns (span : num) : nat := default 0%nat (loopCount span).

(** The spans of the cell placed by [p] cover the grid position
    [(r, c)]. *)
Definition covers (p : placement) (r c : nat) : Prop :=
  (plRow p <= r < plRow p + turns (rowspanOf (plCell p)))%nat /\
  (plCol p <= c < plCol p + turns (colspanOf (plCell p)))%nat.

#[global] Instance covers_dec p r c : Decision (covers p r c).
Proof. unfold covers. apply _. Defined.

(** The cell that the second loop makes at [(r, c)] of an entry written
    for [p]: the cell itself at its own place, and elsewhere a cell of the
    same kind and attributes without children. *)
Definition cellAt (p : placement) (r c : nat) : cell :=
  if bool_decide (r = plRow p) && bool_decide (c = plCol p)
  then stripSpans (plCell p)
  else emptyDuplicate (stripSpans (plCell p)).

Definition noSpanAttrs (c : cell) : Prop :=
  getAttribute (str "colspan") (cellAttrs c) = None /\
  getAttribute (str "rowspan") (cellAttrs c) = None.

(** Spans as an editor writes them: whole numbers from 1 up, within what
    a loop counter can reach. *)
Definition tameCell (c : cell) : Prop :=
  (exists v, colspanOf c = Fin v /\ 1 <= v <= 2 ^ 53) /\
  (exists w, rowspanOf c = Fin w /\ 1 <= w <= 2 ^ 53).

(** The sum of the column spans of a row, as integers. *)
Definition exactWidth (r : cells) : Z :=
  foldr (fun c acc => match colspanOf c with Fin v => v | _ => 0 end + acc) 0 r.

(** A grid of [n] lines of [m] entries. *)
Definition shaped (n m : nat) (g : grid) : Prop :=
  length g = n /\ Forall (fun line => length line = m) g.

(** The entry that the marking loops write at [(r', c')] for the cell
    placed at [(r, col)]. *)
Definition written (r col : nat) (c : cell) (r' c' : nat) : info :=
  mkInfo r col (bool_decide (r' = r) && bool_decide (c' = col)) (stripSpans c).

(** What the run has written so far: every entry of the grid was written
    for a placement whose spans cover its position, and every position
    that the spans of a placement cover has an entry. *)
Definition gridInv (n m : nat) (tr : list placement) (g : grid) : Prop :=
  shaped n m g
  /\ (forall r c i, gridGet g r c = Some i ->
        exists q, q ∈ tr /\ covers q r c
                  /\ i = written (plRow q) (plCol q) (plCell q) r c)
  /\ (forall p r c, p ∈ tr -> covers p r c -> (r < n)%nat -> (c < m)%nat ->
        gridGet g r c <> None).

(** The index of a row that has come to no harm: the loop was left, or
    the index is infinite or an integer from 0 up. *)
Definition soundIdx (st : rowState) : Prop :=
  rsBroken st = true \/ rsIdx st = PosInf \/ exists z, rsIdx st = Fin z /\ 0 <= z.

(** Spans of a cell in a row whose sum of column spans is an array
    length. *)
Definition smallCell (c : cell) : Prop :=
  exists v w, colspanOf c = Fin v /\ 1 <= v < 2 ^ 32
              /\ rowspanOf c = Fin w /\ 1 <= w <= 2 ^ 53.

(** The entry at the place of a placement is the one written for it
    there. *)
Definition ownEntry (g : grid) (p : placement) : Prop :=
  gridGet g (plRow p) (plCol p)
  = Some (written (plRow p) (plCol p) (plCell p) (plRow p) (plCol p)).

(** While row [r] is worked on: the placements made so far lie in the
    rows up to [r], those of row [r] to the left of the column index, and
    each has its entry at its own place. *)
Definition originInv (r : nat) (st : rowState) (tr : list placement) : Prop :=
  forall p, p ∈ tr ->
    ownEntry (rsGrid st) p /\ (plRow p <= r)%nat
    /\ (plRow p = r ->
        rsBroken st = true \/ rsIdx st = PosInf
        \/ exists z, rsIdx st = Fin z /\ Z.of_nat (plCol p) < z).

End ExpandSpec.

(** *** The example tables of the span-expansion property *)

Module ExpandExample.

(** Two rows over three columns; the first cell, of kind [k], carries
    [colspan="2"]. *)
Definition spanTable (k : cellTag) : table :=
  [TBody [mkRow [] [mkCell k [(str "colspan", str "2")] [Text (str "A")];
                    mkCell TD [] [Text (str "B")]];
          mkRow [] [mkCell TD [] [Text (str "x")];
                    mkCell TD [] [Text (str "y")];
                    mkCell TD [] [Text (str "z")]]]].

(** One cell that asks for [2^32] columns. *)
Definition hugeColspan : table :=
  [TBody [mkRow [] [mkCell TD [(str "colspan", str "4294967296")] [Text (str "x")]]]].

(** Two rows over two columns whose spans cross: the second cell of the
    first row, a [td], reaches down with [rowspan="2"], and the only cell
    of the second row, a [th], reaches across with [colspan="2"]. *)
Definition crossingSpans : table :=
  [TBody [mkRow [] [mkCell TD [] [Text (str "a")];
                    mkCell TD [(str "rowspan", str "2")] [Text (str "b")]];
          mkRow [] [mkCell TH [(str "colspan", str "2")] [Text (str "c")]]]].

End ExpandExample.

(* ===================================================================== *)
(** ** Step 2 of table normalization: header promotion *)
(* ===================================================================== *)

Module Promote.

(** Matching an ASCII literal of a pattern with the [i] flag: outside
    Unicode mode a pattern letter matches exactly its two ASCII cases. *)
Definition startsWithCI (p s : jsstring) : bool :=
  startsWith p (lowerUnit <$> take (length p) s).

Fixpoint suffixExists (f : jsstring -> bool) (s : jsstring) : bool :=
  f s || match s with [] => false | _ :: r => suffixExists f r end.

(** [/lit/i.test(s)] for a lower-case ASCII literal [lit]. *)
Definition containsCI (lit s : jsstring) : bool :=
  suffixExists (startsWithCI lit) s.

(** [td.className || ''] *)
Definition className (a : attrs) : jsstring :=
  default [] (getAttribute (str "class") a).

(** [/confluenceTh|highlight-grey|highlight/i.test(cls)] *)
Definition headerClass (cls : jsstring) : bool :=
  containsCI (str "confluenceth") cls
  || containsCI (str "highlight-grey") cls
  || containsCI (str "highlight") cls.

Definition headerColours : list jsstring :=
  [str "f0f0f0"; str "e0e0e0"; str "dfe1e5"; str "f4f5f7"; str "deebff"].

(** A match of
    [background-color\s*:\s*#(?:f0f0f0|e0e0e0|dfe1e5|f4f5f7|deebff)]
    at the start of [s]. *)
Definition headerStyleAt (s : jsstring) : bool :=
  startsWithCI (str "background-color") s &&
  match dropWhile isSpace (drop 16 s) with
  | 58%N :: r =>                                   (* ':' *)
      match dropWhile isSpace r with
      | 35%N :: h => existsb (fun col => startsWithCI col h) headerColours  (* '#' *)
      | _ => false
      end
  | _ => false
  end.

Definition headerStyle (style : jsstring) : bool :=
  suffixExists headerStyleAt style.

(** A text node that holds white space only. *)
Definition blankText (n : node) : bool :=
  match n with
  | Text s => Js.eqb (trim s) []
  | Elem _ _ _ => false
  end.

Definition isBold (n : node) : bool :=
  match n with
  | Elem t _ _ => Js.eqb t (str "b") || Js.eqb t (str "strong")
  | Text _ => false
  end.

(** The local function [isHeaderCell] of [promoteHeaderCells]. *)
Definition isHeaderCell (td : cell) : bool :=
  match cellKind td with
  | TH => true
  | TD =>
      if headerClass (className (cellAttrs td)) then true
      else if hasAttribute (str "data-highlight-colour") (cellAttrs td) then true
      else if headerStyle (default [] (getAttribute (str "style") (cellAttrs td)))
      then true
      else
        match base.filter (fun n => blankText n = false) (cellKids td) with
        | [n] => isBold n
        | _ => false
        end
  end.

Section WithParser.

(** [th.innerHTML = td.innerHTML]: the children that the parser of the
    browser gives a new [th] for the serialization of the children of the
    [td].  They are new nodes, and need not be copies of the old ones: text
    nodes that stood side by side come back as one, empty ones do not come
    back, and the content is nested as the parser sees fit. *)
Variable reparse : list node -> list node.

(** A new [<th>] that receives the markup and the attributes of [td]; an
    element has no two attributes of one name, so the calls of
    [setAttribute] build the list of the [td] again. *)
Definition toTh (td : cell) : cell := mkCell TH (cellAttrs td) (reparse (cellKids td)).

Definition promoteFirst (cs : cells) : cells :=
  let allHeaders := negb (bool_decide (cs = [])) && forallb isHeaderCell cs in
  if allHeaders
  then (fun td => match cellKind td with TH => td | TD => toTh td end) <$> cs
  else cs.

Definition promoteLater (cs : cells) : cells :=
  (fun c =>
     match cellKind c with
     | TD => if containsCI (str "confluenceth") (className (cellAttrs c))
             then toTh c else c
     | TH => c
     end) <$> cs.

(** [promoteHeaderCells(table)] *)
Definition promoteHeaderCells (t : table) : table :=
  match tableRows t with
  | [] => t
  | firstRow :: later =>
      refill t
        (mkRow (rowAttrs firstRow) (promoteFirst (rowCells firstRow))
         :: ((fun r => mkRow (rowAttrs r) (promoteLater (rowCells r))) <$> later))
  end.

End WithParser.

End Promote.

(* ===================================================================== *)
(** ** Steps 3 and 4: sectioning and header synthesis *)
(* ===================================================================== *)

Module Sectioning.

Definition cellTagName (k : cellTag) : jsstring :=
  match k with TH => str "th" | TD => str "td" end.

(** A typed cell or row as a plain node, for when it becomes the child of
    an element nested in some cell. *)
Definition cellNode (c : cell) : node :=
  Elem (cellTagName (cellKind c)) (cellAttrs c) (cellKids c).
Definition rowNode (r : row) : node :=
  Elem (str "tr") (rowAttrs r) (cellNode <$> rowCells r).

Definition isTag (name : jsstring) (t : jsstring) : bool := Js.eqb t name.

(** [parent.appendChild(new)] where [parent] is the first element in
    document order, inside [n] or [n] itself, whose tag satisfies [p]. *)
Fixpoint appendToFirst (p : jsstring -> bool) (new : node) (n : node) : option node :=
  match n with
  | Text _ => None
  | Elem t a kids =>
      if p t then Some (Elem t a (kids ++ [new]))
      else
        Elem t a <$>
          (fix go (l : list node) : option (list node) :=
             match l with
             | [] => None
             | k :: r =>
                 match appendToFirst p new k with
                 | Some k' => Some (k' :: r)
                 | None => (k ::.) <$> go r
                 end
             end) kids
  end.

Fixpoint appendInNodes (p : jsstring -> bool) (new : node) (l : list node)
    : option (list node) :=
  match l with
  | [] => None
  | k :: r =>
      match appendToFirst p new k with
      | Some k' => Some (k' :: r)
      | None => (k ::.) <$> appendInNodes p new r
      end
  end.

Fixpoint appendInCells (p : jsstring -> bool) (new : node) (cs : cells)
    : option cells :=
  match cs with
  | [] => None
  | c :: r =>
      match appendInNodes p new (cellKids c) with
      | Some kids' => Some (mkCell (cellKind c) (cellAttrs c) kids' :: r)
      | None => (c ::.) <$> appendInCells p new r
      end
  end.

Fixpoint appendInRows (p : jsstring -> bool) (new : node) (rs : list row)
    : option (list row) :=
  match rs with
  | [] => None
  | r :: rest =>
      match appendInCells p new (rowCells r) with
      | Some cs' => Some (mkRow (rowAttrs r) cs' :: rest)
      | None => (r ::.) <$> appendInRows p new rest
      end
  end.

(** [table.querySelector('thead').appendChild(new)]: the first header
    section in document order, the table's own or one nested in a cell,
    receives the row; [None] when the table contains no header section. *)
Fixpoint appendToThead (new : row) (t : table) : option table :=
  match t with
  | [] => None
  | THead rs :: rest => Some (THead (rs ++ [new]) :: rest)
  | TBody rs :: rest =>
      match appendInRows (isTag (str "thead")) (rowNode new) rs with
      | Some rs' => Some (TBody rs' :: rest)
      | None => (TBody rs ::.) <$> appendToThead new rest
      end
  | TFoot rs :: rest =>
      match appendInRows (isTag (str "thead")) (rowNode new) rs with
      | Some rs' => Some (TFoot rs' :: rest)
      | None => (TFoot rs ::.) <$> appendToThead new rest
      end
  | DirectRow r :: rest =>
      match appendInCells (isTag (str "thead")) (rowNode new) (rowCells r) with
      | Some cs' => Some (DirectRow (mkRow (rowAttrs r) cs') :: rest)
      | None => (DirectRow r ::.) <$> appendToThead new rest
      end
  | OtherChild n :: rest =>
      match n with
      | Text _ => (OtherChild n ::.) <$> appendToThead new rest
      | Elem tg a kids =>
          match appendInNodes (isTag (str "thead")) (rowNode new) kids with
          | Some kids' => Some (OtherChild (Elem tg a kids') :: rest)
          | None => (OtherChild n ::.) <$> appendToThead new rest
          end
      end
  end.

(** Where [table.querySelector(tag)] finds its element. *)
Inductive place : Type :=
| OwnSection (k : nat)        (* the section with index [k] itself *)
| InRow (k j : nat)           (* inside row [j] of section [k] *)
| InOther (k : nat).          (* inside the child [k], which is no section *)

#[global] Instance place_eq_dec : EqDecision place.
Proof. solve_decision. Defined.

Definition rowHas (tag : jsstring) (r : row) : bool :=
  existsb (fun c => querySelectorTags (isTag tag) (cellKids c)) (rowCells r).

Fixpoint firstRowWith (tag : jsstring) (j : nat) (rs : list row) : option nat :=
  match rs with
  | [] => None
  | r :: rest => if rowHas tag r then Some j else firstRowWith tag (S j) rest
  end.

Definition ownTag (s : section) : jsstring :=
  match s with
  | THead _ => str "thead"
  | TBody _ => str "tbody"
  | TFoot _ => str "tfoot"
  | DirectRow _ => str "tr"
  | OtherChild _ => []
  end.

Definition sectionRows (s : section) : list row :=
  match s with
  | THead rs | TBody rs | TFoot rs => rs
  | DirectRow r => [r]
  | OtherChild _ => []
  end.

(** [table.querySelector(tag)] for [tag] one of [thead], [tbody]. *)
Fixpoint findSection (tag : jsstring) (k : nat) (t : table) : option place :=
  match t with
  | [] => None
  | s :: rest =>
      if Js.eqb (ownTag s) tag then Some (OwnSection k)
      else
        match s with
        | OtherChild (Elem _ _ kids) =>
            if querySelectorTags (isTag tag) kids then Some (InOther k)
            else findSection tag (S k) rest
        | _ =>
            match firstRowWith tag 0 (sectionRows s) with
            | Some j => Some (InRow k j)
            | None => findSection tag (S k) rest
            end
        end
  end.

(** The place of [table.rows[0]]: section index and row index. *)
Fixpoint firstIn (f : section -> list row) (k : nat) (t : table)
    : option (nat * nat) :=
  match t with
  | [] => None
  | s :: rest =>
      match f s with
      | [] => firstIn f (S k) rest
      | _ :: _ => Some (k, 0%nat)
      end
  end.

Definition firstRowPlace (t : table) : option (nat * nat) :=
  match firstIn theadRows 0 t with
  | Some p => Some p
  | None =>
      match firstIn bodyRows 0 t with
      | Some p => Some p
      | None => firstIn tfootRows 0 t
      end
  end.

(** [row.remove()] for row [j] of section [k]; a direct row is itself the
    child that goes. *)
Definition removeRowAt (k j : nat) (t : table) : table :=
  match t !! k with
  | Some (THead rs) => <[k := THead (delete j rs)]> t
  | Some (TBody rs) => <[k := TBody (delete j rs)]> t
  | Some (TFoot rs) => <[k := TFoot (delete j rs)]> t
  | Some (DirectRow _) => delete k t
  | _ => t
  end.

Definition isDirectRow (s : section) : bool :=
  match s with DirectRow _ => true | _ => false end.

(** [table.querySelectorAll(':scope > tr')] *)
Definition directRows (t : table) : list row :=
  concat ((fun s => match s with DirectRow r => [r] | _ => [] end) <$> t).

Definition isTh (c : cell) : bool :=
  match cellKind c with TH => true | TD => false end.

(** [ensureThead(table)] *)
Definition ensureThead (t : table) : outcome table :=
  match tableRows t, firstRowPlace t with
  | firstRow :: _, Some (fk, fj) =>
      if negb (bool_decide (concat (theadRows <$> t) = [])) then Done t
      else if negb (forallb isTh (rowCells firstRow)) then Done t
      else
        let moved :=
          match findSection (str "thead") 0 t with
          | None => Done (THead [firstRow] :: removeRowAt fk fj t)
          | Some found =>
              if bool_decide (found = InRow fk fj)
              then Throws HierarchyRequestError
              else Done (removeRowAt fk fj (default t (appendToThead firstRow t)))
          end in
        match moved with
        | Throws e => Throws e
        | Hangs => Hangs
        | Done t1 =>
            match findSection (str "tbody") 0 t1 with
            | Some _ => Done t1
            | None =>
                Done (base.filter (fun s => isDirectRow s = false) t1
                      ++ [TBody (directRows t1)])
            end
        end
  | _, _ => Done t
  end.

(** The test [looksLikeHeader] of [ensureHeaderRow]: the trimmed text is
    not empty, shorter than 50, and the cell holds no [img], [pre], [code]
    or [table]. *)
Definition labelText (c : cell) : jsstring := trim (textContentOf (cellKids c)).

Definition mediaTag (t : jsstring) : bool :=
  Js.eqb t (str "img") || Js.eqb t (str "pre")
  || Js.eqb t (str "code") || Js.eqb t (str "table").

Definition looksLikeHeader (c : cell) : bool :=
  (0 <? length (labelText c))%nat && (length (labelText c) <? 50)%nat
  && negb (querySelectorTags mediaTag (cellKids c)).

(** [`Column ${i + 1}`] *)
Definition columnLabel (i : nat) : jsstring := str "Column " ++ ofNat (i + 1).

Definition headerCell (i : nat) (c : cell) : cell :=
  mkCell TH [] [Text (if looksLikeHeader c then labelText c else columnLabel i)].

(** [ensureHeaderRow(table)] *)
Definition ensureHeaderRow (t : table) : table :=
  match tableRows t, firstRowPlace t with
  | firstRow :: _, Some (fk, fj) =>
      if existsb isTh (rowCells firstRow) then t
      else if bool_decide (rowCells firstRow = []) then t
      else
        let headerRow := mkRow [] (imap headerCell (rowCells firstRow)) in
        let looksLikeHeaderRow := forallb looksLikeHeader (rowCells firstRow) in
        match appendToThead headerRow t with
        | Some t1 => if looksLikeHeaderRow then removeRowAt fk fj t1 else t1
        | None =>
            let t1 := THead [headerRow] :: t in
            if looksLikeHeaderRow then removeRowAt (S fk) fj t1 else t1
        end
  | _, _ => t
  end.

End Sectioning.

(* ===================================================================== *)
(** ** Step 5: cell linearization *)
(* ===================================================================== *)

Module Clean.

Section WithStyle.

(** [style.removeProperty(name)] as seen on the [style] attribute: the
    browser parses the declarations, drops the one for [name] and writes
    the rest back.  The function belongs to the browser. *)
Variable removeProperty : jsstring -> jsstring -> jsstring.

Definition isBlock (t : jsstring) : bool :=
  Js.eqb t (str "p") || Js.eqb t (str "div").

Definition isCellTag (t : jsstring) : bool :=
  Js.eqb t (str "th") || Js.eqb t (str "td").

Definition br : node := Elem (str "br") [] [].

Definition kidsOf (n : node) : list node :=
  match n with Elem _ _ kids => kids | Text _ => [] end.

(** [cell.children.length] counts element children. *)
Definition elemCount (l : list node) : nat :=
  length (base.filter (fun n => isElement n = true) l).

(** [s.replace(/\n/g, ' ').replace(/\s+/g, ' ')] *)
Fixpoint collapse (inRun : bool) (s : jsstring) : jsstring :=
  match s with
  | [] => []
  | c :: r =>
      if isSpace c
      then if inRun then collapse true r else 32%N :: collapse true r
      else c :: collapse false r
  end.

Definition collapseText (n : node) : node :=
  match n with
  | Text s => Text (collapse false s)
  | Elem _ _ _ => n
  end.

(** The four removals at the end of the loop body. *)
Definition stripSizing (a : attrs) : attrs :=
  let a1 := removeAttribute (str "height") (removeAttribute (str "width") a) in
  match getAttribute (str "style") a1 with
  | Some v =>
      setAttribute (str "style")
        (removeProperty (str "height") (removeProperty (str "width") v)) a1
  | None => a1
  end.

(** What the loop over the cells does below an element that is not a child
    of the cell on turn: every [p] and [div] is replaced by its children
    followed by a [br] (its parent is not the cell), and a nested cell,
    visited later on its own, has its text children collapsed and its
    sizing removed. *)
Fixpoint cleanInside (n : node) : node :=
  match n with
  | Text _ => n
  | Elem t a kids =>
      let kids' :=
        concat (map (fun k =>
                       match k with
                       | Text _ => [k]
                       | Elem kt _ _ =>
                           if isBlock kt then kidsOf (cleanInside k) ++ [br]
                           else [cleanInside k]
                       end) kids) in
      if isCellTag t then Elem t (stripSizing a) (collapseText <$> kids')
      else Elem t a kids'
  end.

(** The visit of one node that is, when its turn comes, a child of the
    cell; [left] and [right] count the element children of the cell before
    and after it. *)
Fixpoint unwrapNode (left : nat) (n : node) (right : nat) : list node :=
  match n with
  | Text _ => [n]
  | Elem t a kids =>
      if isBlock t then
        let only := (left + 1 + right =? 1)%nat in
        let right' := if only then right else S right in
        (fix go (left : nat) (l : list node) : list node :=
           match l with
           | [] => []
           | k :: r =>
               let out := unwrapNode left k (elemCount r + right') in
               out ++ go (left + elemCount out)%nat r
           end) left kids
        ++ (if only then [] else [br])
      else [cleanInside n]
  end.

Fixpoint unwrapList (left : nat) (l : list node) (right : nat) : list node :=
  match l with
  | [] => []
  | k :: r =>
      let out := unwrapNode left k (elemCount r + right) in
      out ++ unwrapList (left + elemCount out)%nat r right
  end.

(** The body of the loop of [cleanCellContent] for one cell. *)
Definition cleanCell (c : cell) : cell :=
  mkCell (cellKind c) (stripSizing (cellAttrs c))
         (collapseText <$> unwrapList 0 (cellKids c) 0).

(** Cells found below a child of the table that is no section. *)
Fixpoint cleanOutside (n : node) : node :=
  match n with
  | Text _ => n
  | Elem t a kids =>
      if isCellTag t
      then Elem t (stripSizing a) (collapseText <$> unwrapList 0 kids 0)
      else Elem t a (map cleanOutside kids)
  end.

Definition cleanRow (r : row) : row :=
  mkRow (rowAttrs r) (cleanCell <$> rowCells r).

(** [cleanCellContent(table)] *)
Definition cleanCellContent (t : table) : table :=
  (fun s =>
     match s with
     | THead rs => THead (cleanRow <$> rs)
     | TBody rs => TBody (cleanRow <$> rs)
     | TFoot rs => TFoot (cleanRow <$> rs)
     | DirectRow r => DirectRow (cleanRow r)
     | OtherChild n => OtherChild (cleanOutside n)
     end) <$> t.

(** The parser behind [innerHTML], for the cells that are promoted. *)
Variable reparse : list node -> list node.

(** [normalizeTable(table)]: an exception or a loop without end in one
    step leaves the later steps undone. *)
Definition normalizeTable (t : table) : outcome table :=
  match Expand.expandMergedCells t with
  | Throws e => Throws e
  | Hangs => Hangs
  | Done t1 =>
      let t2 := Promote.promoteHeaderCells reparse t1 in
      match Sectioning.ensureThead t2 with
      | Throws e => Throws e
      | Hangs => Hangs
      | Done t3 => Done (cleanCellContent (Sectioning.ensureHeaderRow t3))
      end
  end.

End WithStyle.

End Clean.

(* ===================================================================== *)
(** ** The table rules of the renderer *)
(* ===================================================================== *)

Module Render.

Definition nl : N := 10%N.
Definition pipe : N := 124%N.

(** [s.replace(/\n{2,}/g, '<br>').replace(/\n/g, ' ')]: a run of two or
    more line feeds becomes [<br>], a single one a space.  [run] is the
    number of line feeds read and not yet written. *)
Fixpoint foldNewlines (run : nat) (s : jsstring) : jsstring :=
  let flush (k : nat) : jsstring :=
    match k with
    | O => []
    | S O => [32%N]
    | _ => str "<br>"
    end in
  match s with
  | [] => flush run
  | c :: r =>
      if (c =? nl)%N then foldNewlines (S run) r
      else flush run ++ c :: foldNewlines 0 r
  end.

(** [s.replace(/\|/g, '\\|')] *)
Definition escapePipes (s : jsstring) : jsstring :=
  concat ((fun c => if (c =? pipe)%N then [92%N; pipe] else [c]) <$> s).

(** The [tableCell] rule; [index] is the position of the cell among the
    child nodes of its row. *)
Definition tableCell (content : jsstring) (index : nat) : jsstring :=
  let cleanContent := trim (escapePipes (foldNewlines 0 content)) in
  let prefix := match index with O => str "| " | _ => str " " end in
  prefix ++ cleanContent ++ str " |".





(** [s.split('\n')] *)
Fixpoint splitLines (cur : jsstring) (s : jsstring) : list jsstring :=
  match s with
  | [] => [rev cur]
  | c :: r =>
      if (c =? nl)%N then rev cur :: splitLines [] r
      else splitLines (c :: cur) r
  end.

(** [lines.join('\n')] *)
Fixpoint joinLines (l : list jsstring) : jsstring :=
  match l with
  | [] => []
  | [x] => x
  | x :: r => x ++ nl :: joinLines r
  end.









End Render.

(** *** The walk over a table *)

Module Walk.
Import Render Sectioning.



Section WithContent.

(** What the walk yields for the children of a cell, and for a child of the
    table that is no section. *)
Variable renderContent : list node -> jsstring.
Variable renderOther : node -> jsstring.









End WithContent.


End Walk.

(** *** Example tables of the rendering properties *)

Module RenderExample.
Import Render Walk.

Definition textCell (k : cellTag) (s : string) : cell := mkCell k [] [Text (str s)].
#[global] Arguments textCell k s%_string.


(** A first row that mixes an empty header cell with an empty data cell. *)
Definition emptyFirstRow : table :=
  [TBody [mkRow [] [mkCell TH [] []; mkCell TD [] []];
          mkRow [] [textCell TD "x"; textCell TD "y"]]].



(** A style attribute without sizing: nothing to remove. *)
Definition keepStyle (name value : jsstring) : jsstring := value.

(** The parser on the markup of a cell that holds one text node at most,
    free of markup characters: the same text comes back. *)
Definition keepNodes (kids : list node) : list node := kids.


End RenderExample.

(** *** Example tables of the normalization properties *)

Module NormalizeExample.

(** A header section whose only row has one empty data cell. *)
Definition headerSectionOfData : table :=
  [THead [mkRow [] [mkCell TD [] []]]].

(** The same after one and after two normalizations. *)
Definition columnOne : row := mkRow [] [mkCell TH [] [Text (str "Column 1")]].

Definition headerSectionOnce : table :=
  [THead [mkRow [] [mkCell TD [] []]; columnOne]].

Definition headerSectionTwice : table :=
  [THead [mkRow [] [mkCell TD [] []]; columnOne; columnOne]].

(** A first row whose first cell is an empty data cell marked with the
    header class, next to an ordinary data cell. *)
Definition markedFirstCell : table :=
  [TBody [mkRow [] [mkCell TD [(str "class", str "confluenceTh")] [];
                    mkCell TD [] [Text (str "x")]]]].

(** A header cell that holds a table with a header section of its own. *)
Definition nestedHeaderSection : table :=
  [TBody [mkRow [] [mkCell TH []
     [Elem (str "table") []
        [Elem (str "thead") []
           [Elem (str "tr") [] [Elem (str "th") [] [Text (str "x")]]]]]]]].

(** The caption of the table below: it holds a table whose one cell has a
    width and a paragraph. *)
Definition captionOfTable : node :=
  Elem (str "caption") []
    [Elem (str "table") []
       [Elem (str "tr") []
          [Elem (str "td") [(str "width", str "10")]
             [Elem (str "p") [] [Text (str "a")]]]]].

(** A table without rows: a caption and an empty body section. *)
Definition captionedTable : table := [OtherChild captionOfTable; TBody []].


End NormalizeExample.

(* ===================================================================== *)
(** ** Object literals used as maps *)
(* ===================================================================== *)

Module ObjectMap.

(** The property names that every object literal inherits from
    [Object.prototype]. *)
Definition objectPrototypeMembers : list jsstring :=
  [str "constructor"; str "hasOwnProperty"; str "isPrototypeOf";
   str "propertyIsEnumerable"; str "toLocaleString"; str "toString";
   str "valueOf"; str "__proto__"; str "__defineGetter__";
   str "__defineSetter__"; str "__lookupGetter__"; str "__lookupSetter__"].

Definition inherited (key : jsstring) : bool :=
  existsb (Js.eqb key) objectPrototypeMembers.

(** The result of [obj[key]] for an object literal with string values. *)
Inductive value : Type :=
| Own (v : jsstring)          (* a property of the literal *)
| Inherited (key : jsstring)  (* a member of [Object.prototype] *)
| Undefined.

Fixpoint ownProperty (table : list (jsstring * jsstring)) (key : jsstring)
    : option jsstring :=
  match table with
  | [] => None
  | (k, v) :: r => if Js.eqb k key then Some v else ownProperty r key
  end.

(** [obj[key]] *)
Definition lookup (table : list (jsstring * jsstring)) (key : jsstring) : value :=
  match ownProperty table key with
  | Some v => Own v
  | None => if inherited key then Inherited key else Undefined
  end.

End ObjectMap.

(* ===================================================================== *)
(** ** Admonition panels *)
(* ===================================================================== *)

Module Panels.
Import ObjectMap.

(** [classList]: the tokens of the [class] attribute, which ASCII white
    space separates. *)
Definition isAsciiSpace (c : N) : bool :=
  (c =? 9)%N || (c =? 10)%N || (c =? 12)%N || (c =? 13)%N || (c =? 32)%N.

Fixpoint tokens (cur : jsstring) (s : jsstring) : list jsstring :=
  match s with
  | [] => match cur with [] => [] | _ => [rev cur] end
  | c :: r =>
      if isAsciiSpace c
      then match cur with [] => tokens [] r | _ => rev cur :: tokens [] r end
      else tokens (c :: cur) r
  end.

Definition classList (a : attrs) : list jsstring :=
  tokens [] (default [] (getAttribute (str "class") a)).

(** [el.classList.contains(cls)], and the selector [.cls]. *)
Definition hasClass (cls : jsstring) (a : attrs) : bool :=
  existsb (Js.eqb cls) (classList a).

(** The first element in document order, [n] itself included, that [p]
    accepts. *)
Fixpoint findFirst (p : jsstring -> attrs -> bool) (n : node) : option node :=
  match n with
  | Text _ => None
  | Elem t a kids =>
      if p t a then Some n
      else
        (fix go (l : list node) : option node :=
           match l with
           | [] => None
           | k :: r =>
               match findFirst p k with
               | Some x => Some x
               | None => go r
               end
           end) kids
  end.

Definition kidsOf (n : node) : list node :=
  match n with Elem _ _ kids => kids | Text _ => [] end.

Definition matches (p : jsstring -> attrs -> bool) (n : node) : bool :=
  match n with Elem t a _ => p t a | Text _ => false end.

(** [el.querySelector(sel)]: descendants only. *)
Fixpoint querySelector (p : jsstring -> attrs -> bool) (kids : list node)
    : option node :=
  match kids with
  | [] => None
  | k :: r =>
      match findFirst p k with
      | Some x => Some x
      | None => querySelector p r
      end
  end.

(** [container.querySelectorAll(sel).forEach(el => el.replaceWith(build(el)))]
    where [build] reads [el] only.  The list is fixed before the loop: an
    element found inside another one is replaced in a subtree that has left
    the document, so in the document the outermost elements are replaced
    and what they held is kept as it was. *)
Fixpoint replaceAll (p : jsstring -> attrs -> bool) (build : node -> node)
    (n : node) : node :=
  match n with
  | Text _ => n
  | Elem t a kids =>
      Elem t a (map (fun k => if matches p k then build k
                              else replaceAll p build k) kids)
  end.

Section WithBrowser.

(** [String.prototype.toUpperCase], the fragment parser behind the
    [innerHTML] setter, and the text that a template literal prints for a
    member of [Object.prototype]: all three belong to the browser. *)
Variable toUpperCase : jsstring -> jsstring.
Variable parseHTML : jsstring -> list node.
Variable printInherited : jsstring -> jsstring.

Definition panelClasses : list (jsstring * jsstring) :=
  [(str "confluence-information-macro-information", str "Info");
   (str "confluence-information-macro-note", str "Note");
   (str "confluence-information-macro-warning", str "Warning");
   (str "confluence-information-macro-tip", str "Tip");
   (str "confluence-information-macro-success", str "Success")].

Definition emojis : list (jsstring * jsstring) :=
  [(str "Info", [8505; 65039]%N);
   (str "Note", [55357; 56541]%N);
   (str "Warning", [9888; 65039]%N);
   (str "Tip", [55357; 56481]%N);
   (str "Success", [9989]%N);
   (str "Error", [10060]%N)].

(** [getEmojiForPanel(type)], as the template literal prints it. *)
Definition getEmojiForPanel (type : jsstring) : jsstring :=
  match lookup emojis type with
  | Own v => if bool_decide (v = []) then [8505; 65039]%N else v
  | Inherited key => printInherited key
  | Undefined => [8505; 65039]%N
  end.

(** Units that make the fragment parser do more than copy text. *)
Definition plainUnit (c : N) : bool :=
  negb ((c =? 60)%N || (c =? 38)%N || (c =? 0)%N || (c =? 13)%N).

(** [p.innerHTML = `<strong>${text}</strong>`] *)
Definition strongParagraph (text : jsstring) : node :=
  Elem (str "p") []
    (if forallb plainUnit text
     then [Elem (str "strong") [] (match text with [] => [] | _ => [Text text] end)]
     else parseHTML (str "<strong>" ++ text ++ str "</strong>")).

(** The label of an old-style panel: the first entry of [panelClasses]
    whose class the element has, [Note] if it has none. *)
Fixpoint panelType (entries : list (jsstring * jsstring)) (a : attrs) : jsstring :=
  match entries with
  | [] => str "Note"
  | (cls, label) :: r => if hasClass cls a then label else panelType r a
  end.

Definition isMacro (t : jsstring) (a : attrs) : bool :=
  hasClass (str "confluence-information-macro") a.

Definition buildOldPanel (macro : node) : node :=
  match macro with
  | Text _ => macro
  | Elem _ a kids =>
      let type := panelType panelClasses a in
      let body :=
        default macro
          (querySelector (fun _ a' => hasClass (str "confluence-information-macro-body") a') kids) in
      Elem (str "blockquote") []
        (strongParagraph (getEmojiForPanel type ++ str " " ++ type ++ str ":")
         :: kidsOf body)
  end.

Definition isNewPanel (t : jsstring) (a : attrs) : bool :=
  hasAttribute (str "data-panel-type") a.

Definition buildNewPanel (panel : node) : node :=
  match panel with
  | Text _ => panel
  | Elem _ a kids =>
      let type :=
        match getAttribute (str "data-panel-type") a with
        | Some (c :: r) => c :: r
        | _ => str "info"
        end in
      let label := toUpperCase (take 1 type) ++ drop 1 type in
      let content :=
        default panel
          (querySelector (fun _ a' => hasAttribute (str "data-panel-content") a') kids) in
      Elem (str "blockquote") []
        (strongParagraph (getEmojiForPanel label ++ str " " ++ label ++ str ":")
         :: kidsOf content)
  end.

Definition isColouredPanel (t : jsstring) (a : attrs) : bool :=
  hasClass (str "panel") a && negb (hasClass (str "code") a).

Definition buildColouredPanel (panel : node) : node :=
  match panel with
  | Text _ => panel
  | Elem _ a kids =>
      let header := querySelector (fun _ a' => hasClass (str "panelHeader") a') kids in
      let body :=
        default panel
          (querySelector (fun _ a' => hasClass (str "panelContent") a') kids) in
      Elem (str "blockquote") []
        (match header with
         | Some h => [strongParagraph (trim (textContent h))]
         | None => []
         end ++ kidsOf body)
  end.

(** [convertPanels(container)] *)
Definition convertPanels (container : node) : node :=
  replaceAll isColouredPanel buildColouredPanel
    (replaceAll isNewPanel buildNewPanel
       (replaceAll isMacro buildOldPanel container)).

End WithBrowser.

(** The element of the warning scenario as the design document writes it,
    and with the class that marks an information macro. *)
Definition warningAsWritten : node :=
  Elem (str "div") [(str "class", str "confluence-information-macro-warning")]
    [Elem (str "p") [] [Text (str "Be careful")]].

Definition warningMacro : node :=
  Elem (str "div")
    [(str "class", str "confluence-information-macro confluence-information-macro-warning")]
    [Elem (str "p") [] [Text (str "Be careful")]].

(** The content root that holds [n] alone. *)
Definition rootOf (n : node) : node := Elem (str "div") [] [n].

Definition hasBlockquote (n : node) : bool :=
  hasDescendant (fun t => Js.eqb t (str "blockquote")) n.

End Panels.

(* ===================================================================== *)
(** ** Code language detection *)
(* ===================================================================== *)

Module CodeLanguage.
Import ObjectMap.

(** What [normalizeLanguage] returns: a string, or the member of
    [Object.prototype] that the alias table inherits under that key. *)
Inductive language : Type :=
| LangText (s : jsstring)
| LangObject (key : jsstring).

Section WithLowerCase.

(** [String.prototype.toLowerCase] *)
Variable toLowerCase : jsstring -> jsstring.

Definition aliases : list (jsstring * jsstring) :=
  [(str "js", str "javascript");
   (str "ts", str "typescript");
   (str "py", str "python");
   (str "rb", str "ruby");
   (str "sh", str "bash");
   (str "shell", str "bash");
   (str "yml", str "yaml");
   (str "c#", str "csharp");
   (str "c++", str "cpp")].

(** [normalizeLanguage(lang)]: [map[lang.toLowerCase()] || lang.toLowerCase()] *)
Definition normalizeLanguage (lang : jsstring) : language :=
  let lower := toLowerCase lang in
  match lookup aliases lower with
  | Own v => if bool_decide (v = []) then LangText lower else LangText v
  | Inherited key => LangObject key
  | Undefined => LangText lower
  end.

(** A match of [prefix(\w+)] at the start of [s], where [skipSpace] says
    whether [\s*] stands between the two; the value is the group. *)
Definition wordAfter (prefix : jsstring) (skipSpace : bool) (s : jsstring)
    : option jsstring :=
  if startsWith prefix s then
    let r := drop (length prefix) s in
    let r' := if skipSpace then dropWhile isSpace r else r in
    match takeWhile isWord r' with
    | [] => None
    | w => Some w
    end
  else None.

(** The first match of a pattern, scanning from the left. *)
Fixpoint firstMatch (at_ : jsstring -> option jsstring) (s : jsstring)
    : option jsstring :=
  match at_ s with
  | Some w => Some w
  | None => match s with [] => None | _ :: r => firstMatch at_ r end
  end.

(** [params.match(/brush:\s*(\w+)/)], group 1 *)
Definition brushParam (params : jsstring) : option jsstring :=
  firstMatch (wordAfter (str "brush:") true) params.

(** [classStr.match(/language-(\w+)|lang-(\w+)|brush-(\w+)/)], the group
    that took part. *)
Definition classLanguage (classStr : jsstring) : option jsstring :=
  firstMatch (fun s =>
    match wordAfter (str "language-") false s with
    | Some w => Some w
    | None =>
        match wordAfter (str "lang-") false s with
        | Some w => Some w
        | None => wordAfter (str "brush-") false s
        end
    end) classStr.

Definition attrsOf (n : node) : attrs :=
  match n with Elem _ a _ => a | Text _ => [] end.

Definition className (n : node) : jsstring :=
  default [] (getAttribute (str "class") (attrsOf n)).

(** [a || b] for attribute values: an absent or empty [a] gives [b]. *)
Definition orElse (a b : option jsstring) : option jsstring :=
  match a with
  | Some (c :: r) => Some (c :: r)
  | _ => b
  end.

(** [detectCodeLanguage(pre, panel)]; the empty string is [LangText []]. *)
Definition detectCodeLanguage (pre panel : node) : language :=
  let params := default [] (getAttribute (str "data-syntaxhighlighter-params") (attrsOf pre)) in
  match brushParam params with
  | Some w => normalizeLanguage w
  | None =>
      let code := Panels.querySelector (fun t _ => Js.eqb t (str "code")) (Panels.kidsOf pre) in
      let classStr :=
        className pre ++ str " " ++ from_option className [] code
        ++ str " " ++ className panel in
      match classLanguage classStr with
      | Some w => normalizeLanguage w
      | None =>
          match orElse (getAttribute (str "data-language") (attrsOf pre))
                       (getAttribute (str "data-language") (attrsOf panel)) with
          | Some (c :: r) => normalizeLanguage (c :: r)
          | _ => LangText []
          end
      end
  end.

End WithLowerCase.

(** Lower-casing unit by unit, which is what the browser does on ASCII. *)
Definition asciiLower (s : jsstring) : jsstring := lowerUnit <$> s.

(** A [pre] whose highlighter parameters name the brush [constructor]. *)
Definition preConstructor : node :=
  Elem (str "pre")
    [(str "data-syntaxhighlighter-params", str "brush: constructor; gutter: false")]
    [Text (str "x")].

Definition plainPanel : node := Elem (str "div") [(str "class", str "code panel")] [].

End CodeLanguage.

(* ===================================================================== *)
(** ** Extraction *)
(* ===================================================================== *)

Module Extract.
Import Sectioning.

(** [container.querySelectorAll('table')]: the tables below the container,
    nested ones as well, in document order.  The list is made before the
    loop starts, and the loop comes to each table as the turns of the
    tables before it have left it: a table nested in one of them has had
    its cells cleaned by then, and may have gained a row or lost its place
    in the tree.  [NextTable t later] is a list whose first table is [t],
    as it is when its turn comes, and whose rest is [later t'] when that
    turn has made [t'] of it. *)
Inductive tableList : Type :=
| NoTable
| NextTable (t : table) (later : table -> tableList).

(** An element that a selector can return: its serialization, read by
    [innerHTML], and the tables below it. *)
Record element : Type := mkElement {
  innerHTML : jsstring;
  tables : tableList
}.

(** [document.querySelector] *)
Definition document := jsstring -> option element.

(** The double quote. *)
Definition quote : jsstring := [34%N].

Definition selectors : list jsstring :=
  [str "[data-testid=" ++ quote ++ str "renderer-page" ++ quote ++ str "]";
   str ".ak-renderer-document";
   str "#content .wiki-content";
   str "#main-content .wiki-content";
   str ".wiki-content";
   str "#main-content";
   str "#content";
   str "article[role=" ++ quote ++ str "main" ++ quote ++ str "]";
   str "main"].

(** [for (const sel of sels) { const el = document.querySelector(sel);
    if (el && test(el)) return el; }] *)
Fixpoint firstWhere (doc : document) (test : element -> bool) (sels : list jsstring)
    : option element :=
  match sels with
  | [] => None
  | sel :: r =>
      match doc sel with
      | Some el => if test el then Some el else firstWhere doc test r
      | None => firstWhere doc test r
      end
  end.

Definition contentLength (el : element) : nat := length (trim (innerHTML el)).

(** [findContentElement()] *)
Definition findContentElement (doc : document) : option element :=
  match firstWhere doc (fun el => (100 <? contentLength el)%nat) selectors with
  | Some el => Some el
  | None => firstWhere doc (fun el => (0 <? contentLength el)%nat) selectors
  end.

Section WithBrowser.

Variable removeProperty : jsstring -> jsstring -> jsstring.
Variable reparse : list node -> list node.

(** [err.message] of an exception, as the browser words it. *)
Variable domMessage : domError -> jsstring.

(** The loop of [normalizeConfluenceTables] over the tables: an exception
    leaves the loop, and so the tables after it are not looked at.  The
    result lists every table as its own turn left it. *)
Fixpoint normalizeTables (ts : tableList) : outcome (list table) :=
  match ts with
  | NoTable => Done []
  | NextTable t later =>
      match Clean.normalizeTable removeProperty reparse t with
      | Throws e => Throws e
      | Hangs => Hangs
      | Done t' =>
          match normalizeTables (later t') with
          | Throws e => Throws e
          | Hangs => Hangs
          | Done r' => Done (t' :: r')
          end
      end
  end.

(** What the message listener sends back. *)
Inductive response : Type :=
| Success (normalized : list table)        (* [{ success: true, data }] *)
| Failure (error : jsstring)               (* [{ success: false, error }] *)
| NoResponse.                              (* the promise never settles *)

Definition extractionMessage : jsstring :=
  str "Could not locate the Confluence page content. Make sure you are viewing a Confluence page.".

(** [extractPage], seen from the listener: the promise is rejected when
    no content element is found and when a pass of [preprocessContent]
    raises, and it never settles when a pass does not return; of the
    passes, the normalization of the tables is modelled, and of the data
    sent back, its tables. *)
Definition extractPage (doc : document) : response :=
  match findContentElement doc with
  | None => Failure extractionMessage
  | Some contentEl =>
      match normalizeTables (tables contentEl) with
      | Throws e => Failure (domMessage e)
      | Hangs => NoResponse
      | Done ts => Success ts
      end
  end.

End WithBrowser.

(** The tables of the page below: the table with a header section nested
    in its header cell, and after it the nested table, with the header row
    that it holds from the start. *)
Definition tablesWithNestedHeader : tableList :=
  NextTable NormalizeExample.nestedHeaderSection
    (fun _ => NextTable [THead [mkRow [] [mkCell TH [] [Text (str "x")]]]]
                (fun _ => NoTable)).

(** A page whose main content is long enough and holds these tables. *)
Definition pageWithNestedHeader : document :=
  fun sel =>
    if Js.eqb sel (str "#main-content")
    then Some (mkElement (replicate 200 120%N) tablesWithNestedHeader)
    else None.

End Extract.

(* ===================================================================== *)
(** ** Image embedding *)
(* ===================================================================== *)

Module Embed.

(** How a promise settles. *)
Inductive promise (A : Type) : Type :=
| Resolved (a : A)
| Rejected.
#[global] Arguments Resolved {A} a.
#[global] Arguments Rejected {A}.

(** What the network answers to [fetch(url)] within the time limit: the
    request fails or is aborted, or a response arrives, with its [ok] flag,
    the type and size of its body, and the result of reading the body as a
    data URI ([None]: the reader fails). *)
Inductive fetched : Type :=
| FetchFailed
| Response (ok : bool) (type : jsstring) (size : N) (reader : option jsstring).

(** What drawing the image on a canvas gives: a data URI, or a failure
    (load error, time limit, tainted canvas). *)
Inductive drawn : Type :=
| CanvasUri (uri : jsstring)
| CanvasFailed.

Record world : Type := mkWorld {
  fetch : jsstring -> fetched;
  canvas : jsstring -> drawn
}.

Definition maxBytes : N := (5 * 1024 * 1024)%N.

(** The [try] block of [fetchImageAsDataUri]. *)
Definition viaFetch (w : world) (url : jsstring) : promise (option jsstring) :=
  match fetch w url with
  | FetchFailed => Rejected
  | Response ok type size reader =>
      if negb ok then Rejected
      else if negb (startsWith (str "image/") type) then Rejected
      else if (maxBytes <? size)%N then Resolved None
      else match reader with
           | Some uri => Resolved (Some uri)
           | None => Rejected
           end
  end.

(** [imageToDataUriViaCanvas(url, timeoutMs)] *)
Definition viaCanvas (w : world) (url : jsstring) : promise (option jsstring) :=
  match canvas w url with
  | CanvasUri uri => Resolved (Some uri)
  | CanvasFailed => Rejected
  end.

(** [fetchImageAsDataUri(url, timeoutMs)]: the canvas is tried when the
    [try] block throws, and when it fails too the first error is thrown
    again. *)
Definition fetchImageAsDataUri (w : world) (url : jsstring) : promise (option jsstring) :=
  match viaFetch w url with
  | Resolved r => Resolved r
  | Rejected =>
      match viaCanvas w url with
      | Resolved r => Resolved r
      | Rejected => Rejected
      end
  end.

(** An [img] element, by its attributes. *)
Abbreviation image := attrs.

Definition srcOf (img : image) : jsstring :=
  default [] (getAttribute (str "src") img).

(** An image counts as embedded when its source is a data URI. *)
Definition embedded (img : image) : bool := startsWith (str "data:") (srcOf img).

(** [fetchAndEmbedImage(img, timeoutMs)]: the promise it returns and the
    image as it leaves it.  The [catch] block is empty. *)
Definition fetchAndEmbedImage (w : world) (img : image) : promise image :=
  let src := srcOf img in
  if startsWith (str "data:") src then Resolved img
  else if Js.eqb src [] || Js.eqb src (str "about:blank") then Resolved img
  else
    match fetchImageAsDataUri w src with
    | Resolved (Some (c :: r)) => Resolved (setAttribute (str "src") (c :: r) img)
    | Resolved _ => Resolved img
    | Rejected => Resolved img
    end.

(** [images.slice(i, i + CONCURRENCY)] for [i = 0, 4, 8, ...] *)
Fixpoint batches (fuel : nat) (images : list image) : list (list image) :=
  match fuel, images with
  | _, [] => []
  | O, _ => []
  | S f, _ => take 4 images :: batches f (drop 4 images)
  end.

(** [embedImagesAsBase64(container)]: the settled promises, batch after
    batch. *)
Definition embedImagesAsBase64 (w : world) (images : list image)
    : list (promise image) :=
  concat ((fun batch : list image => fetchAndEmbedImage w <$> batch)
            <$> batches (length images) images).

(** A world in which nothing can be loaded. *)
Definition offline : world := mkWorld (fun _ => FetchFailed) (fun _ => CanvasFailed).

Definition linkedImage : image :=
  [(str "src", str "https://wiki.example/download/a.png"); (str "alt", str "a")].

End Embed.

(* ===================================================================== *)
(** ** The live document and the working copy *)
(* ===================================================================== *)

Module Heap.

(** Nodes as objects: an identity, a label and the identities of the
    children.  The live page and every node made later share one store. *)
Inductive label : Type :=
| LText (content : jsstring)
| LElem (tag : jsstring) (attributes : attrs).

Record hnode : Type := mkH {
  hLabel : label;
  hKids : list nat
}.

Record store : Type := mkStore {
  cells : gmap nat hnode;
  next : nat                      (* the identity of the next node made *)
}.

(** [document.createElement], [document.createTextNode]: a new node, not
    attached to anything. *)
Definition alloc (h : hnode) (s : store) : nat * store :=
  (next s, mkStore (<[next s := h]> (cells s)) (S (next s))).

(** An update of the node [id]. *)
Definition write (id : nat) (h : hnode) (s : store) : store :=
  mkStore (<[id := h]> (cells s)) (next s).

Definition modify (id : nat) (g : hnode -> hnode) (s : store) : store :=
  match cells s !! id with
  | Some h => write id (g h) s
  | None => s
  end.

(** New nodes for a whole tree; the identity of its root is returned. *)
Fixpoint allocTree (t : node) (s : store) : nat * store :=
  match t with
  | Text c => alloc (mkH (LText c) []) s
  | Elem tag a kids =>
      let '(ids, s1) :=
        (fix go (l : list node) (s : store) : list nat * store :=
           match l with
           | [] => ([], s)
           | k :: r =>
               let '(i, s') := allocTree k s in
               let '(js, s'') := go r s' in
               (i :: js, s'')
           end) kids s in
      alloc (mkH (LElem tag a) ids) s1
  end.

Fixpoint allocForest (l : list node) (s : store) : list nat * store :=
  match l with
  | [] => ([], s)
  | k :: r =>
      let '(i, s') := allocTree k s in
      let '(js, s'') := allocForest r s' in
      (i :: js, s'')
  end.

(** The tree below [id], read to depth [fuel]. *)
Fixpoint readTree (fuel : nat) (s : store) (id : nat) : node :=
  match fuel with
  | O => Text []
  | S f =>
      match cells s !! id with
      | None => Text []
      | Some h =>
          match hLabel h with
          | LText c => Text c
          | LElem tag a => Elem tag a (map (readTree f s) (hKids h))
          end
      end
  end.

(** [el.cloneNode(true)] *)
Definition cloneNode (fuel : nat) (id : nat) (s : store) : nat * store :=
  allocTree (readTree fuel s id) s.

(** The elements below [id] in document order, each with its parent:
    what [querySelectorAll] walks over. *)
Fixpoint below (fuel : nat) (s : store) (id : nat) : list (nat * nat) :=
  match fuel with
  | O => []
  | S f =>
      match cells s !! id with
      | None => []
      | Some h => concat (map (fun k => (id, k) :: below f s k) (hKids h))
      end
  end.

(** What a pass does to an element it has selected. *)
Inductive edit : Type :=
| Remove                                     (* [el.remove()] *)
| ReplaceWith (build : node -> option node)  (* [el.replaceWith(...)], or nothing *)
| Rewrite (f : node -> node).                (* changes at and below [el] *)

(** A pass: [container.querySelectorAll(sel).forEach(el => ...)]. *)
Record pass : Type := mkPass {
  selects : label -> bool;
  action : edit
}.

Definition selected (p : pass) (s : store) (el : nat) : bool :=
  match cells s !! el with
  | Some h => selects p (hLabel h)
  | None => false
  end.

Definition dropKid (el : nat) (h : hnode) : hnode :=
  mkH (hLabel h) (base.filter (fun k => k <> el) (hKids h)).

Definition swapKid (el new : nat) (h : hnode) : hnode :=
  mkH (hLabel h) ((fun k => if decide (k = el) then new else k) <$> hKids h).

(** One turn of the loop, for the element [el] whose parent is [par]. *)
Definition applyEdit (fuel : nat) (e : edit) (s : store) (target : nat * nat) : store :=
  let '(par, el) := target in
  match e with
  | Remove => modify par (dropKid el) s
  | ReplaceWith build =>
      match build (readTree fuel s el) with
      | None => s
      | Some t =>
          let '(new, s1) := allocTree t s in
          modify par (swapKid el new) s1
      end
  | Rewrite f =>
      match f (readTree fuel s el) with
      | Text c => write el (mkH (LText c) []) s
      | Elem tag a kids =>
          let '(ids, s1) := allocForest kids s in
          write el (mkH (LElem tag a) ids) s1
      end
  end.

(** The list of elements is fixed before the loop runs. *)
Definition runPass (fuel : nat) (container : nat) (s : store) (p : pass) : store :=
  let targets := base.filter (fun t => selected p s (snd t) = true) (below fuel s container) in
  foldl (applyEdit fuel (action p)) s targets.

(** [extractPage]: the content element [contentEl] is found by reading,
    it is cloned, and every pass of [preprocessContent], and the embedding
    of the images after them, is handed the clone. *)
Definition extractPage (fuel : nat) (passes : list pass) (contentEl : nat) (s : store)
    : nat * store :=
  let '(clone, s1) := cloneNode fuel contentEl s in
  (clone, foldl (runPass fuel clone) s1 passes).

(** Every node of the store was made before [next], and so were its
    children. *)
Definition wellFormed (s : store) : Prop :=
  forall id h, cells s !! id = Some h ->
               (id < next s)%nat /\ Forall (fun k => (k < next s)%nat) (hKids h).

(** The nodes made from [n0] on refer to nodes made from [n0] on. *)
Definition closedFrom (n0 : nat) (s : store) : Prop :=
  (n0 <= next s)%nat /\
  forall id h, (n0 <= id)%nat -> cells s !! id = Some h ->
               Forall (fun k => (n0 <= k)%nat) (hKids h).

(** The nodes made before [n0] are in [s'] what they are in [s]. *)
Definition sameBelow (n0 : nat) (s s' : store) : Prop :=
  forall id, (id < n0)%nat -> cells s' !! id = cells s !! id.

(** The invariant of the passes: the nodes made before [n0] are as in
    [s0], and the nodes made from [n0] on refer to such nodes only. *)
Definition keeps (n0 : nat) (s0 s : store) : Prop :=
  sameBelow n0 s0 s /\ closedFrom n0 s.

(** *** The passes of [preprocessContent] *)

Section Passes.

(** What a pass puts in the place of an element, or makes of it, is left
    open here: [replacement k] and [rewriting k] stand for the content that
    pass number [k] computes from the element it reads. *)
Variable replacement : nat -> node -> option node.
Variable rewriting : nat -> node -> node.

Definition onElement (p : jsstring -> attrs -> bool) (l : label) : bool :=
  match l with LElem t a => p t a | LText _ => false end.

Definition cls (c : string) : jsstring -> attrs -> bool :=
  fun _ a => Panels.hasClass (str c) a.
Definition ident (i : string) : jsstring -> attrs -> bool :=
  fun _ a => bool_decide (getAttribute (str "id") a = Some (str i)).
Definition attrIs (n v : string) : jsstring -> attrs -> bool :=
  fun _ a => bool_decide (getAttribute (str n) a = Some (str v)).
Definition hasAttr (n : string) : jsstring -> attrs -> bool :=
  fun _ a => hasAttribute (str n) a.
Definition tagIs (t : string) : jsstring -> attrs -> bool :=
  fun t' _ => Js.eqb t' (str t).
Definition both (p q : jsstring -> attrs -> bool) : jsstring -> attrs -> bool :=
  fun t a => p t a && q t a.
Definition anyOf (ps : list (jsstring -> attrs -> bool)) : jsstring -> attrs -> bool :=
  fun t a => existsb (fun p => p t a) ps.

(** [removeUnwantedElements]: one loop for each selector. *)
Definition removeUnwantedElements : list pass :=
  (fun p => mkPass (onElement p) Remove) <$>
    [cls "toc-macro"; cls "toc-zone"; attrIs "data-macro-name" "toc";
     cls "page-break"; cls "confluence-page-break";
     cls "like-button"; cls "page-comments"; ident "comments-section";
     ident "likes-and-labels-container";
     cls "confluence-page-action"; cls "page-metadata-modification-info";
     cls "wysiwyg-macro-placeholder"].

Definition replacing (k : nat) (p : jsstring -> attrs -> bool) : pass :=
  mkPass (onElement p) (ReplaceWith (replacement k)).
Definition rewritingIn (k : nat) (p : jsstring -> attrs -> bool) : pass :=
  mkPass (onElement p) (Rewrite (rewriting k)).

(** The loops of [preprocessContent], in the order in which they run. *)
Definition preprocessContent : list pass :=
  removeUnwantedElements ++
  [ (* convertEmoticons *)
    replacing 1 (both (tagIs "img") (anyOf [cls "emoticon"; hasAttr "data-emoji-short-name"]));
    (* convertUserMentions *)
    replacing 2 (anyOf [cls "confluence-userlink"; attrIs "data-node-type" "mention"]);
    (* convertJiraLinks *)
    replacing 3 (anyOf [cls "jira-issue-key"; attrIs "data-node-type" "inlineCard"]);
    (* convertCodeBlocks *)
    replacing 4 (anyOf [both (cls "code") (cls "panel"); cls "codeContent";
                        both (cls "preformatted") (cls "panel")]);
    replacing 5 (attrIs "data-node-type" "codeBlock");
    (* convertPanels *)
    replacing 6 (cls "confluence-information-macro");
    replacing 7 (hasAttr "data-panel-type");
    replacing 8 (fun t a => cls "panel" t a && negb (cls "code" t a));
    (* convertExpandSections *)
    replacing 9 (anyOf [cls "expand-container"; attrIs "data-node-type" "expand"]);
    (* convertStatusMacros *)
    replacing 10 (anyOf [cls "status-macro"; cls "aui-lozenge";
                         attrIs "data-node-type" "status"]);
    (* convertTaskLists *)
    replacing 11 (anyOf [cls "inline-task-list"; attrIs "data-node-type" "taskList"]);
    (* normalizeConfluenceTables *)
    replacing 12 (anyOf [cls "table-wrap"; cls "tablesorter-header-inner";
                         both (tagIs "div") (cls "scroll-wrapper")]);
    rewritingIn 13 (tagIs "table");
    (* cleanupImages *)
    rewritingIn 14 (tagIs "img") ].

(** [embedImagesAsBase64], run on the clone when images are to be embedded. *)
Definition embedImages : list pass := [rewritingIn 15 (tagIs "img")].

End Passes.

(** A page of three nodes, [<div><img class="emoticon">x</div>], and a
    pass that replaces emoticons by text. *)
Definition smallPage : store :=
  mkStore
    (<[2%nat := mkH (LElem (str "div") []) [0%nat; 1%nat]]>
       (<[1%nat := mkH (LText (str "x")) []]>
          (<[0%nat := mkH (LElem (str "img") [(str "class", str "emoticon")]) []]> ∅)))
    3.

Definition emoticonPass : pass :=
  mkPass
    (fun l => match l with
              | LElem t a => Js.eqb t (str "img") && Panels.hasClass (str "emoticon") a
              | LText _ => false
              end)
    (ReplaceWith (fun _ => Some (Text (str ":)")))).

End Heap.

(* ===================================================================== *)
(** ** Cells in linear form *)
(* ===================================================================== *)

Module NormalForm.
Import Expand Promote Sectioning Clean.

Section WithStyle.

Variable removeProperty : jsstring -> jsstring -> jsstring.

(** No [width] and no [height], as attribute or in the [style]. *)
Definition sizingFree (a : attrs) : bool :=
  negb (hasAttribute (str "width") a) && negb (hasAttribute (str "height") a)
  && match getAttribute (str "style") a with
     | None => true
     | Some v => Js.eqb (removeProperty (str "height") (removeProperty (str "width") v)) v
     end.

(** White space occurs as single spaces only. *)
Fixpoint collapsed (inRun : bool) (s : jsstring) : bool :=
  match s with
  | [] => true
  | c :: r =>
      if isSpace c then negb inRun && (c =? 32)%N && collapsed true r
      else collapsed false r
  end.

Definition textCollapsed (n : node) : bool :=
  match n with Text s => collapsed false s | Elem _ _ _ => true end.

(** No [p] and no [div] at or below the node, and every cell below it is
    linear. *)
Fixpoint blockFree (n : node) : bool :=
  match n with
  | Text _ => true
  | Elem t a kids =>
      negb (isBlock t) && forallb blockFree kids
      && (if isCellTag t then sizingFree a && forallb textCollapsed kids else true)
  end.

(** A cell as cell linearization leaves it. *)
Definition linearCell (c : cell) : bool :=
  sizingFree (cellAttrs c) && forallb blockFree (cellKids c)
  && forallb textCollapsed (cellKids c).

(** The same for the cells below a child of the table that is no section. *)
Fixpoint linearOutside (n : node) : bool :=
  match n with
  | Text _ => true
  | Elem t a kids =>
      if isCellTag t
      then sizingFree a && forallb blockFree kids && forallb textCollapsed kids
      else forallb linearOutside kids
  end.

Definition linearSection (s : section) : bool :=
  match s with
  | OtherChild n => linearOutside n
  | _ => forallb (fun r => forallb linearCell (rowCells r)) (sectionRows s)
  end.

End WithStyle.

End NormalForm.


(* ===================================================================== *)
(** ** The popup script: detection, front matter, file names *)
(* ===================================================================== *)

Module Popup.
Import Render Promote.

(** [LineTerminator] of ECMAScript: what [.] does not match, and the units
    before which [$] holds under the [m] flag. *)
Definition isLineTerminator (c : N) : bool :=
  (c =? 10)%N || (c =? 13)%N || (c =? 8232)%N || (c =? 8233)%N.

Definition notLineTerminator (c : N) : bool := negb (isLineTerminator c).

(** *** Page detection *)

Inductive pageType : Type :=
| Cloud                                   (* ['Cloud'] *)
| ServerDC.                               (* ['Server/DC'] *)

(** A match of [/\.atlassian\.net\/.*\/pages\//i] at the start of [s]. *)
Definition cloudPagesAt (s : jsstring) : bool :=
  startsWithCI (str ".atlassian.net/") s
  && containsCI (str "/pages/") (takeWhile notLineTerminator (drop 15 s)).

(** [[A-Za-z0-9]] *)
Definition isAlnum (c : N) : bool :=
  ((48 <=? c) && (c <=? 57))%N
  || ((65 <=? c) && (c <=? 90))%N
  || ((97 <=? c) && (c <=? 122))%N.

(** A match of [/\/display\/[A-Za-z0-9]+\//i] at the start of [s]. *)
Definition displayAt (s : jsstring) : bool :=
  startsWithCI (str "/display/") s
  && match dropWhile isAlnum (drop 9 s) with
     | 47%N :: _ => negb (bool_decide (takeWhile isAlnum (drop 9 s) = []))
     | _ => false
     end.

(** [detectConfluence(url)]; [None] is [null]. *)
Definition detectConfluence (url : jsstring) : option pageType :=
  match url with
  | [] => None
  | _ =>
      if containsCI (str ".atlassian.net/wiki/") url then Some Cloud
      else if suffixExists cloudPagesAt url then Some Cloud
      else if suffixExists displayAt url then Some ServerDC
      else if containsCI (str "/pages/viewpage.action") url then Some ServerDC
      else if containsCI (str "/confluence/") url then Some ServerDC
      else None
  end.

(** *** YAML front matter *)

Definition quote : N := 34%N.
Definition backslash : N := 92%N.

(** [escapeYaml(str)]: a backslash is put before every double quote, then
    every line feed becomes a space. *)
Definition escapeYaml (s : jsstring) : jsstring :=
  (fun c => if (c =? nl)%N then 32%N else c)
    <$> concat ((fun c => if (c =? quote)%N then [backslash; quote] else [c]) <$> s).

(** What [extractMetadata] collects: the address of the page, and what
    the page shows of its space, author, date and labels ([None]: the
    property is not set). *)
Record metadata : Type := mkMetadata {
  sourceUrl : jsstring;
  space : option jsstring;
  author : option jsstring;
  lastModified : option jsstring;
  labels : option (list jsstring)
}.

(** [if (value) lines.push(...)]: the key, a colon and a space, and the
    escaped value between double quotes. *)
Definition field (key : jsstring) (value : option jsstring) : list jsstring :=
  match value with
  | Some (c :: r) => [key ++ str ": " ++ [quote] ++ escapeYaml (c :: r) ++ [quote]]
  | _ => []
  end.

Definition labelLines (ls : option (list jsstring)) : list jsstring :=
  match ls with
  | Some (l :: r) =>
      str "labels:"
      :: ((fun label => str "  - " ++ [quote] ++ escapeYaml label ++ [quote]) <$> (l :: r))
  | _ => []
  end.

(** The array [lines] of [buildFrontMatter] before it is joined; [now] is
    [new Date().toISOString()]. *)
Definition frontMatterLines (now title : jsstring) (m : metadata) : list jsstring :=
  [str "---"]
  ++ field (str "title") (Some title)
  ++ field (str "space") (space m)
  ++ field (str "author") (author m)
  ++ field (str "last_modified") (lastModified m)
  ++ field (str "source_url") (Some (sourceUrl m))
  ++ labelLines (labels m)
  ++ [str "converted_at: " ++ [quote] ++ now ++ [quote]; str "---" ++ [nl]].

(** [buildFrontMatter(title, metadata)] *)
Definition buildFrontMatter (now title : jsstring) (m : metadata) : jsstring :=
  joinLines (frontMatterLines now title m).

(** *** File names *)

Definition hyphen : N := 45%N.

(** The class of [sanitizeFilename]: slash, backslash, question mark,
    percent sign, asterisk, colon, bar, double quote, and the two angle
    brackets. *)
Definition invalidChar (c : N) : bool :=
  existsb (N.eqb c) [47; 92; 63; 37; 42; 58; 124; 34; 60; 62]%N.

(** The first replacement: each unit of the class becomes a hyphen. *)
Definition replaceInvalid (s : jsstring) : jsstring :=
  (fun c => if invalidChar c then hyphen else c) <$> s.

(** [s.replace(/p+/g, '-')] for a class [p] of units: every run becomes
    one hyphen. *)
Fixpoint runsToHyphen (p : N -> bool) (inRun : bool) (s : jsstring) : jsstring :=
  match s with
  | [] => []
  | c :: r =>
      if p c
      then if inRun then runsToHyphen p true r else hyphen :: runsToHyphen p true r
      else c :: runsToHyphen p false r
  end.

Definition isHyphen (c : N) : bool := (c =? hyphen)%N.

Definition dropLastHyphen (s : jsstring) : jsstring :=
  match rev s with
  | 45%N :: r => rev r
  | _ => s
  end.

(** [s.replace(/^-|-$/g, '')]: the first alternative takes a hyphen at
    the start, the second one a hyphen at the end of what is left. *)
Definition trimHyphens (s : jsstring) : jsstring :=
  match s with
  | 45%N :: r => dropLastHyphen r
  | _ => dropLastHyphen s
  end.

Section WithLowerCase.

(** [String.prototype.toLowerCase] *)
Variable toLowerCase : jsstring -> jsstring.

(** [sanitizeFilename(name)] *)
Definition sanitizeFilename (name : jsstring) : jsstring :=
  toLowerCase
    (take 100
       (trimHyphens
          (runsToHyphen isHyphen false
             (runsToHyphen isSpace false (replaceInvalid name))))).

End WithLowerCase.

End Popup.

(** *** Shapes of the texts that the popup script produces *)

Module PopupSpec.
Import Popup.

(** No two hyphens stand next to each other. *)
Fixpoint noHyphenRun (s : jsstring) : bool :=
  match s with
  | [] => true
  | a :: r =>
      match r with
      | b :: _ => negb (isHyphen a && isHyphen b)
      | [] => true
      end && noHyphenRun r
  end.

End PopupSpec.

(* ===================================================================== *)
(** ** The popup script: clean-up of the Markdown text *)
(* ===================================================================== *)

Module PostProcess.
Import Render Promote Popup.

Definition backtick : N := 96%N.

(** The first replacement of [postProcess],
    [s.replace(/\n{3,}/g, '\n\n')]: a run of three or more line feeds
    becomes two.  [run] is the number of line feeds read and not yet
    written. *)
Fixpoint capNewlines (run : nat) (s : jsstring) : jsstring :=
  match s with
  | [] => replicate (run `min` 2) nl
  | c :: r =>
      if (c =? nl)%N then capNewlines (S run) r
      else replicate (run `min` 2) nl ++ c :: capNewlines 0 r
  end.

(** [[ \t]] *)
Definition isBlank (c : N) : bool := (c =? 32)%N || (c =? 9)%N.

(** The second replacement, [s.replace(/[ \t]+$/gm, '')]: a run of spaces
    and tabs goes when the end of the text or a line terminator follows
    it.  [held] is the run read and not yet written, last unit first. *)
Fixpoint stripLineEnds (held : jsstring) (s : jsstring) : jsstring :=
  match s with
  | [] => []
  | c :: r =>
      if isBlank c then stripLineEnds (c :: held) r
      else if isLineTerminator c then c :: stripLineEnds [] r
      else rev held ++ c :: stripLineEnds [] r
  end.

(** The third replacement: a match of three backticks, [\w*] and a line
    feed is replaced by the three backticks, the group and a line feed. *)
Fixpoint respaceFences (fuel : nat) (s : jsstring) : jsstring :=
  match fuel with
  | O => s
  | S f =>
      match s with
      | [] => []
      | c :: r =>
          if startsWith (str "```") s then
            let w := takeWhile isWord (drop 3 s) in
            match dropWhile isWord (drop 3 s) with
            | 10%N :: rest => str "```" ++ w ++ nl :: respaceFences f rest
            | _ => c :: respaceFences f r
            end
          else c :: respaceFences f r
      end
  end.

(** [[A-Z ]] *)
Definition isCapitalOrSpace (c : N) : bool :=
  ((65 <=? c) && (c <=? 90))%N || (c =? 32)%N.

(** A match, at the start of [s], of white space, a backtick, a group of
    capitals and spaces, a backtick and white space (each [+] takes the
    whole run: the unit that must follow is not in the class): the group
    and what follows the match. *)
Definition statusAt (s : jsstring) : option (jsstring * jsstring) :=
  match takeWhile isSpace s, dropWhile isSpace s with
  | _ :: _, 96%N :: r1 =>
      match takeWhile isCapitalOrSpace r1, dropWhile isCapitalOrSpace r1 with
      | x :: xs, 96%N :: r2 =>
          match takeWhile isSpace r2 with
          | _ :: _ => Some (x :: xs, dropWhile isSpace r2)
          | [] => None
          end
      | _, _ => None
      end
  | _, _ => None
  end.

(** The fourth replacement: every such match becomes a space, the group
    between backticks, and a space. *)
Fixpoint tidyStatus (fuel : nat) (s : jsstring) : jsstring :=
  match fuel with
  | O => s
  | S f =>
      match statusAt s with
      | Some (x, rest) =>
          32%N :: backtick :: x ++ backtick :: 32%N :: tidyStatus f rest
      | None =>
          match s with
          | [] => []
          | c :: r => c :: tidyStatus f r
          end
      end
  end.

(** A match of [/^(\|.+\|)\s*$/m] at the start [s] of a line: the group,
    the white space that the match takes after it, and what follows the
    match.  The group ends with the last bar of the line; the white space
    runs to the end of the text, or else stops before the last line
    terminator of the run. *)
Definition tableRowAt (s : jsstring) : option (jsstring * jsstring * jsstring) :=
  match s with
  | 124%N :: _ =>
      let line := takeWhile notLineTerminator s in
      let k := (length line
                - length (takeWhile (fun c => negb (c =? pipe)%N) (rev line)))%nat in
      if (3 <=? k)%nat then
        let after := drop k s in
        let w := takeWhile isSpace after in
        match dropWhile isSpace after with
        | [] => Some (take k s, w, [])
        | _ :: _ =>
            let back := length (takeWhile notLineTerminator (rev w)) in
            if (back <? length w)%nat then
              let taken := (length w - back - 1)%nat in
              Some (take k s, take taken w, drop taken after)
            else None
        end
      else None
  | _ => None
  end.

(** The fifth replacement: every such match becomes its group.
    [lineStart] says whether [^] holds where [s] starts. *)
Fixpoint tidyTableRows (fuel : nat) (lineStart : bool) (s : jsstring) : jsstring :=
  match fuel with
  | O => s
  | S f =>
      match (if lineStart then tableRowAt s else None) with
      | Some (row, w, rest) =>
          row ++ tidyTableRows f
                   (from_option isLineTerminator false (list.last w)) rest
      | None =>
          match s with
          | [] => []
          | c :: r => c :: tidyTableRows f (isLineTerminator c) r
          end
      end
  end.

Definition tableTags : list jsstring :=
  [str "table"; str "thead"; str "tbody"; str "tfoot"; str "tr"; str "th";
   str "td"; str "colgroup"; str "col"; str "caption"].

(** A match of
    [/<\/?(table|thead|tbody|tfoot|tr|th|td|colgroup|col|caption)[^>]*>/i]
    at the start of [s]: what follows the match. *)
Definition tagAt (s : jsstring) : option jsstring :=
  match s with
  | 60%N :: r1 =>
      let r2 := match r1 with 47%N :: r => r | _ => r1 end in
      if existsb (fun t => startsWithCI t r2) tableTags then
        match dropWhile (fun c => negb (c =? 62)%N) r2 with
        | 62%N :: rest => Some rest
        | _ => None
        end
      else None
  | _ => None
  end.

(** The sixth replacement: every such match is removed. *)
Fixpoint stripTableTags (fuel : nat) (s : jsstring) : jsstring :=
  match fuel with
  | O => s
  | S f =>
      match tagAt s with
      | Some rest => stripTableTags f rest
      | None =>
          match s with
          | [] => []
          | c :: r => c :: stripTableTags f r
          end
      end
  end.

(** [postProcess(markdown)] *)
Definition postProcess (markdown : jsstring) : jsstring :=
  let r1 := capNewlines 0 markdown in
  let r2 := stripLineEnds [] r1 in
  let r3 := respaceFences (length r2) r2 in
  let r4 := tidyStatus (length r3) r3 in
  let r5 := tidyTableRows (length r4) true r4 in
  stripTableTags (length r5) r5.

Section WithRenderer.

(** [td.turndown(html)] with the rules of the popup registered, and
    [new Date().toISOString()]. *)
Variable turndown : jsstring -> jsstring.
Variable now : jsstring.

(** [convertToMarkdown(html, options)]; [meta] is [None] when the response
    carries no metadata. *)
Definition convertToMarkdown (html title : jsstring) (meta : option metadata)
    (includeFrontMatter includeTitle : bool) : jsstring :=
  let markdown := postProcess (turndown html) in
  let parts :=
    match meta with
    | Some m => if includeFrontMatter then [buildFrontMatter now title m] else []
    | None => []
    end
    ++ (if includeTitle && negb (Js.eqb title [])
        then [str "# " ++ title ++ [nl]] else [])
    ++ [markdown] in
  trim (joinLines parts) ++ [nl].

End WithRenderer.

End PostProcess.

Module PostProcessSpec.
Import Popup PostProcess.

(** A unit that no replacement of [postProcess] looks for: no line
    terminator, no backtick, no opening angle bracket. *)
Definition calm (c : N) : bool :=
  notLineTerminator c && negb (c =? backtick)%N && negb (c =? 60)%N.

End PostProcessSpec.

(* ===================================================================== *)
(** ** The macro passes of the content script *)
(* ===================================================================== *)

Module Macros.
Import Panels CodeLanguage.

(** [container.querySelectorAll(sel).forEach((el) => el.remove())]: the
    list is fixed before the loop, so an element found inside another one
    is removed from a subtree that has left the container already. *)
Fixpoint removeAll (p : jsstring -> attrs -> bool) (n : node) : node :=
  match n with
  | Text _ => n
  | Elem t a kids =>
      Elem t a
        ((fix go (l : list node) : list node :=
            match l with
            | [] => []
            | k :: r => if matches p k then go r else removeAll p k :: go r
            end) kids)
  end.

Definition removeSelectors : list (jsstring -> attrs -> bool) :=
  [Heap.cls "toc-macro"; Heap.cls "toc-zone"; Heap.attrIs "data-macro-name" "toc";
   Heap.cls "page-break"; Heap.cls "confluence-page-break";
   Heap.cls "like-button"; Heap.cls "page-comments"; Heap.ident "comments-section";
   Heap.ident "likes-and-labels-container";
   Heap.cls "confluence-page-action"; Heap.cls "page-metadata-modification-info";
   Heap.cls "wysiwyg-macro-placeholder"].

(** [removeUnwantedElements(container)] *)
Definition removeUnwantedElements (container : node) : node :=
  foldl (fun n p => removeAll p n) container removeSelectors.

(** [img.emoticon, img[data-emoji-short-name]] *)
Definition isEmoticon : jsstring -> attrs -> bool :=
  Heap.both (Heap.tagIs "img")
    (Heap.anyOf [Heap.cls "emoticon"; Heap.hasAttr "data-emoji-short-name"]).

(** The text node that takes the place of an emoticon. *)
Definition emoticonText (img : node) : node :=
  let a := attrsOf img in
  Text (default []
          (orElse (getAttribute (str "data-emoji-short-name") a)
             (orElse (getAttribute (str "alt") a) (getAttribute (str "title") a)))).

(** [convertEmoticons(container)] *)
Definition convertEmoticons (container : node) : node :=
  replaceAll isEmoticon emoticonText container.

Definition isMention : jsstring -> attrs -> bool :=
  Heap.anyOf [Heap.cls "confluence-userlink"; Heap.attrIs "data-node-type" "mention"].

Definition mentionText (el : node) : node :=
  Text (str "@" ++ trim (textContent el)).

(** [convertUserMentions(container)] *)
Definition convertUserMentions (container : node) : node :=
  replaceAll isMention mentionText container.

Definition isStatus : jsstring -> attrs -> bool :=
  Heap.anyOf [Heap.cls "status-macro"; Heap.cls "aui-lozenge";
              Heap.attrIs "data-node-type" "status"].

(** [el.textContent = text]: no child for the empty string. *)
Definition textChild (text : jsstring) : list node :=
  match text with
  | [] => []
  | _ => [Text text]
  end.

(** [container.querySelectorAll(sel).forEach(...)] where an element is
    replaced only when [build] gives something for it; an element that
    stays keeps its place in the container, and the elements found inside
    it have their turn later in the loop. *)
Fixpoint replaceWhere (p : jsstring -> attrs -> bool) (build : node -> option node)
    (n : node) : node :=
  match n with
  | Text _ => n
  | Elem t a kids =>
      Elem t a
        (map (fun k =>
                if matches p k
                then match build k with
                     | Some k' => k'
                     | None => replaceWhere p build k
                     end
                else replaceWhere p build k) kids)
  end.

Section WithBrowser.

(** [String.prototype.toUpperCase], [String.prototype.toLowerCase] and the
    text that a template literal prints for a member of
    [Object.prototype]. *)
Variable toUpperCase : jsstring -> jsstring.
Variable toLowerCase : jsstring -> jsstring.
Variable printInherited : jsstring -> jsstring.

Definition statusText (el : node) : node :=
  Text (str " `" ++ toUpperCase (trim (textContent el)) ++ str "` ").

(** [convertStatusMacros(container)] *)
Definition convertStatusMacros (container : node) : node :=
  replaceAll isStatus statusText container.

(** [.code.panel, .codeContent, .preformatted.panel] *)
Definition isCodePanel : jsstring -> attrs -> bool :=
  Heap.anyOf [Heap.both (Heap.cls "code") (Heap.cls "panel"); Heap.cls "codeContent";
              Heap.both (Heap.cls "preformatted") (Heap.cls "panel")].

(** [if (lang) code.className = `language-${lang}`] *)
Definition languageClass (lang : language) : attrs :=
  match lang with
  | LangText [] => []
  | LangText s => [(str "class", str "language-" ++ s)]
  | LangObject key => [(str "class", str "language-" ++ printInherited key)]
  end.

(** The new [pre] with its [code] child. *)
Definition codeBlock (cls : attrs) (text : jsstring) : node :=
  Elem (str "pre") [] [Elem (str "code") cls (textChild text)].

Definition buildCodePanel (panel : node) : option node :=
  match querySelector (Heap.tagIs "pre") (kidsOf panel) with
  | None => None
  | Some pre =>
      Some (codeBlock (languageClass (detectCodeLanguage toLowerCase pre panel))
              (textContent pre))
  end.

Definition isCodeNode : jsstring -> attrs -> bool :=
  Heap.attrIs "data-node-type" "codeBlock".

Definition buildCodeNode (block : node) : node :=
  codeBlock
    (languageClass (LangText (default [] (getAttribute (str "data-language") (attrsOf block)))))
    (textContent block).

(** [convertCodeBlocks(container)] *)
Definition convertCodeBlocks (container : node) : node :=
  replaceAll isCodeNode buildCodeNode
    (replaceWhere isCodePanel buildCodePanel container).

End WithBrowser.

End Macros.

(* ===================================================================== *)
(** ** Image clean-up *)
(* ===================================================================== *)

Module Images.
Import Panels CodeLanguage.

(** [el.getAttribute(name)] where the code goes on with [||]: [None] for
    an absent and for an empty attribute. *)
Definition nonEmpty (name : string) (a : attrs) : option jsstring :=
  orElse (getAttribute (str name) a) None.

Section WithLocation.

(** [new URL(url, base).href] ([None]: the constructor throws), and
    [window.location.origin]. *)
Variable resolveUrl : jsstring -> jsstring -> option jsstring.
Variable origin : jsstring.

(** The array [candidates] after [filter(Boolean)]. *)
Definition candidates (img : attrs) : list jsstring :=
  omap (fun name => nonEmpty name img)
    ["data-image-src"; "data-media-src"; "data-src"; "src"]%string.

(** The loop over the candidates; [None]: the loop ends without a
    [return]. *)
Fixpoint firstUsable (urls : list jsstring) : option jsstring :=
  match urls with
  | [] => None
  | url :: r =>
      if startsWith (str "data:") url then Some url
      else if startsWith (str "blob:") url then firstUsable r
      else if includes (str "placeholder") url then firstUsable r
      else if negb (startsWith (str "http") url) then
        match resolveUrl url origin with
        | Some href => Some href
        | None => firstUsable r
        end
      else Some url
  end.

(** [resolveBestImageUrl(img)] *)
Definition resolveBestImageUrl (img : attrs) : jsstring :=
  match firstUsable (candidates img) with
  | Some url => url
  | None =>
      let resourceId :=
        orElse (nonEmpty "data-linked-resource-id" img)
          (orElse (nonEmpty "data-media-id" img) (nonEmpty "data-resource-id" img)) in
      let baseUrl := default origin (nonEmpty "data-base-url" img) in
      match resourceId with
      | Some id => baseUrl ++ str "/download/attachments/" ++ id
      | None => default [] (getAttribute (str "src") img)
      end
  end.

Definition removeAttrs : list string :=
  ["data-media-id"; "data-media-type"; "data-base-url";
   "data-linked-resource-id"; "data-linked-resource-type";
   "data-linked-resource-version"; "data-linked-resource-default-alias";
   "data-resource-id"; "data-resource-type"; "loading";
   "data-unresolved-comment-count"; "data-location";
   "data-image-src"; "data-width"; "data-height"]%string.

(** The body of the loop of [cleanupImages], for one image. *)
Definition cleanupImage (img : attrs) : attrs :=
  let a1 :=
    match resolveBestImageUrl img with
    | [] => img
    | bestSrc => setAttribute (str "src") bestSrc img
    end in
  let a2 :=
    match nonEmpty "alt" a1 with
    | Some _ => a1
    | None =>
        setAttribute (str "alt")
          (default (str "image") (orElse (nonEmpty "title" a1) (nonEmpty "data-alt" a1)))
          a1
    end in
  foldl (fun a name => removeAttribute (str name) a) a2 removeAttrs.

(** The loop over a node and what is below it. *)
Fixpoint cleanupNode (n : node) : node :=
  match n with
  | Text _ => n
  | Elem t a kids =>
      Elem t (if Js.eqb t (str "img") then cleanupImage a else a)
        (map cleanupNode kids)
  end.

(** [cleanupImages(container)]: the images below the container. *)
Definition cleanupImages (container : node) : node :=
  match container with
  | Text _ => container
  | Elem t a kids => Elem t a (map cleanupNode kids)
  end.

End WithLocation.

(** An image that [cleanupImages] would still have to work on: its
    alternative text is missing or empty, or it has one of the attributes
    that the pass removes. *)
Definition untidy (t : jsstring) (a : attrs) : bool :=
  Js.eqb t (str "img")
  && (match nonEmpty "alt" a with Some _ => false | None => true end
      || existsb (fun name => hasAttribute (str name) a) removeAttrs).

End Images.

(* ===================================================================== *)
(** ** Title and metadata of the page *)
(* ===================================================================== *)

Module Title.
Import Promote Popup.

(** What the functions read of the live page: for a selector, the text
    content of the first element that it matches, and [document.title]. *)
Record page : Type := mkPage {
  textOf : jsstring -> option jsstring;
  documentTitle : jsstring
}.

Definition titleSelectors : list jsstring :=
  [str "#title-text";
   str "[data-testid=" ++ [quote] ++ str "title-text" ++ [quote] ++ str "]";
   str "#content-title-heading";
   str "h1#title-heading span";
   str "h1#title-heading";
   str "h1.pagetitle"].

(** The loop over the selectors: the first element with text that is not
    blank gives the title. *)
Fixpoint firstTitle (doc : page) (sels : list jsstring) : option jsstring :=
  match sels with
  | [] => None
  | sel :: r =>
      match textOf doc sel with
      | Some text =>
          match trim text with
          | [] => firstTitle doc r
          | t => Some t
          end
      | None => firstTitle doc r
      end
  end.

(** [[-–—]]: hyphen, en dash, em dash. *)
Definition isDash (c : N) : bool := (c =? 45)%N || (c =? 8211)%N || (c =? 8212)%N.

(** A match of [/\s*[-–—]\s*word.*$/i] at the start of [s], for a
    lower-case [word]: the match runs to the end of the text, which [.]
    reaches when no line terminator is in the way. *)
Definition suffixAt (word : jsstring) (s : jsstring) : bool :=
  match dropWhile isSpace s with
  | d :: r =>
      isDash d
      && startsWithCI word (dropWhile isSpace r)
      && forallb notLineTerminator (drop (length word) (dropWhile isSpace r))
  | [] => false
  end.

(** [s.replace(/\s*[-–—]\s*word.*$/i, '')]: the leftmost match goes. *)
Fixpoint stripSuffix (word : jsstring) (s : jsstring) : jsstring :=
  if suffixAt word s then []
  else match s with
       | [] => []
       | c :: r => c :: stripSuffix word r
       end.

(** [findTitle()] *)
Definition findTitle (doc : page) : jsstring :=
  match firstTitle doc titleSelectors with
  | Some t => t
  | None =>
      trim (stripSuffix (str "atlassian")
              (stripSuffix (str "confluence") (documentTitle doc)))
  end.

End Title.

(* ===================================================================== *)
(** ** Usage counters *)
(* ===================================================================== *)

Module Analytics.

(** The counters are numbers that hold natural numbers.  [n++] and
    [n + 1] are exact below 2^53; at 2^53 the sum is not a number of the
    format and rounds back to 2^53.  Larger values are never reached from
    [createDefault] and are not modelled. *)
Definition limit : N := 9007199254740992%N.

Definition increment (n : N) : N := if (n <? limit)%N then (n + 1)%N else n.

(** One entry of [dailyStats]. *)
Record daily : Type := mkDaily {
  conversions : N;
  copies : N;
  downloads : N
}.

Record usage : Type := mkUsage {
  frontmatter : N;
  title : N;
  embedImages : N
}.

(** The object kept under the key [mb_analytics].  [pageTypes] and
    [dailyStats] are objects used as maps; their keys here are the three
    page type names, and dates in ISO form, none of which is the name of a
    member of [Object.prototype]. *)
Record data : Type := mkData {
  installedAt : jsstring;
  lastActiveAt : jsstring;
  totalConversions : N;
  totalCopies : N;
  totalDownloads : N;
  pageTypes : gmap jsstring N;
  optionUsage : usage;
  dailyStats : gmap jsstring daily
}.

(** What one operation reads of the clock: [new Date().toISOString()] and
    the date part of it that [today()] returns. *)
Record clock : Type := mkClock {
  isoNow : jsstring;
  today : jsstring
}.

(** [createDefault()] *)
Definition createDefault (c : clock) : data :=
  mkData (isoNow c) (isoNow c) 0 0 0 ∅ (mkUsage 0 0 0) ∅.

(** [chrome.storage.local]: what is stored under the key, if anything. *)
Abbreviation storage := (option data).

(** [load()] *)
Definition load (c : clock) (st : storage) : data := default (createDefault c) st.

Definition withDaily (d : data) (stats : gmap jsstring daily) : data :=
  mkData (installedAt d) (lastActiveAt d) (totalConversions d) (totalCopies d)
    (totalDownloads d) (pageTypes d) (optionUsage d) stats.

(** [ensureDaily(data)] *)
Definition ensureDaily (c : clock) (d : data) : data :=
  match dailyStats d !! today c with
  | Some _ => d
  | None => withDaily d (<[today c := mkDaily 0 0 0]> (dailyStats d))
  end.

(** The order of [Array.prototype.sort()] without a comparator: strings
    are compared unit by unit, and a proper prefix comes first. *)
Fixpoint lexLe (a b : jsstring) : bool :=
  match a, b with
  | [], _ => true
  | _ :: _, [] => false
  | x :: a', y :: b' =>
      if (x <? y)%N then true
      else if (y <? x)%N then false
      else lexLe a' b'
  end.

Fixpoint insertKey (k : jsstring) (l : list jsstring) : list jsstring :=
  match l with
  | [] => [k]
  | x :: r => if lexLe k x then k :: l else x :: insertKey k r
  end.

(** [Object.keys(obj).sort()] *)
Definition sortedKeys {A} (m : gmap jsstring A) : list jsstring :=
  foldr insertKey [] ((map_to_list m).*1).

Definition maxDailyEntries : nat := 90.

(** [while (keys.length > MAX_DAILY_ENTRIES) delete stats[keys.shift()]] *)
Fixpoint pruneLoop (keys : list jsstring) (stats : gmap jsstring daily)
    : gmap jsstring daily :=
  match keys with
  | [] => stats
  | k :: r =>
      if (maxDailyEntries <? length keys)%nat then pruneLoop r (delete k stats)
      else stats
  end.

(** [pruneDailyStats(data)] *)
Definition pruneDailyStats (d : data) : data :=
  withDaily d (pruneLoop (sortedKeys (dailyStats d)) (dailyStats d)).

(** The key of [pageTypes]: [pageType || 'unknown']. *)
Definition pageTypeKey (pt : option Popup.pageType) : jsstring :=
  match pt with
  | Some Popup.Cloud => str "Cloud"
  | Some Popup.ServerDC => str "Server/DC"
  | None => str "unknown"
  end.

(** The options of a conversion. *)
Record options : Type := mkOptions {
  optFrontmatter : bool;
  optTitle : bool;
  optEmbedImages : bool
}.

Definition countOptions (o : option options) (u : usage) : usage :=
  match o with
  | None => u
  | Some o =>
      mkUsage (if optFrontmatter o then increment (frontmatter u) else frontmatter u)
              (if optTitle o then increment (title u) else title u)
              (if optEmbedImages o then increment (embedImages u) else embedImages u)
  end.

(** [data.dailyStats[d].field++] for the entry of today, which
    [ensureDaily] has made sure of. *)
Definition bumpDaily (c : clock) (f : daily -> daily) (stats : gmap jsstring daily)
    : gmap jsstring daily :=
  match stats !! today c with
  | Some e => <[today c := f e]> stats
  | None => stats
  end.

(** [trackConversion(pageType, options)]: what it saves. *)
Definition trackConversion (c : clock) (pt : option Popup.pageType)
    (o : option options) (st : storage) : storage :=
  let d := ensureDaily c (load c st) in
  let key := pageTypeKey pt in
  Some (pruneDailyStats
          (mkData (installedAt d) (isoNow c)
             (increment (totalConversions d)) (totalCopies d) (totalDownloads d)
             (<[key := increment (default 0%N (pageTypes d !! key))]> (pageTypes d))
             (countOptions o (optionUsage d))
             (bumpDaily c (fun e => mkDaily (increment (conversions e)) (copies e) (downloads e))
                (dailyStats d)))).

(** [trackCopy()] *)
Definition trackCopy (c : clock) (st : storage) : storage :=
  let d := ensureDaily c (load c st) in
  Some (mkData (installedAt d) (isoNow c)
          (totalConversions d) (increment (totalCopies d)) (totalDownloads d)
          (pageTypes d) (optionUsage d)
          (bumpDaily c (fun e => mkDaily (conversions e) (increment (copies e)) (downloads e))
             (dailyStats d))).

(** [trackDownload()] *)
Definition trackDownload (c : clock) (st : storage) : storage :=
  let d := ensureDaily c (load c st) in
  Some (mkData (installedAt d) (isoNow c)
          (totalConversions d) (totalCopies d) (increment (totalDownloads d))
          (pageTypes d) (optionUsage d)
          (bumpDaily c (fun e => mkDaily (conversions e) (copies e) (increment (downloads e)))
             (dailyStats d))).

(** [trackPopupOpen()] *)
Definition trackPopupOpen (c : clock) (st : storage) : storage :=
  let d := load c st in
  Some (mkData (installedAt d) (isoNow c)
          (totalConversions d) (totalCopies d) (totalDownloads d)
          (pageTypes d) (optionUsage d) (dailyStats d)).

(** [reset()] *)
Definition reset (c : clock) (st : storage) : storage := Some (createDefault c).

(** The counters of [getSummary()]. *)
Record summary : Type := mkSummary {
  sumConversions : N;
  sumCopies : N;
  sumDownloads : N;
  todayConversions : N
}.

Definition getSummary (c : clock) (st : storage) : summary :=
  let d := load c st in
  let todayStats := default (mkDaily 0 0 0) (dailyStats d !! today c) in
  mkSummary (totalConversions d) (totalCopies d) (totalDownloads d)
    (conversions todayStats).

(** The sum of the counts of the page types. *)
Definition countedPages (d : data) : N :=
  map_fold (fun _ v acc => (v + acc)%N) 0%N (pageTypes d).

(** A list of keys in the order of [sort()]: each key comes before the
    keys after it. *)
Fixpoint ascending (l : list jsstring) : Prop :=
  match l with
  | [] => True
  | x :: r => Forall (fun y => lexLe x y = true) r /\ ascending r
  end.

(** The page types account for every conversion. *)
Definition consistent (st : storage) : Prop :=
  match st with
  | Some d => countedPages d = totalConversions d
  | None => True
  end.

Definition belowLimit (st : storage) : Prop :=
  match st with
  | Some d => (totalConversions d < limit)%N
  | None => True
  end.

End Analytics.

(* ===================================================================== *)
(** ** What header promotion may do to a cell *)
(* ===================================================================== *)

Module PromoteSpec.


End PromoteSpec.

(* ===================================================================== *)
(** * Properties *)
(* ===================================================================== *)

(** ** Rows written back are the rows read *)

Section Refill.

Lemma refillHead_spec (t : table) (q : list row) :
  let n := length (concat (map theadRows t)) in
  (n <= length q)%nat ->
  concat (map theadRows (refillHead t q).1) = take n q /\
  (refillHead t q).2 = drop n q /\
  map bodyRows (refillHead t q).1 = map bodyRows t /\
  map tfootRows (refillHead t q).1 = map tfootRows t.
Proof.
  revert q. induction t as [|s t IH]; intros q n Hn.
  - simpl. subst n. simpl. rewrite take_0, drop_0. done.
  - subst n. destruct s as [rs|rs|rs|x|x]; simpl in *.
    + rewrite length_app in Hn.
      specialize (IH (drop (length rs) q)).
      destruct (refillHead t (drop (length rs) q)) as [t' q'] eqn:E. simpl in *.
      destruct IH as (H1 & H2 & H3 & H4); [rewrite length_drop; lia|].
      rewrite length_app. split_and!.
      * rewrite H1. apply take_take_drop.
      * rewrite H2. rewrite drop_drop. done.
      * by rewrite H3.
      * by rewrite H4.
    + specialize (IH q Hn). destruct (refillHead t q) as [t' q']. simpl in *.
      destruct IH as (H1 & H2 & H3 & H4). rewrite H3, H4. done.
    + specialize (IH q Hn). destruct (refillHead t q) as [t' q']. simpl in *.
      destruct IH as (H1 & H2 & H3 & H4). rewrite H3, H4. done.
    + specialize (IH q Hn). destruct (refillHead t q) as [t' q']. simpl in *.
      destruct IH as (H1 & H2 & H3 & H4). rewrite H3, H4. done.
    + specialize (IH q Hn). destruct (refillHead t q) as [t' q']. simpl in *.
      destruct IH as (H1 & H2 & H3 & H4). rewrite H3, H4. done.
Qed.

Lemma refillBody_spec (t : table) (q : list row) :
  let n := length (concat (map bodyRows t)) in
  (n <= length q)%nat ->
  concat (map bodyRows (refillBody t q).1) = take n q /\
  (refillBody t q).2 = drop n q /\
  map theadRows (refillBody t q).1 = map theadRows t /\
  map tfootRows (refillBody t q).1 = map tfootRows t.
Proof.
  revert q. induction t as [|s t IH]; intros q n Hn.
  - simpl. subst n. simpl. rewrite take_0, drop_0. done.
  - subst n. destruct s as [rs|rs|rs|x|x]; simpl in *.
    + specialize (IH q Hn). destruct (refillBody t q) as [t' q']. simpl in *.
      destruct IH as (H1 & H2 & H3 & H4). rewrite H3, H4. done.
    + rewrite length_app in Hn.
      specialize (IH (drop (length rs) q)).
      destruct (refillBody t (drop (length rs) q)) as [t' q'] eqn:E. simpl in *.
      destruct IH as (H1 & H2 & H3 & H4); [rewrite length_drop; lia|].
      rewrite length_app. split_and!.
      * rewrite H1. apply take_take_drop.
      * rewrite H2. rewrite drop_drop. done.
      * by rewrite H3.
      * by rewrite H4.
    + specialize (IH q Hn). destruct (refillBody t q) as [t' q']. simpl in *.
      destruct IH as (H1 & H2 & H3 & H4). rewrite H3, H4. done.
    + destruct q as [|y q]; [simpl in Hn; lia|]. simpl in Hn.
      specialize (IH q). simpl. rewrite drop_0.
      destruct (refillBody t q) as [t' q'] eqn:E. simpl in *.
      destruct IH as (H1 & H2 & H3 & H4); [lia|].
      split_and!; [by rewrite H1 | done | by rewrite H3 | by rewrite H4].
    + specialize (IH q Hn). destruct (refillBody t q) as [t' q']. simpl in *.
      destruct IH as (H1 & H2 & H3 & H4). rewrite H3, H4. done.
Qed.

Lemma refillFoot_spec (t : table) (q : list row) :
  let n := length (concat (map tfootRows t)) in
  (n <= length q)%nat ->
  concat (map tfootRows (refillFoot t q).1) = take n q /\
  (refillFoot t q).2 = drop n q /\
  map theadRows (refillFoot t q).1 = map theadRows t /\
  map bodyRows (refillFoot t q).1 = map bodyRows t.
Proof.
  revert q. induction t as [|s t IH]; intros q n Hn.
  - simpl. subst n. simpl. rewrite take_0, drop_0. done.
  - subst n. destruct s as [rs|rs|rs|x|x]; simpl in *.
    + specialize (IH q Hn). destruct (refillFoot t q) as [t' q']. simpl in *.
      destruct IH as (H1 & H2 & H3 & H4). rewrite H3, H4. done.
    + specialize (IH q Hn). destruct (refillFoot t q) as [t' q']. simpl in *.
      destruct IH as (H1 & H2 & H3 & H4). rewrite H3, H4. done.
    + rewrite length_app in Hn.
      specialize (IH (drop (length rs) q)).
      destruct (refillFoot t (drop (length rs) q)) as [t' q'] eqn:E. simpl in *.
      destruct IH as (H1 & H2 & H3 & H4); [rewrite length_drop; lia|].
      rewrite length_app. split_and!.
      * rewrite H1. apply take_take_drop.
      * rewrite H2. rewrite drop_drop. done.
      * by rewrite H3.
      * by rewrite H4.
    + specialize (IH q Hn). destruct (refillFoot t q) as [t' q']. simpl in *.
      destruct IH as (H1 & H2 & H3 & H4). rewrite H3, H4. done.
    + specialize (IH q Hn). destruct (refillFoot t q) as [t' q']. simpl in *.
      destruct IH as (H1 & H2 & H3 & H4). rewrite H3, H4. done.
Qed.

(** Rows handed to [refill] are exactly the rows that [table.rows] lists
    afterwards, provided there is one for every row of the table. *)
Lemma tableRows_refill (t : table) (rows : list row) :
  length rows = length (tableRows t) ->
  tableRows (refill t rows) = rows.
Proof.
  intros Hlen. unfold tableRows in *. rewrite !length_app in Hlen.
  unfold refill.
  pose proof (refillHead_spec t rows) as Hh. simpl in Hh.
  destruct (refillHead t rows) as [t1 q1]. simpl in Hh.
  destruct Hh as (Hh1 & Hh2 & Hh3 & Hh4); [lia|].
  pose proof (refillBody_spec t1 q1) as Hb. simpl in Hb.
  destruct (refillBody t1 q1) as [t2 q2]. simpl in Hb.
  rewrite Hh3 in Hb.
  destruct Hb as (Hb1 & Hb2 & Hb3 & Hb4); [subst q1; rewrite length_drop; lia|].
  pose proof (refillFoot_spec t2 q2) as Hf. simpl in Hf.
  rewrite Hb4, Hh4 in Hf.
  destruct Hf as (Hf1 & Hf2 & Hf3 & Hf4);
    [subst q2 q1; rewrite !length_drop; lia|].
  rewrite Hf3, Hb3, Hf4, Hf1, Hb1, Hh1. subst q2 q1.
  set (a := length (concat (map theadRows t))) in *.
  set (b := length (concat (map bodyRows t))) in *.
  set (c := length (concat (map tfootRows t))) in *.
  rewrite (take_ge (drop b (drop a rows))) by (rewrite !length_drop; lia).
  rewrite take_drop. apply take_drop.
Qed.

End Refill.

(** ** Span expansion *)

Section RemovedAttributes.

Lemma getAttribute_removeAttribute_eq (name : jsstring) (a : attrs) :
  getAttribute name (removeAttribute name a) = None.
Proof.
  induction a as [|[k v] a IH]; [done|].
  simpl. destruct (Js.eqb k name) eqn:E; simpl; [done|].
  by rewrite E.
Qed.

Lemma getAttribute_removeAttribute_None (name other : jsstring) (a : attrs) :
  getAttribute name a = None ->
  getAttribute name (removeAttribute other a) = None.
Proof.
  induction a as [|[k v] a IH]; [done|].
  simpl. destruct (Js.eqb k name) eqn:E; [done|]. intros H.
  destruct (Js.eqb k other); simpl; [by apply IH|].
  rewrite E. by apply IH.
Qed.

End RemovedAttributes.

Section GridFacts.
Import Num Expand ExpandSpec.

Lemma shaped_initial (n m : nat) : shaped n m (replicate n (replicate m None)).
Proof.
  split; [by rewrite length_replicate|].
  apply Forall_replicate. by rewrite length_replicate.
Qed.

Lemma gridGet_initial (n m r c : nat) :
  gridGet (replicate n (replicate m None)) r c = None.
Proof.
  unfold gridGet.
  destruct (replicate n (replicate m (@None info)) !! r) as [line|] eqn:E.
  - apply lookup_replicate in E as [-> _]. simpl.
    destruct (replicate m (@None info) !! c) as [e|] eqn:E'; [|reflexivity].
    by apply lookup_replicate in E' as [-> _].
  - reflexivity.
Qed.

Lemma shaped_gridSet (n m gr gc : nat) (v : option info) (g : grid) :
  shaped n m g -> shaped n m (gridSet gr gc v g).
Proof.
  intros [Hn Hm]. unfold gridSet. split.
  - by rewrite length_alter.
  - apply Forall_alter; [done|]. intros line _ Hl. by rewrite length_insert.
Qed.

Lemma gridGet_gridSet_eq (n m gr gc : nat) (v : option info) (g : grid) :
  shaped n m g -> (gr < n)%nat -> (gc < m)%nat ->
  gridGet (gridSet gr gc v g) gr gc = v.
Proof.
  intros [Hn Hm] Hr Hc. unfold gridGet, gridSet.
  rewrite list_lookup_alter_eq.
  destruct (lookup_lt_is_Some_2 g gr ltac:(lia)) as [line Hline].
  rewrite Hline. simpl.
  assert (length line = m) by (eapply Forall_lookup_1 in Hm; eauto).
  rewrite list_lookup_insert_eq by lia. done.
Qed.

Lemma gridGet_gridSet_ne (gr gc r c : nat) (v : option info) (g : grid) :
  (r, c) <> (gr, gc) ->
  gridGet (gridSet gr gc v g) r c = gridGet g r c.
Proof.
  intros Hne. unfold gridGet, gridSet.
  destruct (decide (r = gr)) as [->|Hr].
  - rewrite list_lookup_alter_eq.
    destruct (g !! gr) as [line|]; simpl; [|done].
    rewrite list_lookup_insert_ne; [done|]. intros ->. done.
  - by rewrite list_lookup_alter_ne.
Qed.


Lemma markInner_spec (n m r col dr : nat) (c : cell) (dcs : list nat) (g : grid) :
  let f := fun (g : grid) (dc : nat) =>
    let gr := (r + dr)%nat in
    let gc := Z.of_nat col + Z.of_nat dc in
    if (gr <? n)%nat && (gc <? Z.of_nat m) && (0 <=? gc)
    then gridSet gr (Z.to_nat gc)
           (Some (mkInfo r (Z.to_nat (Z.of_nat col))
                    (bool_decide (dr = 0%nat) && bool_decide (dc = 0%nat))
                    (stripSpans c))) g
    else g in
  shaped n m g ->
  shaped n m (foldl f g dcs) /\
  forall r' c',
    gridGet (foldl f g dcs) r' c' =
      if decide (r' = (r + dr)%nat /\ (r' < n)%nat /\ (c' < m)%nat
                 /\ Exists (fun dc => c' = (col + dc)%nat) dcs)
      then Some (written r col c r' c')
      else gridGet g r' c'.
Proof.
  intros f. revert g. induction dcs as [|dc dcs IH]; intros g Hg.
  - split; [done|]. intros r' c'. simpl.
    destruct (decide _) as [(_ & _ & _ & H)|]; [|done]. by apply Exists_nil in H.
  - simpl.
    assert (Hstep : shaped n m (f g dc) /\
              forall r' c', gridGet (f g dc) r' c' =
                if decide (r' = (r + dr)%nat /\ (r' < n)%nat /\ (c' < m)%nat
                           /\ c' = (col + dc)%nat)
                then Some (written r col c r' c') else gridGet g r' c').
    { unfold f.
      destruct ((r + dr <? n)%nat && (Z.of_nat col + Z.of_nat dc <? Z.of_nat m)
                && (0 <=? Z.of_nat col + Z.of_nat dc)) eqn:E.
      - apply andb_true_iff in E as [E _]. apply andb_true_iff in E as [E1 E2].
        apply Nat.ltb_lt in E1. apply Z.ltb_lt in E2.
        replace (Z.to_nat (Z.of_nat col + Z.of_nat dc)) with (col + dc)%nat by lia.
        rewrite Nat2Z.id.
        split; [by apply shaped_gridSet|]. intros r' c'.
        destruct (decide _) as [(-> & _ & _ & ->)|Hn].
        + rewrite (gridGet_gridSet_eq n m) by (done || lia).
          unfold written. do 3 f_equal.
          apply bool_decide_ext. lia. apply bool_decide_ext. lia.
        + apply gridGet_gridSet_ne. intros [= -> ->]. apply Hn. lia.
      - split; [done|]. intros r' c'.
        destruct (decide _) as [(-> & H1 & H2 & ->)|]; [|done].
        exfalso. rewrite !andb_false_iff in E.
        rewrite Nat.ltb_ge, Z.ltb_ge, Z.leb_gt in E. lia. }
    destruct Hstep as [Hs Hget]. destruct (IH _ Hs) as [Hs' Hget'].
    split; [done|]. intros r' c'. rewrite Hget', Hget.
    repeat destruct (decide _) as [?|?]; try done.
    + exfalso. destruct_and!. match goal with H : ¬ _ |- _ => apply H end.
      split_and!; try done. by apply Exists_cons_tl.
    + destruct_and!. exfalso. match goal with H : ¬ (_ /\ _ /\ _ /\ Exists _ (_ :: _)) |- _ => apply H end.
      split_and!; try done. by apply Exists_cons_hd.
    + exfalso. destruct_and!.
      match goal with H : Exists _ (_ :: _) |- _ => apply Exists_cons in H as [H|H] end.
      * match goal with H : ¬ (_ /\ _ /\ _ /\ _ = _) |- _ => apply H end. done.
      * match goal with H : ¬ (_ /\ _ /\ _ /\ Exists _ dcs) |- _ => apply H end. done.
Qed.


Lemma Exists_seq_offset (base x len : nat) :
  Exists (fun d => x = (base + d)%nat) (seq 0 len) <-> (base <= x < base + len)%nat.
Proof.
  rewrite Exists_exists. split.
  - intros (d & Hd & ->). apply elem_of_seq in Hd. lia.
  - intros H. exists (x - base)%nat. split; [apply elem_of_seq|]; lia.
Qed.

Lemma markOuter_spec (n m r col colspan : nat) (c : cell) (drs : list nat) (g : grid) :
  let inner := fun (g : grid) (dr : nat) =>
    foldl (fun (g : grid) (dc : nat) =>
      let gr := (r + dr)%nat in
      let gc := Z.of_nat col + Z.of_nat dc in
      if (gr <? n)%nat && (gc <? Z.of_nat m) && (0 <=? gc)
      then gridSet gr (Z.to_nat gc)
             (Some (mkInfo r (Z.to_nat (Z.of_nat col))
                      (bool_decide (dr = 0%nat) && bool_decide (dc = 0%nat))
                      (stripSpans c))) g
      else g) g (seq 0 colspan) in
  shaped n m g ->
  shaped n m (foldl inner g drs) /\
  forall r' c',
    gridGet (foldl inner g drs) r' c' =
      if decide (Exists (fun dr => r' = (r + dr)%nat) drs
                 /\ (col <= c' < col + colspan)%nat /\ (r' < n)%nat /\ (c' < m)%nat)
      then Some (written r col c r' c')
      else gridGet g r' c'.
Proof.
  intros inner. revert g. induction drs as [|dr drs IH]; intros g Hg.
  - split; [done|]. intros r' c'. cbn [foldl].
    destruct (decide _) as [(H & _)|]; [|done]. by apply Exists_nil in H.
  - cbn [foldl].
    destruct (markInner_spec n m r col dr c (seq 0 colspan) g Hg) as [Hs Hget].
    destruct (IH (inner g dr) Hs) as [Hs' Hget'].
    split; [done|]. intros r' c'. rewrite Hget'.
    change (gridGet (inner g dr) r' c') with
      (gridGet (foldl (fun (g : grid) (dc : nat) =>
         let gr := (r + dr)%nat in
         let gc := Z.of_nat col + Z.of_nat dc in
         if (gr <? n)%nat && (gc <? Z.of_nat m) && (0 <=? gc)
         then gridSet gr (Z.to_nat gc)
                (Some (mkInfo r (Z.to_nat (Z.of_nat col))
                         (bool_decide (dr = 0%nat) && bool_decide (dc = 0%nat))
                         (stripSpans c))) g
         else g) g (seq 0 colspan)) r' c').
    rewrite Hget.
    pose proof (Exists_seq_offset col c' colspan) as HE.
    pose proof (Exists_cons (fun dr0 => r' = (r + dr0)%nat) dr drs) as HC.
    repeat destruct (decide _) as [?|?]; try done; exfalso; tauto.
Qed.

Lemma markSpan_spec (n m r col rowspan colspan : nat) (c : cell) (g : grid) :
  shaped n m g ->
  shaped n m (markSpan n (Z.of_nat m) r (Z.of_nat col) rowspan colspan c g) /\
  forall r' c',
    gridGet (markSpan n (Z.of_nat m) r (Z.of_nat col) rowspan colspan c g) r' c' =
      if decide ((r <= r' < r + rowspan)%nat /\ (col <= c' < col + colspan)%nat
                 /\ (r' < n)%nat /\ (c' < m)%nat)
      then Some (written r col c r' c')
      else gridGet g r' c'.
Proof.
  intros Hg.
  destruct (markOuter_spec n m r col colspan c (seq 0 rowspan) g Hg) as [Hs Hget].
  split; [exact Hs|]. intros r' c'.
  unfold markSpan. rewrite Hget.
  destruct (decide _) as [H1|H1]; destruct (decide _) as [H2|H2]; try done.
  - exfalso. apply H2. destruct H1 as [H1 ?]. apply Exists_seq_offset in H1. done.
  - exfalso. apply H1. destruct H2 as [H2 ?]. split; [|done]. by apply Exists_seq_offset.
Qed.


Lemma nextFree_stop (fuel : nat) (maxCols : Z) (line : list (option info))
    (idx idx' : num) :
  nextFree fuel maxCols line idx = Some idx' ->
  lt idx' (Fin maxCols) && notNull line idx' = false.
Proof.
  revert idx. induction fuel as [|f IH]; intros idx; simpl;
    destruct (lt idx (Fin maxCols) && notNull line idx) eqn:E; try done.
  - by intros [= <-].
  - destruct (bool_decide _); [done|]. apply IH.
  - by intros [= <-].
Qed.

Lemma gridInv_initial (n m : nat) : gridInv n m [] (replicate n (replicate m None)).
Proof.
  split_and!.
  - apply shaped_initial.
  - intros r c i H. by rewrite gridGet_initial in H.
  - intros p r c H. by apply elem_of_nil in H.
Qed.

Lemma gridInv_more (n m : nat) (tr : list placement) (p : placement) (g : grid) :
  (forall r c, ~ covers p r c) ->
  gridInv n m tr g -> gridInv n m (tr ++ [p]) g.
Proof.
  intros Hp (Hs & Hsound & Hfull). split_and!; [done| |].
  - intros r c i Hi. destruct (Hsound r c i Hi) as (q & Hq & H).
    exists q. split; [|done]. apply elem_of_app. by left.
  - intros q r c Hq Hc. apply elem_of_app in Hq as [Hq|Hq%list_elem_of_singleton].
    + by apply (Hfull q).
    + subst q. by apply Hp in Hc.
Qed.

Lemma placeCell_inv (n m r : nat) (st st' : rowState) (c : cell)
    (tr : list placement) :
  placeCell n (Z.of_nat m) r st c = Some st' ->
  gridInv n m tr (rsGrid st) ->
  gridInv n m (tr ++ placedAt (Z.of_nat m) r st c) (rsGrid st').
Proof.
  unfold placeCell, placedAt. intros H Hinv.
  destruct (rsBroken st); [injection H as <-; by rewrite app_nil_r|].
  destruct (nextFree _ _ _ _) as [idx|] eqn:En; [|done].
  apply nextFree_stop in En.
  destruct (ge idx (Fin (Z.of_nat m))) eqn:Eg.
  { injection H as <-. simpl.
    destruct idx as [| | |z]; try by rewrite app_nil_r.
    simpl in Eg. apply negb_true_iff in Eg. rewrite Eg. by rewrite app_nil_r. }
  destruct (loopCount (rowspanOf c)) as [nr|] eqn:Er; [|done].
  destruct idx as [| | |z].
  1-3: assert (rsGrid st' = rsGrid st) as ->.
  1,3,5: destruct nr; [by injection H as <-|];
         destruct (loopCount (colspanOf c)); [by injection H as <-|done].
  1-3: by rewrite app_nil_r.
  simpl in Eg, En. apply negb_false_iff in Eg. rewrite Eg in *. simpl in En.
  destruct (z <? 0) eqn:Ez; [done|]. apply Z.ltb_ge in Ez. clear En.
  set (p := mkPlacement r (Z.to_nat z) c).
  destruct nr as [|nr'].
  { injection H as <-. simpl. apply gridInv_more; [|done].
    intros r' c' [Hc _]. simpl in Hc. unfold turns in Hc. rewrite Er in Hc.
    simpl in Hc. lia. }
  destruct (loopCount (colspanOf c)) as [nc|] eqn:Ec; [|done].
  injection H as <-. simpl.
  destruct Hinv as (Hs & Hsound & Hfull).
  replace z with (Z.of_nat (Z.to_nat z)) by lia.
  destruct (markSpan_spec n m r (Z.to_nat z) (S nr') nc c (rsGrid st) Hs) as [Hs' Hget].
  assert (Hcov : forall r' c', covers p r' c' <->
            (r <= r' < r + S nr')%nat /\ (Z.to_nat z <= c' < Z.to_nat z + nc)%nat).
  { intros r' c'. unfold covers, turns. simpl. by rewrite Er, Ec. }
  split_and!; [done| |].
  - intros r' c' i. rewrite Hget. destruct (decide _) as [Hd|Hd].
    + intros [= <-]. exists p. split_and!; [apply elem_of_app; right; by constructor| |done].
      apply Hcov. tauto.
    + intros Hi. destruct (Hsound r' c' i Hi) as (q & Hq & H).
      exists q. split; [|done]. apply elem_of_app. by left.
  - intros q r' c' Hq Hc Hr' Hc'. rewrite Hget. destruct (decide _) as [Hd|Hd]; [done|].
    apply elem_of_app in Hq as [Hq|Hq%list_elem_of_singleton].
    + by apply (Hfull q).
    + subst q. apply Hcov in Hc. tauto.
Qed.

Lemma placeCells_inv (n m r : nat) (cs : cells) (st st' : rowState)
    (tr : list placement) :
  placeCells n (Z.of_nat m) r st cs = Some st' ->
  gridInv n m tr (rsGrid st) ->
  gridInv n m (tr ++ traceCells n (Z.of_nat m) r st cs) (rsGrid st').
Proof.
  revert st tr. induction cs as [|c cs IH]; intros st tr H Hinv; simpl in *.
  - injection H as <-. by rewrite app_nil_r.
  - destruct (placeCell n (Z.of_nat m) r st c) as [st1|] eqn:E; [|done].
    rewrite app_assoc. apply (IH st1); [done|]. by apply placeCell_inv.
Qed.

Lemma placeRows_inv (n m : nat) (rows : list cells) (r : nat) (g g' : grid)
    (tr : list placement) :
  placeRows n (Z.of_nat m) g r rows = Some g' ->
  gridInv n m tr g ->
  gridInv n m (tr ++ traceRows n (Z.of_nat m) g r rows) g'.
Proof.
  revert r g tr. induction rows as [|cs rows IH]; intros r g tr H Hinv; simpl in *.
  - injection H as <-. by rewrite app_nil_r.
  - unfold placeRow in *.
    destruct (placeCells n (Z.of_nat m) r _ cs) as [st1|] eqn:E; simpl in *; [|done].
    rewrite app_assoc. apply IH; [done|].
    by apply (placeCells_inv n m r cs _ st1 tr E).
Qed.

Lemma buildGrid_inv (rows : list cells) (m : nat) (g : grid) :
  buildGrid rows (Z.of_nat m) = Some g ->
  gridInv (length rows) m (placements rows (Z.of_nat m)) g.
Proof.
  unfold buildGrid, placements. rewrite Nat2Z.id. intros H.
  apply (placeRows_inv _ _ _ _ _ _ [] H). apply gridInv_initial.
Qed.


Lemma placedAt_facts (m r : nat) (st : rowState) (c : cell) (p : placement) :
  p ∈ placedAt (Z.of_nat m) r st c ->
  plRow p = r /\ plCell p = c /\ (plCol p < m)%nat.
Proof.
  unfold placedAt. destruct (rsBroken st); [by intros ?%elem_of_nil|].
  destruct (nextFree _ _ _ _) as [[| | |z]|] eqn:En; try by intros ?%elem_of_nil.
  apply nextFree_stop in En. simpl in En.
  destruct (z <? Z.of_nat m) eqn:Ez; [|by intros ?%elem_of_nil].
  intros ->%list_elem_of_singleton. simpl. split_and!; try done.
  simpl in En. destruct (z <? 0) eqn:E0; [done|].
  apply Z.ltb_lt in Ez. apply Z.ltb_ge in E0. lia.
Qed.

Lemma traceCells_facts (n m r : nat) (cs : cells) (st : rowState) (p : placement) :
  p ∈ traceCells n (Z.of_nat m) r st cs ->
  plRow p = r /\ plCell p ∈ cs /\ (plCol p < m)%nat.
Proof.
  revert st. induction cs as [|c cs IH]; intros st; simpl; [by intros ?%elem_of_nil|].
  intros [H|H]%elem_of_app.
  - apply placedAt_facts in H as (? & -> & ?). split_and!; try done. by left.
  - destruct (placeCell _ _ _ _ _) as [st'|]; [|by apply elem_of_nil in H].
    apply IH in H as (? & ? & ?). split_and!; try done. by right.
Qed.

Lemma traceRows_facts (n m : nat) (rows : list cells) (g : grid) (r : nat)
    (p : placement) :
  p ∈ traceRows n (Z.of_nat m) g r rows ->
  (plCol p < m)%nat /\ (r <= plRow p)%nat
  /\ exists src, rows !! (plRow p - r)%nat = Some src /\ plCell p ∈ src.
Proof.
  revert g r. induction rows as [|cs rows IH]; intros g r; simpl;
    [by intros ?%elem_of_nil|].
  intros [H|H]%elem_of_app.
  - apply traceCells_facts in H as (-> & ? & ?). split_and!; try done.
    exists cs. by rewrite Nat.sub_diag.
  - destruct (placeRow _ _ _ _ _) as [g'|]; [|by apply elem_of_nil in H].
    apply IH in H as (? & ? & src & Hsrc & ?). split_and!; [done|lia|].
    exists src. split; [|done].
    replace (plRow p - r)%nat with (S (plRow p - S r)) by lia. done.
Qed.

Lemma placements_facts (rows : list cells) (m : nat) (p : placement) :
  p ∈ placements rows (Z.of_nat m) ->
  (plCol p < m)%nat /\ exists src, rows !! plRow p = Some src /\ plCell p ∈ src.
Proof.
  unfold placements. intros (? & _ & src & Hsrc & ?)%traceRows_facts.
  split; [done|]. exists src. by rewrite Nat.sub_0_r in Hsrc.
Qed.

Lemma rebuildCell_written (p : placement) (r c : nat) :
  rebuildCell (Some (written (plRow p) (plCol p) (plCell p) r c)) = cellAt p r c.
Proof. reflexivity. Qed.

Lemma noSpanAttrs_stripSpans (c : cell) : noSpanAttrs (stripSpans c).
Proof.
  split; simpl.
  - apply getAttribute_removeAttribute_None, getAttribute_removeAttribute_eq.
  - apply getAttribute_removeAttribute_eq.
Qed.

Lemma noSpanAttrs_cellAt (p : placement) (r c : nat) : noSpanAttrs (cellAt p r c).
Proof.
  unfold cellAt. destruct (_ && _); [apply noSpanAttrs_stripSpans|].
  apply (noSpanAttrs_stripSpans (plCell p)).
Qed.

(** The cell of the rebuilt row at every position of the grid. *)
Lemma rebuildCell_cases (n m : nat) (tr : list placement) (g : grid) (r c : nat) :
  gridInv n m tr g -> (r < n)%nat -> (c < m)%nat ->
  (exists q, q ∈ tr /\ covers q r c /\ rebuildCell (gridGet g r c) = cellAt q r c)
  \/ ((forall q, q ∈ tr -> ~ covers q r c) /\ rebuildCell (gridGet g r c) = emptyTd).
Proof.
  intros (Hs & Hsound & Hfull) Hr Hc.
  destruct (gridGet g r c) as [i|] eqn:E.
  - left. destruct (Hsound r c i E) as (q & Hq & Hcov & ->).
    exists q. by rewrite rebuildCell_written.
  - right. split; [|done]. intros q Hq Hcov. by apply (Hfull q r c).
Qed.

Lemma expandRows_rows (rows rows' : list cells) (m : nat) :
  expandRows rows (Z.of_nat m) = Some rows' ->
  exists g, buildGrid rows (Z.of_nat m) = Some g /\
    length rows' = length rows /\
    forall r, (r < length rows)%nat ->
      exists row', rows' !! r = Some row' /\ length row' = m /\
        forall c, (c < m)%nat -> row' !! c = Some (rebuildCell (gridGet g r c)).
Proof.
  unfold expandRows. destruct (buildGrid rows (Z.of_nat m)) as [g|]; [|done].
  simpl. intros [= <-]. exists g. split; [done|]. split; [by rewrite length_imap|].
  intros r Hr. destruct (lookup_lt_is_Some_2 rows r Hr) as [x Hx].
  eexists. split; [rewrite list_lookup_imap, Hx; reflexivity|].
  unfold rebuildRow. split; [by rewrite length_fmap, length_seq, Nat2Z.id|].
  intros c Hc. rewrite list_lookup_fmap, Nat2Z.id, lookup_seq_lt by done.
  reflexivity.
Qed.


Lemma arrayLength_Some (len : num) (z : Z) :
  arrayLength len = Some z -> len = Fin z /\ 0 <= z < 2 ^ 32.
Proof.
  destruct len as [| | |x]; try done. simpl.
  destruct ((0 <=? x) && (x <? 2 ^ 32)) eqn:E; [|done].
  intros [= <-]. apply andb_true_iff in E as [E1 E2].
  apply Z.leb_le in E1. apply Z.ltb_lt in E2. done.
Qed.

Lemma zip_with_mkRow (l : list row) (css : list cells) :
  length css = length l ->
  rowCells <$> zip_with (fun r cs => mkRow (rowAttrs r) cs) l css = css
  /\ rowAttrs <$> zip_with (fun r cs => mkRow (rowAttrs r) cs) l css = rowAttrs <$> l.
Proof.
  revert css. induction l as [|r l IH]; intros [|cs css] H; try done.
  simpl in H. destruct (IH css ltac:(lia)) as [H1 H2].
  cbn [zip_with]. rewrite !fmap_cons, H1, H2. done.
Qed.

Lemma expandMergedCells_rows (t t' : table) :
  tableRows t <> [] ->
  expandMergedCells t = Done t' ->
  exists m rebuilt,
    getMaxColumns t = Fin (Z.of_nat m) /\ Z.of_nat m < 2 ^ 32 /\
    expandRows (rowCells <$> tableRows t) (Z.of_nat m) = Some rebuilt /\
    rowCells <$> tableRows t' = rebuilt /\
    rowAttrs <$> tableRows t' = rowAttrs <$> tableRows t.
Proof.
  intros Hne. unfold expandMergedCells.
  destruct (tableRows t) as [|r0 rs] eqn:E; [done|]. rewrite <- E. clear Hne.
  destruct (arrayLength (getMaxColumns t)) as [mz|] eqn:Ea; [|done].
  apply arrayLength_Some in Ea as [Hm Hmz].
  destruct (expandRows _ mz) as [rebuilt|] eqn:Ex; [|done].
  intros [= <-]. exists (Z.to_nat mz), rebuilt.
  rewrite Z2Nat.id by lia.
  assert (Hlen : length rebuilt = length (tableRows t)).
  { replace mz with (Z.of_nat (Z.to_nat mz)) in Ex by lia.
    apply expandRows_rows in Ex as (_ & _ & Hl & _). by rewrite length_fmap in Hl. }
  destruct (zip_with_mkRow (tableRows t) rebuilt Hlen) as [H1 H2].
  rewrite tableRows_refill by (rewrite length_zip_with; lia).
  split_and!; try done; lia.
Qed.

(** Where [expandMergedCells] returns, the table has the rows it had,
    with their attributes; every row has as many cells as [getMaxColumns]
    says, none of them with a span attribute; and the cell at a position
    of the grid is the cell placed there, or a cell of the same kind and
    attributes without children for a cell whose spans cover the position,
    or an empty data cell where no span reaches. *)
Lemma expandMergedCells_cells (t t' : table) :
  tableRows t <> [] ->
  expandMergedCells t = Done t' ->
  let rows := rowCells <$> tableRows t in
  let rows' := rowCells <$> tableRows t' in
  exists m : nat,
    let tr := placements rows (Z.of_nat m) in
    getMaxColumns t = Fin (Z.of_nat m) /\ Z.of_nat m < 2 ^ 32 /\
    rowAttrs <$> tableRows t' = rowAttrs <$> tableRows t /\
    length rows' = length rows /\
    Forall (fun row' => length row' = m /\ Forall noSpanAttrs row') rows' /\
    (forall p, p ∈ tr ->
       (plCol p < m)%nat /\ exists src, rows !! plRow p = Some src /\ plCell p ∈ src) /\
    (forall r c, (r < length rows)%nat -> (c < m)%nat ->
       exists row', rows' !! r = Some row' /\
         ((exists q, q ∈ tr /\ covers q r c /\ row' !! c = Some (cellAt q r c))
          \/ ((forall q, q ∈ tr -> ~ covers q r c) /\ row' !! c = Some emptyTd))).
Proof.
  intros Hne Hdone rows rows'.
  destruct (expandMergedCells_rows t t' Hne Hdone) as (m & rebuilt & Hm & Hlt & Hx & Hc & Ha).
  exists m. intros tr. fold rows in Hx. fold rows' in Hc. subst rebuilt.
  destruct (expandRows_rows rows rows' m Hx) as (g & Hg & Hlen & Hrows).
  pose proof (buildGrid_inv rows m g Hg) as Hinv. fold tr in Hinv.
  assert (Hcell : forall r c, (r < length rows)%nat -> (c < m)%nat ->
     exists row', rows' !! r = Some row' /\ length row' = m /\
       ((exists q, q ∈ tr /\ covers q r c /\ row' !! c = Some (cellAt q r c))
        \/ ((forall q, q ∈ tr -> ~ covers q r c) /\ row' !! c = Some emptyTd))).
  { intros r c Hr Hcm. destruct (Hrows r Hr) as (row' & Hrow & Hl & Hcells).
    exists row'. split; [done|]. split; [done|]. rewrite (Hcells c Hcm).
    destruct (rebuildCell_cases _ _ _ _ r c Hinv Hr Hcm) as [(q & ? & ? & ->)|[? ->]];
      [left; by exists q|by right]. }
  split_and!; try done.
  - apply Forall_lookup. intros r row' Hrow.
    assert (Hr : (r < length rows)%nat)
      by (rewrite <- Hlen; by apply lookup_lt_Some in Hrow).
    destruct (Hrows r Hr) as (row2 & Hrow2 & Hl & _).
    rewrite Hrow in Hrow2. injection Hrow2 as <-. split; [done|].
    apply Forall_lookup. intros c x Hx'.
    assert (Hcm : (c < m)%nat) by (rewrite <- Hl; by apply lookup_lt_Some in Hx').
    destruct (Hcell r c Hr Hcm) as (row3 & Hrow3 & _ & Hcase).
    rewrite Hrow in Hrow3. injection Hrow3 as <-.
    destruct Hcase as [(q & _ & _ & Hq)|[_ Hq]]; rewrite Hx' in Hq; injection Hq as ->.
    + apply noSpanAttrs_cellAt.
    + done.
  - intros p Hp. by apply placements_facts.
  - intros r c Hr Hcm. destruct (Hcell r c Hr Hcm) as (row' & ? & _ & ?). by exists row'.
Qed.


Lemma ofZ_small (z : Z) : Z.abs z < 2 ^ 53 -> ofZ z = Fin z.
Proof. intros H. unfold ofZ. apply Z.ltb_lt in H. by rewrite H. Qed.

Lemma ofZ_nonneg (z : Z) :
  0 <= z -> ofZ z = PosInf \/ exists z', ofZ z = Fin z' /\ 0 <= z'.
Proof.
  intros Hz. unfold ofZ.
  destruct (Z.abs z <? 2 ^ 53); [right; by exists z|].
  cbv zeta.
  assert (Hlt : (z <? 0) = false) by (apply Z.ltb_ge; lia). rewrite Hlt.
  match goal with |- context [2 ^ 1024 <=? ?m] => set (m0 := m) end.
  destruct (2 ^ 1024 <=? m0); [by left|]. right. exists m0. split; [done|].
  subst m0.
  set (e := Z.log2 (Z.abs z) - 52).
  assert (Hq : 0 <= Z.abs z / 2 ^ e)
    by (apply Z_div_nonneg_nonneg; [lia|apply Z.pow_nonneg; lia]).
  assert (He : 0 <= 2 ^ e) by (apply Z.pow_nonneg; lia).
  repeat match goal with |- context [if ?b then _ else _] => destruct b end; nia.
Qed.

(** A table of tame cells. *)
Lemma exactWidth_nonneg (r : cells) : Forall tameCell r -> 0 <= exactWidth r.
Proof.
  induction 1 as [|c r [(v & Hv & Hv1) _] _ IH]; simpl; [lia|].
  rewrite Hv. lia.
Qed.

Lemma rowWidth_exact (r : cells) (a : Z) :
  Forall tameCell r -> 0 <= a -> a + exactWidth r < 2 ^ 53 ->
  foldl (fun count c => add count (colspanOf c)) (Fin a) r = Fin (a + exactWidth r).
Proof.
  intros Ht. revert a. induction Ht as [|c r Hc Ht IH]; intros a Ha Hlt.
  - simpl. f_equal. lia.
  - pose proof (exactWidth_nonneg r Ht) as Hr.
    destruct Hc as [(v & Hv & Hv1) _].
    simpl in *. rewrite Hv in *. simpl.
    rewrite ofZ_small by lia. rewrite IH by lia. f_equal. lia.
Qed.

Lemma getMaxColumns_exact (t : table) :
  Forall (fun r => Forall tameCell (rowCells r)) (tableRows t) ->
  let w := foldr Z.max 0 ((fun r => exactWidth (rowCells r)) <$> tableRows t) in
  w < 2 ^ 53 ->
  getMaxColumns t = Fin w.
Proof.
  unfold getMaxColumns. generalize (tableRows t) as rows. intros rows Ht.
  assert (H : forall a, 0 <= a ->
    foldr Z.max 0 ((fun r => exactWidth (rowCells r)) <$> rows) < 2 ^ 53 ->
    foldl (fun max r => let count := rowWidth (rowCells r) in
                        if lt max count then count else max) (Fin a) rows
    = Fin (Z.max a (foldr Z.max 0 ((fun r => exactWidth (rowCells r)) <$> rows)))).
  { induction Ht as [|r rows Hr _ IH]; intros a Ha Hlt.
    - simpl. f_equal. lia.
    - rewrite fmap_cons in *. cbn [foldr foldl] in *.
      pose proof (exactWidth_nonneg _ Hr).
      assert (Hrw : rowWidth (rowCells r) = Fin (exactWidth (rowCells r))).
      { unfold rowWidth. rewrite (rowWidth_exact _ 0) by (done || lia). f_equal. }
      cbv zeta. rewrite Hrw. cbn [lt].
      destruct (Z.ltb_spec a (exactWidth (rowCells r))); rewrite IH by lia; f_equal; lia. }
  intros Hw. rewrite H by (done || lia). f_equal.
  assert (0 <= foldr Z.max 0 ((fun r => exactWidth (rowCells r)) <$> rows)); [|lia].
  clear. induction rows as [|r rows IH]; [simpl; lia|].
  rewrite fmap_cons. cbn [foldr]. lia.
Qed.

Lemma nextFree_returns (m : Z) (line : list (option info)) (fuel : nat) (z : Z) :
  0 <= z -> m < 2 ^ 53 -> m - z <= Z.of_nat fuel ->
  exists z', nextFree fuel m line (Fin z) = Some (Fin z') /\ z <= z'.
Proof.
  intros Hz Hm. revert z Hz. induction fuel as [|f IH]; intros z Hz Hf.
  - cbn [nextFree lt]. assert (E : (z <? m) = false) by (apply Z.ltb_ge; lia).
    rewrite E. cbn [andb]. exists z. split; [done|lia].
  - cbn [nextFree lt]. destruct ((z <? m) && notNull line (Fin z)) eqn:E; [|exists z; split; [done|lia]].
    cbn [add].
    apply andb_true_iff in E as [E _]. apply Z.ltb_lt in E.
    rewrite ofZ_small by lia.
    rewrite bool_decide_eq_false_2 by (intros [=]; lia).
    destruct (IH (z + 1)) as (z' & Hz' & ?); [lia|lia|].
    exists z'. split; [done|lia].
Qed.

Lemma placeCell_returns (n : nat) (m : Z) (r : nat) (st : rowState) (c : cell) :
  m < 2 ^ 53 -> tameCell c -> soundIdx st ->
  exists st', placeCell n m r st c = Some st' /\ soundIdx st'.
Proof.
  intros Hm [(v & Hv & Hv1) (w & Hw & Hw1)] Hst. unfold placeCell.
  destruct (rsBroken st) eqn:Eb; [exists st; split; [done|by left]|].
  destruct Hst as [Hst|[Hst|(z & Hst & Hz)]]; [congruence| |]; rewrite Hst.
  - simpl. eexists. split; [reflexivity|]. by left.
  - simpl. destruct (nextFree_returns m (default [] (rsGrid st !! r))
                       (Z.to_nat (m - z)) z Hz Hm ltac:(lia)) as (z' & -> & Hz').
    simpl. destruct (z' <? m) eqn:E; simpl; [|eexists; split; [reflexivity|by left]].
    rewrite Hw, Hv. simpl.
    assert (E1 : (w <=? 2 ^ 53) = true) by (apply Z.leb_le; lia).
    assert (E2 : (v <=? 2 ^ 53) = true) by (apply Z.leb_le; lia).
    rewrite E1, E2.
    destruct (Z.to_nat w) as [|nr] eqn:Enr; [lia|].
    eexists. split; [reflexivity|]. right. simpl.
    destruct (ofZ_nonneg (z' + v)) as [->|(x & -> & ?)]; [lia|by left|right; by exists x].
Qed.

Lemma placeCells_returns (n : nat) (m : Z) (r : nat) (cs : cells) (st : rowState) :
  m < 2 ^ 53 -> Forall tameCell cs -> soundIdx st ->
  is_Some (placeCells n m r st cs).
Proof.
  intros Hm Hcs. revert st. induction Hcs as [|c cs Hc _ IH]; intros st Hst; simpl; [done|].
  destruct (placeCell_returns n m r st c Hm Hc Hst) as (st' & -> & Hst'). by apply IH.
Qed.

Lemma placeRows_returns (n : nat) (m : Z) (rows : list cells) (g : grid) (r : nat) :
  m < 2 ^ 53 -> Forall (Forall tameCell) rows ->
  is_Some (placeRows n m g r rows).
Proof.
  intros Hm Hrows. revert g r. induction Hrows as [|cs rows Hcs _ IH]; intros g r; simpl; [done|].
  unfold placeRow.
  destruct (placeCells_returns n m r cs (mkRowState (Fin 0) g false) Hm Hcs) as [st' ->].
  { right. right. by exists 0. }
  simpl. apply IH.
Qed.

Lemma expandMergedCells_returns (t : table) :
  Forall (fun r => Forall tameCell (rowCells r)) (tableRows t) ->
  let w := foldr Z.max 0 ((fun r => exactWidth (rowCells r)) <$> tableRows t) in
  w < 2 ^ 32 ->
  getMaxColumns t = Fin w /\ exists t', expandMergedCells t = Done t'.
Proof.
  intros Ht w Hw.
  assert (H0 : 0 <= w).
  { subst w. generalize (tableRows t). clear. intros l.
    induction l as [|r l IH]; [simpl; lia|]. rewrite fmap_cons. cbn [foldr]. lia. }
  assert (Hm : getMaxColumns t = Fin w) by (apply getMaxColumns_exact; [done|fold w; lia]).
  clearbody w.
  split; [done|]. unfold expandMergedCells. rewrite Hm.
  destruct (tableRows t) as [|r0 rs] eqn:E; [by eexists|]. rewrite <- E.
  simpl. assert (Ew : (0 <=? w) && (w <? 2 ^ 32) = true).
  { apply andb_true_iff. split; [apply Z.leb_le|apply Z.ltb_lt]; lia. }
  rewrite Ew. unfold expandRows, buildGrid.
  destruct (placeRows_returns (length (rowCells <$> tableRows t)) w
              (rowCells <$> tableRows t)
              (replicate (length (rowCells <$> tableRows t)) (replicate (Z.to_nat w) None))
              0%nat) as [g ->]; [lia| |].
  - apply Forall_fmap. rewrite E. exact Ht.
  - simpl. by eexists.
Qed.

Lemma placeCell_tame (n m r : nat) (st : rowState) (c : cell) (z v w : Z) :
  Z.of_nat m < 2 ^ 53 ->
  colspanOf c = Fin v -> 1 <= v <= 2 ^ 53 ->
  rowspanOf c = Fin w -> 1 <= w <= 2 ^ 53 ->
  rsBroken st = false -> rsIdx st = Fin z -> 0 <= z ->
  exists z', z <= z' /\
    ((Z.of_nat m <= z'
      /\ placeCell n (Z.of_nat m) r st c = Some (mkRowState (Fin z') (rsGrid st) true)
      /\ placedAt (Z.of_nat m) r st c = [])
     \/ (z' < Z.of_nat m
         /\ placeCell n (Z.of_nat m) r st c
            = Some (mkRowState (ofZ (z' + v))
                      (markSpan n (Z.of_nat m) r z' (Z.to_nat w) (Z.to_nat v) c (rsGrid st))
                      false)
         /\ placedAt (Z.of_nat m) r st c = [mkPlacement r (Z.to_nat z') c])).
Proof.
  intros Hm Hv Hv1 Hw Hw1 Hb Hidx Hz.
  unfold placeCell, placedAt. rewrite Hb, Hidx. cbn [skipFuel].
  destruct (nextFree_returns (Z.of_nat m) (default [] (rsGrid st !! r))
              (Z.to_nat (Z.of_nat m - z)) z Hz Hm ltac:(lia)) as (z' & -> & Hz').
  exists z'. split; [done|]. cbn [ge lt].
  destruct (z' <? Z.of_nat m) eqn:E; cbn [negb].
  - right. apply Z.ltb_lt in E. split; [done|]. split; [|done].
    rewrite Hw, Hv. cbn [loopCount add].
    assert (E1 : (w <=? 2 ^ 53) = true) by (apply Z.leb_le; lia).
    assert (E2 : (v <=? 2 ^ 53) = true) by (apply Z.leb_le; lia).
    rewrite E1, E2.
    destruct (Z.to_nat w) as [|nr] eqn:Enr; [lia|]. reflexivity.
  - left. apply Z.ltb_ge in E. done.
Qed.


Lemma placeCell_origins (n m r : nat) (st st' : rowState) (c : cell)
    (tr : list placement) :
  Z.of_nat m < 2 ^ 32 -> (r < n)%nat -> smallCell c ->
  soundIdx st -> shaped n m (rsGrid st) ->
  placeCell n (Z.of_nat m) r st c = Some st' ->
  originInv r st tr ->
  originInv r st' (tr ++ placedAt (Z.of_nat m) r st c).
Proof.
  intros Hm Hr (v & w & Hv & Hv1 & Hw & Hw1) Hsound Hshape Hstep Hinv.
  destruct (rsBroken st) eqn:Eb.
  { unfold placeCell, placedAt in *. rewrite Eb in *. injection Hstep as <-.
    by rewrite app_nil_r. }
  destruct Hsound as [Hs|[Hs|(z & Hs & Hz)]]; [congruence| |].
  - unfold placeCell, placedAt in *. rewrite Eb, Hs in *. simpl in *.
    injection Hstep as <-. rewrite app_nil_r.
    intros p Hp. destruct (Hinv p Hp) as (? & ? & ?). split_and!; try done.
    intros _. by left.
  - destruct (placeCell_tame n m r st c z v w ltac:(lia) Hv ltac:(lia) Hw Hw1 Eb Hs Hz)
      as (z' & Hz' & [(Hge & Hp & ->)|(Hlt & Hp & ->)]);
      rewrite Hp in Hstep; injection Hstep as <-.
    + rewrite app_nil_r. intros p Hin. destruct (Hinv p Hin) as (? & ? & ?).
      split_and!; try done. intros _. by left.
    + rewrite ofZ_small by lia. cbn [rsGrid rsIdx rsBroken].
      pose proof (markSpan_spec n m r (Z.to_nat z') (Z.to_nat w) (Z.to_nat v) c
                    (rsGrid st) Hshape) as [_ Hget].
      rewrite Z2Nat.id in Hget by lia.
      intros p [Hin|Hin%list_elem_of_singleton]%elem_of_app.
      * destruct (Hinv p Hin) as (Hown & Hrow & Hleft). split_and!; [|done|].
        -- unfold ownEntry. rewrite Hget. destruct (decide _) as [Hd|_]; [|done].
           exfalso. assert (Hpr : plRow p = r) by lia.
           destruct (Hleft Hpr) as [?|[?|(x & Hx & ?)]]; try congruence.
           rewrite Hs in Hx. injection Hx as <-. lia.
        -- intros Hpr. right. right. eexists. split; [reflexivity|].
           destruct (Hleft Hpr) as [?|[?|(x & Hx & ?)]]; try congruence.
           rewrite Hs in Hx. injection Hx as <-. lia.
      * subst p. cbn [plRow plCol plCell]. split_and!; [|done|].
        -- unfold ownEntry. cbn [plRow plCol plCell]. rewrite Hget.
           destruct (decide _) as [_|Hd]; [done|]. exfalso. apply Hd. lia.
        -- intros _. right. right. eexists. split; [reflexivity|]. lia.
Qed.


Lemma smallCell_tame (c : cell) : smallCell c -> tameCell c.
Proof.
  intros (v & w & Hv & Hv1 & Hw & Hw1). split; [exists v|exists w]; split; try done. lia.
Qed.

Lemma placeCells_origins (n m r : nat) (cs : cells) (st st' : rowState)
    (tr : list placement) :
  Z.of_nat m < 2 ^ 32 -> (r < n)%nat -> Forall smallCell cs ->
  soundIdx st -> gridInv n m tr (rsGrid st) ->
  placeCells n (Z.of_nat m) r st cs = Some st' ->
  originInv r st tr ->
  originInv r st' (tr ++ traceCells n (Z.of_nat m) r st cs).
Proof.
  intros Hm Hr Hcs. revert st tr.
  induction Hcs as [|c cs Hc _ IH]; intros st tr Hsound Hg H Hinv; simpl in *.
  - injection H as <-. by rewrite app_nil_r.
  - destruct (placeCell_returns n (Z.of_nat m) r st c ltac:(lia)
                (smallCell_tame c Hc) Hsound) as (st1 & E & Hsound1).
    rewrite E in *. rewrite app_assoc. apply (IH st1); try done.
    + by apply (placeCell_inv n m r st st1 c tr).
    + apply (placeCell_origins n m r st st1 c tr); try done. exact (proj1 Hg).
Qed.

Lemma placeRows_origins (n m : nat) (rows : list cells) (r : nat) (g g' : grid)
    (tr : list placement) :
  Z.of_nat m < 2 ^ 32 -> (r + length rows = n)%nat ->
  Forall (Forall smallCell) rows ->
  gridInv n m tr g ->
  placeRows n (Z.of_nat m) g r rows = Some g' ->
  (forall p, p ∈ tr -> ownEntry g p /\ (plRow p < r)%nat) ->
  forall p, p ∈ tr ++ traceRows n (Z.of_nat m) g r rows -> ownEntry g' p.
Proof.
  intros Hm Hn Hrows. revert r g tr Hn.
  induction Hrows as [|cs rows Hcs _ IH]; intros r g tr Hn Hg H Hinv; simpl in *.
  - injection H as <-. rewrite app_nil_r. intros p Hp. by apply Hinv.
  - unfold placeRow in *.
    destruct (placeCells n (Z.of_nat m) r _ cs) as [st1|] eqn:E; simpl in *; [|done].
    rewrite app_assoc. apply IH; [lia| |done|].
    + by apply (placeCells_inv n m r cs _ st1 tr E).
    + assert (Ho : originInv r st1 (tr ++ traceCells n (Z.of_nat m) r
                                      (mkRowState (Fin 0) g false) cs)).
      { apply placeCells_origins; try done; [lia| |].
        - right. right. by exists 0.
        - intros p Hp. destruct (Hinv p Hp) as [? ?]. split_and!; [done|lia|lia]. }
      intros p Hp. destruct (Ho p Hp) as (? & ? & _). split; [done|lia].
Qed.

(** In the grid of a table with small spans every placement has its own
    entry at its place. *)
Lemma buildGrid_origins (rows : list cells) (m : nat) (g : grid) :
  Z.of_nat m < 2 ^ 32 -> Forall (Forall smallCell) rows ->
  buildGrid rows (Z.of_nat m) = Some g ->
  forall p, p ∈ placements rows (Z.of_nat m) -> ownEntry g p.
Proof.
  unfold buildGrid, placements. rewrite Nat2Z.id. intros Hm Hrows H p Hp.
  apply (placeRows_origins _ _ _ _ _ _ [] Hm (Nat.add_0_l _) Hrows
           (gridInv_initial _ _) H); [|done].
  by intros q ?%elem_of_nil.
Qed.

Lemma exactWidth_bound (cs : cells) (c : cell) (v : Z) :
  Forall tameCell cs -> c ∈ cs -> colspanOf c = Fin v -> v <= exactWidth cs.
Proof.
  induction 1 as [|c0 cs Hc0 Hcs IH]; [by intros ?%elem_of_nil|].
  intros Hin Hv. pose proof (exactWidth_nonneg cs Hcs) as H1.
  unfold exactWidth in *. cbn [foldr].
  destruct Hc0 as [(v0 & Hv0 & ?) _]. rewrite Hv0.
  apply elem_of_cons in Hin as [->|Hin].
  - rewrite Hv0 in Hv. injection Hv as <-. lia.
  - specialize (IH Hin Hv). lia.
Qed.

Lemma smallCells (l : list cells) :
  Forall (Forall tameCell) l ->
  foldr Z.max 0 (exactWidth <$> l) < 2 ^ 32 ->
  Forall (Forall smallCell) l.
Proof.
  induction 1 as [|cs l Hcs _ IH]; [done|]. rewrite fmap_cons. cbn [foldr]. intros Hw.
  constructor; [|apply IH; lia].
  apply Forall_forall. intros c Hc.
  destruct (proj1 (Forall_forall _ _) Hcs c Hc) as [(v & Hv & Hv1) (w & Hw0 & Hw1)].
  pose proof (exactWidth_bound cs c v Hcs Hc Hv).
  exists v, w. split_and!; try done; lia.
Qed.


(** In the table rebuilt from small spans every placed cell stands at its
    own place. *)
Lemma expandMergedCells_origins (t t' : table) :
  tableRows t <> [] ->
  expandMergedCells t = Done t' ->
  Forall (fun r => Forall tameCell (rowCells r)) (tableRows t) ->
  let w := foldr Z.max 0 ((fun r => exactWidth (rowCells r)) <$> tableRows t) in
  w < 2 ^ 32 ->
  forall p, p ∈ placements (rowCells <$> tableRows t) w ->
    exists row', (rowCells <$> tableRows t') !! plRow p = Some row'
                 /\ row' !! plCol p = Some (stripSpans (plCell p)).
Proof.
  intros Hne Hdone Ht w Hw p Hp.
  destruct (expandMergedCells_rows t t' Hne Hdone) as (m & rebuilt & Hm & Hlt & Hx & Hc & _).
  assert (Hwm : getMaxColumns t = Fin w) by (by apply expandMergedCells_returns).
  rewrite Hwm in Hm. injection Hm as Hwm'.
  assert (Hsmall : Forall (Forall smallCell) (rowCells <$> tableRows t)).
  { apply smallCells; [by apply Forall_fmap|]. by rewrite <- list_fmap_compose. }
  clearbody w. subst w rebuilt.
  destruct (expandRows_rows _ _ m Hx) as (g & Hg & Hlen & Hrows).
  pose proof (buildGrid_origins _ m g Hlt Hsmall Hg p Hp) as Hown.
  destruct (placements_facts _ m p Hp) as (Hcol & src & Hsrc & _).
  apply lookup_lt_Some in Hsrc.
  destruct (Hrows (plRow p) Hsrc) as (row' & Hrow & _ & Hcells).
  exists row'. split; [done|]. rewrite (Hcells _ Hcol), Hown.
  rewrite rebuildCell_written. unfold cellAt. by rewrite !bool_decide_eq_true_2.
Qed.

End GridFacts.

Section ExpandClaim.
Import Num Expand Clean ExpandExample.

Variable removeProperty : jsstring -> jsstring -> jsstring.
Variable reparse : list node -> list node.

(** C1. A cell whose [colspan] attribute reads 4294967296 makes
    [getMaxColumns] return [2^32], which is no length of an array:
    [expandMergedCells] raises a [RangeError] at its first
    [new Array(maxCols)], before any row is rebuilt, nothing catches it,
    and the normalization of the table ends with that exception.  So it is
    not for every table that the rows have [maxColumns] cells after the
    step.  The three-column table of the property, whose first cell has
    [colspan="2"], is expanded as the property says: three columns, and a
    first row of three cells, the second an empty cell of the first one's
    kind. *)
Theorem C1_huge_colspan_throws :
  getMaxColumns hugeColspan = Fin 4294967296 /\
  arrayLength (Fin 4294967296) = None /\
  expandMergedCells hugeColspan = Throws RangeError /\
  normalizeTable removeProperty reparse hugeColspan = Throws RangeError /\
  (forall k,
      getMaxColumns (spanTable k) = Fin 3 /\
      exists t', expandMergedCells (spanTable k) = Done t' /\
        tableRows t' !! 0%nat =
          Some (mkRow [] [mkCell k [] [Text (str "A")]; mkCell k [] [];
                          mkCell TD [] [Text (str "B")]])).
Proof.
  split_and!; try (vm_compute; reflexivity).
  intros k. split; [by destruct k|].
  destruct k; eexists; (split; [vm_compute; reflexivity|reflexivity]).
Qed.

(** Where spans cross, the later cell wins: the position below the [td]
    with [rowspan="2"] is written again for the [th] with [colspan="2"],
    and the rebuilt second row ends in an empty [th]. *)
Lemma crossing_spans_take_later_kind :
  expandMergedCells crossingSpans
  = Done [TBody [mkRow [] [mkCell TD [] [Text (str "a")];
                           mkCell TD [] [Text (str "b")]];
                 mkRow [] [mkCell TH [] [Text (str "c")]; mkCell TH [] []]]].
Proof. vm_compute. reflexivity. Qed.

End ExpandClaim.

(** ** Tables without rows *)

Section ZeroRows.
Import Expand Promote Sectioning Clean RenderExample NormalizeExample.

Lemma tableRows_nil_sections (t : table) :
  tableRows t = [] ->
  Forall (fun s => s = THead [] \/ s = TBody [] \/ s = TFoot [] \/
                   exists n, s = OtherChild n) t.
Proof.
  unfold tableRows. intros H.
  apply app_eq_nil in H as [Hh H]. apply app_eq_nil in H as [Hb Hf].
  induction t as [|s t IH]; [constructor|].
  simpl in *. apply app_eq_nil in Hh as [Hh1 Hh2].
  apply app_eq_nil in Hb as [Hb1 Hb2]. apply app_eq_nil in Hf as [Hf1 Hf2].
  constructor; [|by apply IH].
  destruct s as [rs|rs|rs|r|n]; simpl in *; subst; eauto 6. done.
Qed.

Lemma cleanCellContent_zero_rows (removeProperty : jsstring -> jsstring -> jsstring)
    (t : table) :
  tableRows t = [] ->
  tableRows (cleanCellContent removeProperty t) = [] /\
  Forall2 (fun s s' => match s with
                       | OtherChild n => s' = OtherChild (cleanOutside removeProperty n)
                       | _ => s' = s
                       end) t (cleanCellContent removeProperty t).
Proof.
  intros H%tableRows_nil_sections.
  unfold cleanCellContent, tableRows.
  induction H as [|s t Hs H [IH1 IH2]]; [by split; [|constructor]|].
  destruct Hs as [->|[->|[->|[n ->]]]]; simpl; (split; [done|by constructor]).
Qed.

(** C10. On a table without rows each of [expandMergedCells],
    [promoteHeaderCells], [ensureThead] and [ensureHeaderRow] returns,
    without raising, the table it was given.  The whole normalization
    returns as well; its result still has no row, so no header row was
    made, and every section of the table is as before.  The one step that
    has no guard is the last: it cleans the cells that it finds below the
    children of the table that are no sections, and these children alone
    can differ. *)
Theorem C10_zero_rows (removeProperty : jsstring -> jsstring -> jsstring)
    (reparse : list node -> list node) (t : table) :
  tableRows t = [] ->
  expandMergedCells t = Done t /\
  promoteHeaderCells reparse t = t /\
  ensureThead t = Done t /\
  ensureHeaderRow t = t /\
  exists t', normalizeTable removeProperty reparse t = Done t' /\
             tableRows t' = [] /\
             Forall2 (fun s s' => match s with
                                  | OtherChild n => s' = OtherChild (cleanOutside removeProperty n)
                                  | _ => s' = s
                                  end) t t'.
Proof.
  intros H.
  assert (He : expandMergedCells t = Done t) by (unfold expandMergedCells; by rewrite H).
  assert (Hp : promoteHeaderCells reparse t = t) by (unfold promoteHeaderCells; by rewrite H).
  assert (Ht : ensureThead t = Done t) by (unfold ensureThead; by rewrite H).
  assert (Hr : ensureHeaderRow t = t) by (unfold ensureHeaderRow; by rewrite H).
  split_and!; try done.
  exists (cleanCellContent removeProperty t).
  unfold normalizeTable. rewrite He, Hp, Ht, Hr. split; [done|].
  by apply cleanCellContent_zero_rows.
Qed.

(** C10 at the table with an empty body section and a caption that holds
    a table: the sections are as before, and the cell of the nested table
    is cleaned. *)
Lemma C10_zero_rows_witness :
  normalizeTable keepStyle keepNodes captionedTable
  = Done [OtherChild (cleanOutside keepStyle captionOfTable); TBody []].
Proof.
  destruct (C10_zero_rows keepStyle keepNodes captionedTable eq_refl)
    as (_ & _ & _ & _ & t' & Hn & _ & HF).
  rewrite Hn. f_equal.
  inversion HF as [|? ? ? ? H1 H2]; subst.
  inversion H2 as [|? ? ? ? H3 H4]; subst.
  inversion H4; subst. reflexivity.
Defined.

(** The normalization changes a table without rows: the cell of the table
    in the caption loses its width, and its paragraph is unwrapped. *)
Lemma C10_caption_table_cleaned :
  tableRows captionedTable = [] /\
  normalizeTable keepStyle keepNodes captionedTable
  = Done [OtherChild
            (Elem (str "caption") []
               [Elem (str "table") []
                  [Elem (str "tr") []
                     [Elem (str "td") [] [Text (str "a")]]]]);
          TBody []] /\
  normalizeTable keepStyle keepNodes captionedTable <> Done captionedTable.
Proof. split_and!; [reflexivity|vm_compute; reflexivity|]. vm_compute. discriminate. Qed.

End ZeroRows.

(** ** Separator lines *)

Section Separators.
Import Render.
















End Separators.

Section SeparatorClaim.
Import Render Walk RenderExample Sectioning Clean.




End SeparatorClaim.

(** ** Header synthesis *)

Section RowsOfSections.
Import Sectioning.

Lemma tableRows_rowsOf (t : table) :
  tableRows t = rowsOf theadRows t ++ rowsOf bodyRows t ++ rowsOf tfootRows t.
Proof. reflexivity. Qed.

Lemma rowsOf_app (f : section -> list row) (a b : table) :
  rowsOf f (a ++ b) = rowsOf f a ++ rowsOf f b.
Proof. unfold rowsOf. by rewrite fmap_app, concat_app. Qed.

Lemma rowsOf_cons (f : section -> list row) (s : section) (t : table) :
  rowsOf f (s :: t) = f s ++ rowsOf f t.
Proof. reflexivity. Qed.

Lemma rowsOf_nil_Forall (f : section -> list row) (l : table) :
  Forall (fun x => f x = []) l -> rowsOf f l = [].
Proof.
  induction 1 as [|x l Hx _ IH]; [done|].
  rewrite rowsOf_cons, Hx. exact IH.
Qed.

(** Where [firstIn] finds its row: the first section with a row of the
    kind asked for. *)
Lemma firstIn_split (f : section -> list row) (k0 : nat) (u : table) (fk fj : nat) :
  firstIn f k0 u = Some (fk, fj) ->
  exists pre s post x xs,
    u = pre ++ s :: post /\ fk = (k0 + length pre)%nat /\ fj = 0%nat /\
    f s = x :: xs /\ Forall (fun s' => f s' = []) pre.
Proof.
  revert k0. induction u as [|s u IH]; intros k0 H; [done|].
  simpl in H. destruct (f s) as [|x xs] eqn:E.
  - destruct (IH _ H) as (pre & s' & post & x & xs & -> & -> & -> & Hf & Hpre).
    exists (s :: pre), s', post, x, xs.
    split_and!; first [done | simpl; lia | by constructor].
  - injection H as <- <-.
    exists [], s, u, x, xs.
    split_and!; first [done | simpl; lia | by constructor].
Qed.

Lemma firstIn_None (f : section -> list row) (k0 : nat) (u : table) :
  firstIn f k0 u = None -> rowsOf f u = [].
Proof.
  revert k0. induction u as [|s u IH]; intros k0 H; [done|].
  simpl in H. destruct (f s) eqn:E; [|done].
  rewrite rowsOf_cons, E. by eapply IH.
Qed.

Lemma removeRowAt_middle (pre post : table) (s : section) (j : nat) :
  removeRowAt (length pre) j (pre ++ s :: post) =
  match s with
  | THead rs => pre ++ THead (delete j rs) :: post
  | TBody rs => pre ++ TBody (delete j rs) :: post
  | TFoot rs => pre ++ TFoot (delete j rs) :: post
  | DirectRow _ => pre ++ post
  | OtherChild _ => pre ++ s :: post
  end.
Proof.
  unfold removeRowAt.
  rewrite list_lookup_middle by done.
  destruct s; try done.
  - rewrite insert_app_r_alt by lia. by rewrite Nat.sub_diag.
  - rewrite insert_app_r_alt by lia. by rewrite Nat.sub_diag.
  - rewrite insert_app_r_alt by lia. by rewrite Nat.sub_diag.
  - rewrite delete_middle. done.
Qed.

(** Removing [table.rows[0]] leaves the other rows, in their order. *)
Lemma tableRows_remove_first (u : table) (fk fj : nat) :
  firstRowPlace u = Some (fk, fj) ->
  tableRows (removeRowAt fk fj u) = tail (tableRows u).
Proof.
  unfold firstRowPlace. intros H.
  destruct (firstIn theadRows 0 u) as [p|] eqn:Eh.
  - injection H as ->.
    apply firstIn_split in Eh as (pre & s & post & x & xs & -> & -> & -> & Hf & Hpre).
    simpl. rewrite removeRowAt_middle.
    destruct s; try done; simpl in Hf; subst.
    rewrite !tableRows_rowsOf, !rowsOf_app, !rowsOf_cons.
    rewrite (rowsOf_nil_Forall theadRows pre Hpre). reflexivity.
  - apply firstIn_None in Eh.
    destruct (firstIn bodyRows 0 u) as [p|] eqn:Eb.
    + injection H as ->.
      apply firstIn_split in Eb as (pre & s & post & x & xs & -> & -> & -> & Hf & Hpre).
      simpl. rewrite removeRowAt_middle.
      rewrite rowsOf_app, rowsOf_cons in Eh.
      apply app_eq_nil in Eh as [Eh1 Eh2]. apply app_eq_nil in Eh2 as [Eh2 Eh3].
      destruct s; try done; simpl in Hf.
      * subst. rewrite !tableRows_rowsOf, !rowsOf_app, !rowsOf_cons.
        rewrite (rowsOf_nil_Forall bodyRows pre Hpre), Eh1, Eh3. reflexivity.
      * injection Hf as -> <-.
        rewrite !tableRows_rowsOf, !rowsOf_app, !rowsOf_cons.
        rewrite (rowsOf_nil_Forall bodyRows pre Hpre), Eh1, Eh3. reflexivity.
    + apply firstIn_None in Eb.
      apply firstIn_split in H as (pre & s & post & x & xs & -> & -> & -> & Hf & Hpre).
      simpl. rewrite removeRowAt_middle.
      rewrite rowsOf_app, rowsOf_cons in Eh, Eb.
      apply app_eq_nil in Eh as [Eh1 Eh2]. apply app_eq_nil in Eh2 as [Eh2 Eh3].
      apply app_eq_nil in Eb as [Eb1 Eb2]. apply app_eq_nil in Eb2 as [Eb2 Eb3].
      destruct s; try done; simpl in Hf. subst.
      rewrite !tableRows_rowsOf, !rowsOf_app, !rowsOf_cons.
      rewrite (rowsOf_nil_Forall tfootRows pre Hpre), Eh1, Eh3, Eb1, Eb3.
      reflexivity.
Qed.

End RowsOfSections.

Section AppendToThead.
Import Sectioning.








End AppendToThead.

Section RemoveAfterAppend.
Import Sectioning.






Lemma firstRowPlace_None (t : table) :
  firstRowPlace t = None -> tableRows t = [].
Proof.
  unfold firstRowPlace. intros H.
  destruct (firstIn theadRows 0 t) eqn:E1; [done|].
  destruct (firstIn bodyRows 0 t) eqn:E2; [done|].
  rewrite tableRows_rowsOf.
  by rewrite (firstIn_None _ _ _ E1), (firstIn_None _ _ _ E2), (firstIn_None _ _ _ H).
Qed.




End RemoveAfterAppend.

Section HeaderSynthesisClaim.
Import Sectioning Clean Render Walk RenderExample NormalizeExample.




(** A header section that holds the first row, of data cells: the
    synthetic header is put beneath that row, not above it. *)
Lemma header_lands_beneath_first_row :
  tableRows (ensureHeaderRow headerSectionOfData)
  = [mkRow [] [mkCell TD [] []]; columnOne].
Proof. reflexivity. Qed.

End HeaderSynthesisClaim.

(** ** Running the normalization twice *)

Section Idempotence.
Import Sectioning Clean RenderExample NormalizeExample.

(** C4. A second run of the normalization changes the table.  The table
    is a header section whose only row has one empty data cell: the first
    run makes a header row [Column 1] and appends it to the header
    section, so beneath the row of the data cell, which stays the first
    row of the table; the second run finds a first row without header
    cells again and appends another header row.  The table has two rows
    after one run and three after two. *)
Lemma C4_second_run_adds_header :
  normalizeTable keepStyle keepNodes headerSectionOfData = Done headerSectionOnce /\
  normalizeTable keepStyle keepNodes headerSectionOnce = Done headerSectionTwice /\
  length (tableRows headerSectionOnce) = 2%nat /\
  length (tableRows headerSectionTwice) = 3%nat /\
  headerSectionOnce <> headerSectionTwice.
Proof.
  split_and!; [vm_compute; reflexivity..|].
  intros H. apply (f_equal (fun t => length (tableRows t))) in H.
  vm_compute in H. discriminate H.
Qed.

(** A second run also retags a marked data cell that the first run left
    in the row beneath the synthetic header. *)
Lemma second_run_retags_marked_cell :
  let kindAt (o : outcome table) :=
    match o with
    | Done t => cellKind <$> ((tableRows t !! 1%nat) ≫= (fun r => rowCells r !! 0%nat))
    | _ => None
    end in
  let once := normalizeTable keepStyle keepNodes markedFirstCell in
  kindAt once = Some TD /\
  kindAt (match once with Done t => normalizeTable keepStyle keepNodes t | e => e end) = Some TH.
Proof. split; vm_compute; reflexivity. Qed.

End Idempotence.

(** ** The warning panel *)

Section WarningPanel.
Import Panels.

(** The element of the scenario as it is written carries the class
    [confluence-information-macro-warning] alone; no selector of
    [convertPanels] matches it, the tree is left as it is and holds no
    blockquote. *)
Lemma C5_as_written_no_blockquote :
  convertPanels (fun s => s) (fun _ => []) (fun s => s) (rootOf warningAsWritten)
    = rootOf warningAsWritten /\
  hasBlockquote
    (convertPanels (fun s => s) (fun _ => []) (fun s => s) (rootOf warningAsWritten))
    = false.
Proof. split; vm_compute; reflexivity. Qed.

(** The same holds whatever the browser's functions are. *)
Lemma convertPanels_as_written toUpperCase parseHTML printInherited :
  convertPanels toUpperCase parseHTML printInherited (rootOf warningAsWritten)
  = rootOf warningAsWritten.
Proof. reflexivity. Qed.

Lemma panelType_values (a : attrs) :
  panelType panelClasses a ∈
    [str "Info"; str "Note"; str "Warning"; str "Tip"; str "Success"].
Proof.
  unfold panelClasses. simpl.
  repeat (destruct (hasClass _ a);
          [rewrite !elem_of_cons; by eauto 10|]).
  rewrite !elem_of_cons. by eauto 10.
Qed.

(** C5, for an element that carries the class [confluence-information-macro].
    The first pass of [convertPanels] replaces such an element (here one
    without a separate body element) by a blockquote whose first child is
    a paragraph with the strong text made of the emoji of its label, a
    space, the label and a colon, followed by the children it had; the
    label is that of the first class of the table that the element has.
    For the warning element with the paragraph [Be careful], the whole of
    [convertPanels] yields the blockquote with the warning sign and
    [Warning:], followed by that paragraph. *)
Theorem C5_warning_panel toUpperCase parseHTML printInherited :
  (forall tag a kids,
     hasClass (str "confluence-information-macro") a = true ->
     querySelector (fun _ a' => hasClass (str "confluence-information-macro-body") a') kids = None ->
     let label := panelType panelClasses a in
     replaceAll isMacro (buildOldPanel parseHTML printInherited) (rootOf (Elem tag a kids))
     = rootOf (Elem (str "blockquote") []
                 (Elem (str "p") []
                    [Elem (str "strong") []
                       [Text (getEmojiForPanel printInherited label
                              ++ str " " ++ label ++ str ":")]]
                  :: kids))) /\
  getEmojiForPanel printInherited (str "Warning") = [9888; 65039]%N /\
  panelType panelClasses
    [(str "class", str "confluence-information-macro confluence-information-macro-warning")]
    = str "Warning" /\
  convertPanels toUpperCase parseHTML printInherited (rootOf warningMacro)
  = rootOf
      (Elem (str "blockquote") []
         [Elem (str "p") []
            [Elem (str "strong") [] [Text ([9888; 65039]%N ++ str " Warning:")]];
          Elem (str "p") [] [Text (str "Be careful")]]).
Proof.
  split_and!; [|reflexivity..].
  intros tag a kids Hcls Hbody. cbv zeta.
  unfold rootOf. simpl. unfold isMacro at 1. rewrite Hcls. do 2 f_equal.
  unfold buildOldPanel. rewrite Hbody. simpl.
  do 2 f_equal.
  clear Hcls Hbody.
  repeat (destruct (hasClass _ a); [reflexivity|]). reflexivity.
Qed.

(** C5 at the warning element of the scenario. *)
Lemma C5_warning_panel_witness :
  replaceAll isMacro (buildOldPanel (fun _ => []) (fun s => s)) (rootOf warningMacro)
  = rootOf
      (Elem (str "blockquote") []
         [Elem (str "p") []
            [Elem (str "strong") [] [Text ([9888; 65039]%N ++ str " Warning:")]];
          Elem (str "p") [] [Text (str "Be careful")]]).
Proof.
  destruct (C5_warning_panel (fun s => s) (fun _ => []) (fun s => s)) as (H & _).
  exact (H (str "div")
           [(str "class", str "confluence-information-macro confluence-information-macro-warning")]
           [Elem (str "p") [] [Text (str "Be careful")]] eq_refl eq_refl).
Defined.

End WarningPanel.

(** ** Code language detection *)

Section LanguageDetection.
Import ObjectMap CodeLanguage.

Variable toLowerCase : jsstring -> jsstring.

(** The order of the three sources, and what each hands to
    [normalizeLanguage]. *)
Lemma detectCodeLanguage_order (pre panel : node) :
  let params := default [] (getAttribute (str "data-syntaxhighlighter-params") (attrsOf pre)) in
  let code := Panels.querySelector (fun t _ => Js.eqb t (str "code")) (Panels.kidsOf pre) in
  let classStr := className pre ++ str " " ++ from_option className [] code
                  ++ str " " ++ className panel in
  let data := orElse (getAttribute (str "data-language") (attrsOf pre))
                     (getAttribute (str "data-language") (attrsOf panel)) in
  (forall w, brushParam params = Some w ->
     detectCodeLanguage toLowerCase pre panel = normalizeLanguage toLowerCase w) /\
  (forall w, brushParam params = None -> classLanguage classStr = Some w ->
     detectCodeLanguage toLowerCase pre panel = normalizeLanguage toLowerCase w) /\
  (forall w, brushParam params = None -> classLanguage classStr = None ->
     data = Some w -> w <> [] ->
     detectCodeLanguage toLowerCase pre panel = normalizeLanguage toLowerCase w) /\
  (brushParam params = None -> classLanguage classStr = None ->
     (data = None \/ data = Some []) ->
     detectCodeLanguage toLowerCase pre panel = LangText []).
Proof.
  intros params code classStr data. unfold detectCodeLanguage.
  fold params. fold code. fold classStr. fold data.
  split_and!.
  - by intros w ->.
  - by intros w -> ->.
  - intros w -> -> -> Hw. by destruct w.
  - intros -> -> [->| ->]; done.
Qed.

(** What [normalizeLanguage] does with a token, by the place of its
    lower-cased form: in the alias table, among the members that the table
    inherits, or neither. *)
Lemma normalizeLanguage_cases (lang : jsstring) :
  (forall v, ownProperty aliases (toLowerCase lang) = Some v ->
     normalizeLanguage toLowerCase lang = LangText v) /\
  (ownProperty aliases (toLowerCase lang) = None ->
   inherited (toLowerCase lang) = false ->
     normalizeLanguage toLowerCase lang = LangText (toLowerCase lang)) /\
  (ownProperty aliases (toLowerCase lang) = None ->
   inherited (toLowerCase lang) = true ->
     normalizeLanguage toLowerCase lang = LangObject (toLowerCase lang)).
Proof.
  unfold normalizeLanguage, lookup. split_and!.
  - intros v Hv. rewrite Hv.
    assert (v <> []) as Hne.
    { revert Hv. generalize (toLowerCase lang). intros k. unfold aliases. simpl.
      repeat (destruct (Js.eqb _ k); [by intros [= <-]|]). done. }
    by rewrite bool_decide_eq_false_2.
  - by intros -> ->.
  - by intros -> ->.
Qed.

End LanguageDetection.

Section LanguageClaim.
Import ObjectMap CodeLanguage.

(** The alias table, entry by entry, on its lower-case keys. *)
Lemma aliases_table :
  (fun k => normalizeLanguage asciiLower (str k)) <$>
    ["js"; "ts"; "py"; "rb"; "sh"; "shell"; "yml"; "c#"; "c++"; "JS"; "Rust"]%string
  = LangText <$> [str "javascript"; str "typescript"; str "python"; str "ruby";
                  str "bash"; str "bash"; str "yaml"; str "csharp"; str "cpp";
                  str "javascript"; str "rust"].
Proof. vm_compute. reflexivity. Qed.

(** C6 at the brush [constructor].  The token is found by the first
    source, it is no key of the alias table, and yet the result is not the
    lower-cased token: the table is an object literal, the lookup finds the
    member [constructor] that every object inherits, and that member is
    returned. *)
Theorem C6_inherited_key :
  brushParam (str "brush: constructor; gutter: false") = Some (str "constructor") /\
  ownProperty aliases (asciiLower (str "constructor")) = None /\
  detectCodeLanguage asciiLower preConstructor plainPanel
    = LangObject (str "constructor") /\
  detectCodeLanguage asciiLower preConstructor plainPanel
    <> LangText (asciiLower (str "constructor")).
Proof. split_and!; [vm_compute; reflexivity..|]. vm_compute. discriminate. Qed.

End LanguageClaim.

(** ** Extraction *)

Section Extraction.
Import Sectioning Extract NormalizeExample.

Lemma firstWhere_Some (doc : document) (test : element -> bool)
    (sels : list jsstring) (el : element) :
  firstWhere doc test sels = Some el <->
  exists pre sel post,
    sels = pre ++ sel :: post /\ doc sel = Some el /\ test el = true /\
    Forall (fun s => forall e, doc s = Some e -> test e = false) pre.
Proof.
  split.
  - induction sels as [|s sels IH]; [done|]. simpl. intros H.
    destruct (doc s) as [e|] eqn:Es.
    + destruct (test e) eqn:Et.
      * injection H as ->. exists [], s, sels. by split_and!.
      * destruct (IH H) as (pre & sel & post & -> & Hd & Ht & Hpre).
        exists (s :: pre), sel, post. split_and!; try done.
        constructor; [|done]. intros e' He'. congruence.
    + destruct (IH H) as (pre & sel & post & -> & Hd & Ht & Hpre).
      exists (s :: pre), sel, post. split_and!; try done.
      constructor; [|done]. intros e' He'. congruence.
  - intros (pre & sel & post & -> & Hd & Ht & Hpre).
    induction Hpre as [|s pre Hs _ IH]; simpl.
    + by rewrite Hd, Ht.
    + destruct (doc s) as [e|] eqn:Es; [|done]. by rewrite (Hs e eq_refl).
Qed.

Lemma firstWhere_None (doc : document) (test : element -> bool)
    (sels : list jsstring) :
  firstWhere doc test sels = None <->
  Forall (fun s => forall e, doc s = Some e -> test e = false) sels.
Proof.
  induction sels as [|s sels IH]; simpl.
  - split; [constructor|done].
  - destruct (doc s) as [e|] eqn:Es.
    + destruct (test e) eqn:Et.
      * split; [done|]. intros H. apply List.Forall_cons_iff in H as [H _].
        specialize (H e Es). congruence.
      * rewrite IH. split.
        -- intros H. constructor; [|done]. intros e' He'. congruence.
        -- by intros [_ H]%List.Forall_cons_iff.
    + rewrite IH. split.
      * intros H. constructor; [|done]. intros e' He'. congruence.
      * by intros [_ H]%List.Forall_cons_iff.
Qed.

Variable removeProperty : jsstring -> jsstring -> jsstring.
Variable reparse : list node -> list node.
Variable domMessage : domError -> jsstring.

(** The content root: the first candidate, in the order of the selectors,
    whose trimmed serialization is longer than 100; failing that the first
    one whose trimmed serialization is not empty; failing that none, and
    then the extraction fails with its message.  The only other failure is
    an exception raised by a pass. *)
Lemma findContentElement_spec (doc : document) :
  (forall el,
     firstWhere doc (fun el => (100 <? contentLength el)%nat) selectors = Some el ->
     findContentElement doc = Some el) /\
  (firstWhere doc (fun el => (100 <? contentLength el)%nat) selectors = None ->
   findContentElement doc
   = firstWhere doc (fun el => (0 <? contentLength el)%nat) selectors) /\
  (Forall (fun s => forall e, doc s = Some e -> contentLength e = 0%nat) selectors ->
   findContentElement doc = None /\
   extractPage removeProperty reparse domMessage doc = Failure extractionMessage) /\
  (forall msg, extractPage removeProperty reparse domMessage doc = Failure msg ->
     (findContentElement doc = None /\ msg = extractionMessage) \/
     (exists el e, findContentElement doc = Some el /\
                   normalizeTables removeProperty reparse (tables el) = Throws e /\
                   msg = domMessage e)).
Proof.
  unfold findContentElement, extractPage. split_and!.
  - by intros el ->.
  - by intros ->.
  - intros H.
    assert (H100 : firstWhere doc (fun el => (100 <? contentLength el)%nat) selectors = None).
    { apply firstWhere_None. eapply List.Forall_impl; [|exact H].
      intros s Hs e He. cbv beta. rewrite (Hs e He). done. }
    assert (H0 : firstWhere doc (fun el => (0 <? contentLength el)%nat) selectors = None).
    { apply firstWhere_None. eapply List.Forall_impl; [|exact H].
      intros s Hs e He. cbv beta. rewrite (Hs e He). done. }
    unfold findContentElement. by rewrite H100, H0.
  - intros msg. fold (findContentElement doc).
    destruct (findContentElement doc) as [el|].
    + destruct (normalizeTables removeProperty reparse (tables el)) as [ts|e|] eqn:E.
      * intros Hm. discriminate Hm.
      * intros [= <-]. right. by exists el, e.
      * intros Hm. discriminate Hm.
    + intros [= <-]. by left.
Qed.

(** C7 at a page whose content root holds a table with a header section
    nested in its header cell.  The content root is found, and yet the
    response is a failure: [ensureThead] asks the nested header section to
    adopt the row that contains it, the DOM raises, and nothing between
    there and the listener handles the exception. *)
Theorem C7_normalization_aborts :
  findContentElement pageWithNestedHeader
    = Some (mkElement (replicate 200 120%N) tablesWithNestedHeader) /\
  ensureThead nestedHeaderSection = Throws HierarchyRequestError /\
  extractPage removeProperty reparse domMessage pageWithNestedHeader
    = Failure (domMessage HierarchyRequestError).
Proof. split_and!; vm_compute; reflexivity. Qed.

End Extraction.

(** ** Image embedding *)

Section Embedding.
Import Embed.

Lemma batches_concat (fuel : nat) (images : list image) :
  (length images <= fuel)%nat -> concat (batches fuel images) = images.
Proof.
  revert images. induction fuel as [|f IH]; intros images Hlen.
  - destruct images; [done|simpl in Hlen; lia].
  - destruct images as [|i images]; [done|].
    change (batches (S f) (i :: images))
      with (take 4 (i :: images) :: batches f (drop 4 (i :: images))).
    change (concat (?x :: ?l)) with (x ++ concat l).
    rewrite IH; [apply take_drop|].
    rewrite length_drop. simpl in *. lia.
Qed.

(** Every image is handled once, in document order. *)
Lemma embedImagesAsBase64_map (w : world) (images : list image) :
  embedImagesAsBase64 w images = fetchAndEmbedImage w <$> images.
Proof.
  unfold embedImagesAsBase64.
  rewrite <- (batches_concat (length images) images) at 3 by done.
  generalize (batches (length images) images). intros bs.
  induction bs as [|b bs IH]; [done|].
  rewrite fmap_cons. simpl. by rewrite fmap_app, IH.
Qed.

(** C8. When the fetch fails (no response, a response that is not [ok],
    a body that is no image, or a body that cannot be read) and the canvas
    fails too, [fetchImageAsDataUri] rejects, [fetchAndEmbedImage] still
    resolves and leaves the image as it was: its [src] is the one it had
    and the image is not embedded.  The list of settled promises has the
    image, unchanged and resolved, at its place. *)
Theorem C8_both_strategies_fail (w : world) (img : image) (before after : list image) :
  embedded img = false ->
  viaFetch w (srcOf img) = Rejected ->
  viaCanvas w (srcOf img) = Rejected ->
  fetchImageAsDataUri w (srcOf img) = Rejected /\
  (exists img', fetchAndEmbedImage w img = Resolved img' /\
                img' = img /\ srcOf img' = srcOf img /\ embedded img' = false) /\
  embedImagesAsBase64 w (before ++ img :: after) !! length before
    = Some (Resolved img) /\
  length (embedImagesAsBase64 w (before ++ img :: after))
    = length (before ++ img :: after).
Proof.
  intros Hemb Hf Hc.
  assert (Hone : fetchAndEmbedImage w img = Resolved img).
  { unfold fetchAndEmbedImage, fetchImageAsDataUri. unfold embedded in Hemb.
    rewrite Hemb, Hf, Hc. by destruct (_ || _). }
  split_and!.
  - unfold fetchImageAsDataUri. by rewrite Hf, Hc.
  - by exists img.
  - rewrite embedImagesAsBase64_map, list_lookup_fmap, list_lookup_middle by done.
    simpl. by rewrite Hone.
  - by rewrite embedImagesAsBase64_map, length_fmap.
Qed.

(** C8 for a linked image when nothing can be loaded. *)
Lemma C8_both_strategies_fail_witness :
  fetchAndEmbedImage offline linkedImage = Resolved linkedImage /\
  embedImagesAsBase64 offline [linkedImage] !! 0%nat = Some (Resolved linkedImage).
Proof.
  destruct (C8_both_strategies_fail offline linkedImage [] []
              eq_refl eq_refl eq_refl) as (_ & (img' & H1 & -> & _) & H2 & _).
  split; [exact H1|exact H2].
Defined.

End Embedding.

(** ** The live document is not written to *)

Section Frame.
Import Heap.

Variable n0 : nat.
Variable s0 : store.

Lemma keeps_write (s : store) (id : nat) (h : hnode) :
  keeps n0 s0 s -> (n0 <= id)%nat -> Forall (fun k => (n0 <= k)%nat) (hKids h) ->
  keeps n0 s0 (write id h s).
Proof.
  intros [Hsame [Hn Hclosed]] Hid Hkids. split; [|split].
  - intros i Hi. unfold write. simpl.
    rewrite lookup_insert_ne by lia. by apply Hsame.
  - done.
  - intros i h' Hi. unfold write. simpl.
    destruct (decide (id = i)) as [->|Hne].
    + rewrite lookup_insert_eq. by intros [= <-].
    + rewrite lookup_insert_ne by done. by apply Hclosed.
Qed.

Lemma keeps_alloc (s : store) (h : hnode) :
  keeps n0 s0 s -> Forall (fun k => (n0 <= k)%nat) (hKids h) ->
  keeps n0 s0 (alloc h s).2 /\ (n0 <= (alloc h s).1)%nat.
Proof.
  intros [Hsame [Hn Hclosed]] Hkids. unfold alloc. simpl. split; [|done].
  split; [|split].
  - intros i Hi. simpl. rewrite lookup_insert_ne by lia. by apply Hsame.
  - simpl. lia.
  - intros i h' Hi. simpl.
    destruct (decide (next s = i)) as [<-|Hne].
    + rewrite lookup_insert_eq. by intros [= <-].
    + rewrite lookup_insert_ne by done. by apply Hclosed.
Qed.

Lemma keeps_allocForest_with (l : list node) (s : store) :
  Forall (fun t => forall s, keeps n0 s0 s ->
            keeps n0 s0 (allocTree t s).2 /\ (n0 <= (allocTree t s).1)%nat) l ->
  keeps n0 s0 s ->
  keeps n0 s0 (allocForest l s).2 /\
  Forall (fun k => (n0 <= k)%nat) (allocForest l s).1.
Proof.
  intros Hl. revert s. induction Hl as [|t l Ht _ IH]; intros s Hs; [by split|].
  simpl. destruct (Ht s Hs) as [Hs1 Hr].
  destruct (allocTree t s) as [i s1]. simpl in *.
  destruct (IH s1 Hs1) as [Hs2 Hids].
  destruct (allocForest l s1) as [js s2]. simpl in *.
  split; [done|]. by constructor.
Qed.

Lemma allocTree_Elem (tag : jsstring) (a : attrs) (kids : list node) (s : store) :
  allocTree (Elem tag a kids) s =
  alloc (mkH (LElem tag a) (allocForest kids s).1) (allocForest kids s).2.
Proof.
  simpl.
  assert (H : forall s,
    (fix go (l : list node) (s : store) : list nat * store :=
       match l with
       | [] => ([], s)
       | k :: r =>
           let '(i, s') := allocTree k s in
           let '(js, s'') := go r s' in (i :: js, s'')
       end) kids s = allocForest kids s).
  { induction kids as [|k kids IH]; intros s'; [done|].
    simpl. destruct (allocTree k s'). by rewrite IH. }
  rewrite H. by destruct (allocForest kids s).
Qed.

(** Making a tree touches no node made before [n0]. *)
Lemma keeps_allocTree (t : node) (s : store) :
  keeps n0 s0 s -> keeps n0 s0 (allocTree t s).2 /\ (n0 <= (allocTree t s).1)%nat.
Proof.
  revert s. induction t as [c|tag a kids IH] using node_rect_nested; intros s Hs.
  - simpl. by apply keeps_alloc.
  - rewrite allocTree_Elem.
    destruct (keeps_allocForest_with kids s IH Hs) as [Hs1 Hids].
    by apply keeps_alloc.
Qed.

Lemma keeps_allocForest (l : list node) (s : store) :
  keeps n0 s0 s ->
  keeps n0 s0 (allocForest l s).2 /\
  Forall (fun k => (n0 <= k)%nat) (allocForest l s).1.
Proof.
  apply keeps_allocForest_with. apply List.Forall_forall.
  intros t _ s'. apply keeps_allocTree.
Qed.

Lemma keeps_modify (s : store) (par : nat) (g : hnode -> hnode) :
  keeps n0 s0 s -> (n0 <= par)%nat ->
  (forall h, Forall (fun k => (n0 <= k)%nat) (hKids h) ->
             Forall (fun k => (n0 <= k)%nat) (hKids (g h))) ->
  keeps n0 s0 (modify par g s).
Proof.
  intros Hs Hpar Hg. unfold modify.
  destruct (cells s !! par) as [h|] eqn:E; [|done].
  apply keeps_write; [done..|]. apply Hg.
  destruct Hs as [_ [_ Hclosed]]. by eapply Hclosed.
Qed.

(** Whatever is reached from a node made from [n0] on was made from [n0]
    on. *)
Lemma below_owned (fuel : nat) (s : store) (id : nat) :
  closedFrom n0 s -> (n0 <= id)%nat ->
  Forall (fun t => (n0 <= t.1)%nat /\ (n0 <= t.2)%nat) (below fuel s id).
Proof.
  intros [Hn Hclosed]. revert id. induction fuel as [|f IH]; intros id Hid; [constructor|].
  simpl. destruct (cells s !! id) as [h|] eqn:E; [|constructor].
  pose proof (Hclosed id h Hid E) as Hkids.
  induction Hkids as [|k ks Hk _ IHk]; [constructor|].
  simpl. constructor; [done|].
  apply Forall_app. split; [by apply IH|done].
Qed.

Lemma keeps_applyEdit (fuel : nat) (e : edit) (s : store) (target : nat * nat) :
  keeps n0 s0 s -> (n0 <= target.1)%nat -> (n0 <= target.2)%nat ->
  keeps n0 s0 (applyEdit fuel e s target).
Proof.
  destruct target as [par el]. simpl. intros Hs Hpar Hel.
  destruct e as [|build|f]; simpl.
  - apply keeps_modify; [done..|].
    intros h Hh. unfold dropKid. simpl.
    apply List.Forall_forall. intros k Hk%list_elem_of_In%list_elem_of_filter.
    destruct Hk as [_ Hk]. rewrite List.Forall_forall in Hh.
    by apply Hh, list_elem_of_In.
  - destruct (build (readTree fuel s el)) as [t|]; [|done].
    destruct (keeps_allocTree t s Hs) as [Hs1 Hnew].
    destruct (allocTree t s) as [new s1]. simpl in *.
    apply keeps_modify; [done..|].
    intros h Hh. unfold swapKid. simpl.
    induction Hh as [|k ks Hk _ IH]; [constructor|].
    rewrite fmap_cons. constructor; [|done]. by destruct (decide (k = el)).
  - destruct (f (readTree fuel s el)) as [c|tag a kids].
    + apply keeps_write; [done..|]. constructor.
    + destruct (keeps_allocForest kids s Hs) as [Hs1 Hids].
      destruct (allocForest kids s) as [ids s1]. simpl in *.
      by apply keeps_write.
Qed.

Lemma keeps_runPass (fuel : nat) (container : nat) (s : store) (p : pass) :
  keeps n0 s0 s -> (n0 <= container)%nat -> keeps n0 s0 (runPass fuel container s p).
Proof.
  intros Hs Hc. unfold runPass.
  assert (Hown : Forall (fun t => (n0 <= t.1)%nat /\ (n0 <= t.2)%nat)
                   (base.filter (fun t => selected p s t.2 = true)
                      (below fuel s container))).
  { apply List.Forall_forall. intros t Ht%list_elem_of_In%list_elem_of_filter.
    destruct Ht as [_ Ht].
    pose proof (below_owned fuel s container (proj2 Hs) Hc) as Hb.
    rewrite List.Forall_forall in Hb. by apply Hb, list_elem_of_In. }
  revert Hown Hs.
  generalize (base.filter (fun t => selected p s t.2 = true) (below fuel s container)).
  intros targets Hown. clear Hc. revert s.
  induction Hown as [|t ts [Ht1 Ht2] _ IH]; intros s' Hs'; [done|].
  simpl. apply IH. by apply keeps_applyEdit.
Qed.

End Frame.

Section FrameClaim.
Import Heap.

Lemma keeps_initial (s : store) : wellFormed s -> keeps (next s) s s.
Proof.
  intros Hwf. split; [done|]. split; [done|].
  intros id h Hid Hh. destruct (Hwf id h Hh) as [Hlt _]. lia.
Qed.

(** A tree of the live page reads the same when the nodes made before [n0]
    are unchanged. *)
Lemma readTree_sameBelow (s s' : store) (fuel : nat) (id : nat) :
  wellFormed s -> sameBelow (next s) s s' -> (id < next s)%nat ->
  readTree fuel s' id = readTree fuel s id.
Proof.
  intros Hwf Hsame. revert id. induction fuel as [|f IH]; intros id Hid; [done|].
  simpl. rewrite (Hsame id Hid).
  destruct (cells s !! id) as [h|] eqn:E; [|done].
  destruct (hLabel h); [done|]. f_equal.
  destruct (Hwf id h E) as [_ Hkids].
  induction Hkids as [|k ks Hk _ IHk]; [done|].
  simpl. by rewrite IH, IHk.
Qed.

(** The run of [extractPage] keeps the invariant from the first new node
    on, and the clone is a new node. *)
Lemma extractPage_keeps (fuel : nat) (passes : list pass)
    (contentEl : nat) (s : store) :
  wellFormed s ->
  keeps (next s) s (extractPage fuel passes contentEl s).2 /\
  (next s <= (extractPage fuel passes contentEl s).1)%nat.
Proof.
  intros Hwf. unfold extractPage, cloneNode.
  destruct (keeps_allocTree (next s) s (readTree fuel s contentEl) s
              (keeps_initial s Hwf)) as [Hs1 Hclone].
  destruct (allocTree (readTree fuel s contentEl) s) as [clone s1]. simpl in *.
  split; [|done].
  revert s1 Hs1. induction passes as [|p ps IH]; intros s1 Hs1; [done|].
  simpl. apply IH. by apply keeps_runPass.
Qed.

(** C9. Whatever the passes select and whatever they put in its place,
    [extractPage] hands them a clone made of new nodes, and the nodes of
    the page are after the run what they were before it: every node made
    before the call is unchanged, and every tree of the page reads the
    same. *)
Theorem C9_original_untouched (fuel : nat) (passes : list pass)
    (contentEl : nat) (s : store) :
  wellFormed s ->
  let clone := (extractPage fuel passes contentEl s).1 in
  let s' := (extractPage fuel passes contentEl s).2 in
  (next s <= clone)%nat /\
  (forall id, (id < next s)%nat -> cells s' !! id = cells s !! id) /\
  (forall depth id, (id < next s)%nat -> readTree depth s' id = readTree depth s id).
Proof.
  intros Hwf clone s'. subst clone s'.
  destruct (extractPage_keeps fuel passes contentEl s Hwf) as [Hfinal Hclone].
  split_and!.
  - done.
  - apply Hfinal.
  - intros depth id Hid. apply readTree_sameBelow; [done| |done]. apply Hfinal.
Qed.

(** The passes of [preprocessContent], with the embedding of the images
    after them, are such a list. *)
Lemma preprocessContent_original_untouched replacement rewriting
    (fuel : nat) (embed : bool) (contentEl : nat) (s : store) :
  wellFormed s ->
  let passes := preprocessContent replacement rewriting
                ++ (if embed then embedImages rewriting else []) in
  forall depth id, (id < next s)%nat ->
    readTree depth (extractPage fuel passes contentEl s).2 id = readTree depth s id.
Proof.
  intros Hwf passes depth id Hid.
  apply readTree_sameBelow; [done| |done].
  apply (extractPage_keeps fuel passes contentEl s Hwf).
Qed.

(** C9 on a page of three nodes whose emoticon a pass replaces: the page
    still reads [<div><img class="emoticon">x</div>], and the clone reads
    [<div>:)x</div>]. *)
Lemma C9_original_untouched_witness :
  let run := extractPage 5 [emoticonPass] 2 smallPage in
  readTree 5 run.2 2 = readTree 5 smallPage 2 /\
  readTree 5 run.2 run.1 =
    Elem (str "div") [] [Text (str ":)"); Text (str "x")].
Proof.
  assert (Hwf : wellFormed smallPage).
  { intros id h Hh. unfold smallPage in Hh. simpl in Hh.
    repeat (apply lookup_insert_Some in Hh as [[<- <-]|[_ Hh]];
            [split; [simpl; lia|repeat constructor; simpl; lia]|]).
    by rewrite lookup_empty in Hh. }
  destruct (C9_original_untouched 5 [emoticonPass] 2 smallPage Hwf) as (_ & _ & H).
  split; [apply H; simpl; lia|].
  vm_compute. reflexivity.
Defined.

End FrameClaim.

(** ** Tables in normal form *)

Section AbsentAttributes.

Lemma removeAttribute_absent (name : jsstring) (a : attrs) :
  getAttribute name a = None -> removeAttribute name a = a.
Proof.
  induction a as [|[k v] a IH]; [done|].
  simpl. destruct (Js.eqb k name); [done|]. intros H. by rewrite IH.
Qed.

Lemma hasAttribute_false (name : jsstring) (a : attrs) :
  hasAttribute name a = false -> getAttribute name a = None.
Proof. unfold hasAttribute. by destruct (getAttribute name a). Qed.

End AbsentAttributes.

Section CleanFixpoint.
Import Sectioning Clean NormalForm.

Variable removeProperty : jsstring -> jsstring -> jsstring.

Lemma collapse_collapsed (b : bool) (s : jsstring) :
  collapsed b s = true -> collapse b s = s.
Proof.
  revert b. induction s as [|c s IH]; intros b H; [done|].
  simpl in *. destruct (isSpace c).
  - apply andb_true_iff in H as [H Hs]. apply andb_true_iff in H as [Hb Hc].
    apply negb_true_iff in Hb. subst b. apply N.eqb_eq in Hc. subst c.
    by rewrite IH.
  - by rewrite IH.
Qed.

Lemma collapseText_same (kids : list node) :
  forallb textCollapsed kids = true -> collapseText <$> kids = kids.
Proof.
  induction kids as [|k kids IH]; [done|].
  intros H. simpl in H. apply andb_true_iff in H as [Hk Hkids].
  rewrite fmap_cons, IH by done. f_equal.
  destruct k as [s|]; [|done]. simpl in *. by rewrite collapse_collapsed.
Qed.

Lemma setAttribute_same (name v : jsstring) (a : attrs) :
  getAttribute name a = Some v -> setAttribute name v a = a.
Proof.
  induction a as [|[k x] a IH]; [done|].
  simpl. destruct (Js.eqb k name); [by intros [= ->]|].
  intros H. by rewrite IH.
Qed.

Lemma stripSizing_same (a : attrs) :
  sizingFree removeProperty a = true -> stripSizing removeProperty a = a.
Proof.
  unfold sizingFree, stripSizing.
  rewrite !andb_true_iff, !negb_true_iff.
  intros [[Hw%hasAttribute_false Hh%hasAttribute_false] Hs].
  rewrite (removeAttribute_absent _ _ Hw), (removeAttribute_absent _ _ Hh).
  destruct (getAttribute (str "style") a) as [v|] eqn:E; [|done].
  unfold Js.eqb in Hs. apply bool_decide_eq_true in Hs. rewrite Hs.
  by apply setAttribute_same.
Qed.

Lemma cleanInside_same (n : node) :
  blockFree removeProperty n = true -> cleanInside removeProperty n = n.
Proof.
  induction n as [s|t a kids IH] using node_rect_nested; [done|].
  intros H. simpl in H.
  apply andb_true_iff in H as [H Hcell]. apply andb_true_iff in H as [Hblock Hkids].
  assert (Hsame :
    concat (map (fun k =>
                   match k with
                   | Text _ => [k]
                   | Elem kt _ _ =>
                       if isBlock kt
                       then kidsOf (cleanInside removeProperty k) ++ [br]
                       else [cleanInside removeProperty k]
                   end) kids) = kids).
  { clear Hcell Hblock. induction IH as [|k kids Hk _ IHk]; [done|].
    simpl in Hkids. apply andb_true_iff in Hkids as [Hk1 Hk2].
    simpl. rewrite IHk by done.
    destruct k as [s|kt ka kk]; [done|].
    rewrite (Hk Hk1). simpl in Hk1.
    apply andb_true_iff in Hk1 as [Hk1 _]. apply andb_true_iff in Hk1 as [Hk1 _].
    apply negb_true_iff in Hk1. by rewrite Hk1. }
  simpl. rewrite Hsame.
  destruct (isCellTag t); [|done].
  apply andb_true_iff in Hcell as [Hsz Htxt].
  by rewrite stripSizing_same, collapseText_same.
Qed.

Lemma unwrapNode_same (left right : nat) (n : node) :
  blockFree removeProperty n = true -> unwrapNode removeProperty left n right = [n].
Proof.
  intros H. destruct n as [s|t a kids]; [done|].
  pose proof (cleanInside_same _ H) as Hin.
  simpl in H. apply andb_true_iff in H as [H _]. apply andb_true_iff in H as [Hb _].
  apply negb_true_iff in Hb.
  cbn [unwrapNode]. rewrite Hb. by rewrite Hin.
Qed.

Lemma unwrapList_same (left right : nat) (kids : list node) :
  forallb (blockFree removeProperty) kids = true ->
  unwrapList removeProperty left kids right = kids.
Proof.
  revert left. induction kids as [|k kids IH]; intros left H; [done|].
  simpl in H. apply andb_true_iff in H as [Hk Hkids].
  cbn [unwrapList]. rewrite unwrapNode_same by done.
  cbv zeta. rewrite IH by done. done.
Qed.

Lemma cleanCell_same (c : cell) :
  linearCell removeProperty c = true -> cleanCell removeProperty c = c.
Proof.
  unfold linearCell, cleanCell. rewrite !andb_true_iff. intros [[Hs Hb] Ht].
  rewrite stripSizing_same, unwrapList_same, collapseText_same by done.
  by destruct c.
Qed.

Lemma cleanOutside_same (n : node) :
  linearOutside removeProperty n = true -> cleanOutside removeProperty n = n.
Proof.
  induction n as [s|t a kids IH] using node_rect_nested; [done|].
  intros H. simpl in *. destruct (isCellTag t).
  - apply andb_true_iff in H as [H Ht]. apply andb_true_iff in H as [Hs Hb].
    by rewrite stripSizing_same, unwrapList_same, collapseText_same.
  - f_equal. induction IH as [|k kids Hk _ IHk]; [done|].
    simpl in H. apply andb_true_iff in H as [H1 H2].
    simpl. by rewrite (Hk H1), IHk.
Qed.

Lemma cleanRow_same (r : row) :
  forallb (linearCell removeProperty) (rowCells r) = true ->
  cleanRow removeProperty r = r.
Proof.
  unfold cleanRow. destruct r as [a cs]. simpl. intros Hr. f_equal.
  induction cs as [|c cs IHc]; [done|].
  simpl in Hr. apply andb_true_iff in Hr as [Hc Hcs].
  by rewrite fmap_cons, cleanCell_same, IHc.
Qed.

Lemma cleanRows_same (rs : list row) :
  forallb (fun r => forallb (linearCell removeProperty) (rowCells r)) rs = true ->
  cleanRow removeProperty <$> rs = rs.
Proof.
  induction rs as [|r rs IH]; [done|].
  intros H. simpl in H. apply andb_true_iff in H as [Hr Hrs].
  by rewrite fmap_cons, IH, cleanRow_same.
Qed.

(** Cell linearization leaves a table of linear cells alone. *)
Lemma cleanCellContent_same (t : table) :
  forallb (linearSection removeProperty) t = true ->
  cleanCellContent removeProperty t = t.
Proof.
  unfold cleanCellContent. induction t as [|s t IH]; [done|].
  intros H. simpl in H. apply andb_true_iff in H as [Hs Ht].
  rewrite fmap_cons, IH by done. f_equal.
  destruct s as [rs|rs|rs|r|n]; simpl in Hs.
  - by rewrite cleanRows_same.
  - by rewrite cleanRows_same.
  - by rewrite cleanRows_same.
  - rewrite andb_true_r in Hs. by rewrite cleanRow_same.
  - by rewrite cleanOutside_same.
Qed.

End CleanFixpoint.

(* ===================================================================== *)
(** * Properties of the popup script *)
(* ===================================================================== *)

(** ** Front matter *)

Section FrontMatter.
Import Render Popup.

Lemma escapeYaml_cons (c : N) (s : jsstring) :
  escapeYaml (c :: s)
  = (if (c =? quote)%N then [backslash; quote]
     else [if (c =? nl)%N then 32%N else c]) ++ escapeYaml s.
Proof.
  unfold escapeYaml. rewrite fmap_cons. simpl concat. rewrite fmap_app.
  f_equal. destruct (c =? quote)%N eqn:E; [reflexivity|].
  reflexivity.
Qed.

Lemma escapeYaml_no_nl (s : jsstring) : nl ∉ escapeYaml s.
Proof.
  unfold escapeYaml. intros Hin. apply list_elem_of_fmap in Hin as (c & Hc & _).
  destruct (c =? nl)%N eqn:E; [discriminate|].
  apply N.eqb_neq in E. congruence.
Qed.

(** X1. The text that [escapeYaml] returns holds no line feed, every double
    quote in it comes right after a backslash, and it is longer than the
    argument by the number of double quotes of the argument. *)
Theorem escapeYaml_safe (s : jsstring) :
  (nl ∉ escapeYaml s)
  /\ (forall i, escapeYaml s !! i = Some quote ->
        exists j, i = S j /\ escapeYaml s !! j = Some backslash)
  /\ length (escapeYaml s)
     = (length s + length (base.filter (fun c => c = quote) s))%nat.
Proof.
  split; [apply escapeYaml_no_nl|]. split.
  - induction s as [|c s IH]; intros i Hi; [by destruct i|].
    rewrite escapeYaml_cons in *.
    destruct (c =? quote)%N eqn:E.
    + destruct i as [|[|k]]; [discriminate | by exists 0%nat |].
      simpl in Hi. destruct (IH k Hi) as (j & -> & Hj).
      exists (S (S j)). by split.
    + destruct i as [|k].
      * simpl in Hi. apply N.eqb_neq in E.
        destruct (c =? nl)%N; [discriminate|]. congruence.
      * simpl in Hi. destruct (IH k Hi) as (j & -> & Hj).
        exists (S j). by split.
  - induction s as [|c s IH]; [done|].
    rewrite escapeYaml_cons, length_app, IH, filter_cons.
    destruct (c =? quote)%N eqn:E.
    + apply N.eqb_eq in E. rewrite decide_True by done. simpl. lia.
    + apply N.eqb_neq in E. rewrite decide_False by done. simpl. lia.
Qed.

Lemma splitLines_app_no_nl (cur x rest : jsstring) :
  nl ∉ x ->
  splitLines cur (x ++ nl :: rest) = (rev cur ++ x) :: splitLines [] rest.
Proof.
  revert cur. induction x as [|c x IH]; intros cur Hx.
  - simpl. by rewrite app_nil_r.
  - simpl. destruct (c =? nl)%N eqn:E.
    + apply N.eqb_eq in E. subst c. exfalso. apply Hx. by left.
    + rewrite IH. * simpl. by rewrite <- app_assoc.
      * intros H. apply Hx. by right.
Qed.

Lemma splitLines_no_nl_line (cur x : jsstring) :
  nl ∉ x -> splitLines cur x = [rev cur ++ x].
Proof.
  revert cur. induction x as [|c x IH]; intros cur Hx.
  - simpl. by rewrite app_nil_r.
  - simpl. destruct (c =? nl)%N eqn:E.
    + apply N.eqb_eq in E. subst c. exfalso. apply Hx. by left.
    + rewrite IH. * simpl. by rewrite <- app_assoc.
      * intros H. apply Hx. by right.
Qed.

(** Joining lines that hold no line feed and splitting the result gives
    the lines back. *)
Lemma splitLines_joinLines (x : jsstring) (ls : list jsstring) :
  Forall (fun l => nl ∉ l) (x :: ls) ->
  splitLines [] (joinLines (x :: ls)) = x :: ls.
Proof.
  revert x. induction ls as [|y ls IH]; intros x Hall.
  - apply List.Forall_cons_iff in Hall as [Hx _].
    simpl. by rewrite splitLines_no_nl_line.
  - apply List.Forall_cons_iff in Hall as [Hx Hrest].
    change (joinLines (x :: y :: ls)) with (x ++ nl :: joinLines (y :: ls)).
    rewrite splitLines_app_no_nl by done. simpl rev. rewrite app_nil_l.
    by rewrite IH.
Qed.

Lemma joinLines_last_nl (pre : list jsstring) (x : jsstring) :
  joinLines (pre ++ [x ++ [nl]]) = joinLines (pre ++ [x; []]).
Proof.
  induction pre as [|a pre IH].
  - reflexivity.
  - destruct pre as [|b pre].
    + reflexivity.
    + change (joinLines ((a :: b :: pre) ++ [x ++ [nl]]))
        with (a ++ nl :: joinLines ((b :: pre) ++ [x ++ [nl]])).
      rewrite IH. reflexivity.
Qed.

Lemma not_elem_of_app_nl (a b : jsstring) : nl ∉ a -> nl ∉ b -> nl ∉ a ++ b.
Proof. intros Ha Hb [H|H]%elem_of_app; tauto. Qed.

Ltac no_nl :=
  repeat apply not_elem_of_app_nl;
  first [assumption | apply escapeYaml_no_nl | (apply (bool_decide_unpack _); vm_compute; exact I)].

Lemma field_no_nl (key : jsstring) (v : option jsstring) :
  nl ∉ key -> Forall (fun l => nl ∉ l) (field key v).
Proof.
  intros Hkey. destruct v as [[|c r]|]; cbn [field]; try by constructor.
  constructor; [|constructor]. no_nl.
Qed.

Lemma labelLines_no_nl (ls : option (list jsstring)) :
  Forall (fun l => nl ∉ l) (labelLines ls).
Proof.
  destruct ls as [[|l r]|]; cbn [labelLines]; try by constructor.
  constructor; [(apply (bool_decide_unpack _); vm_compute; exact I)|].
  change (Forall (fun l => nl ∉ l)
            ((fun label => str "  - " ++ [quote] ++ escapeYaml label ++ [quote]) <$> (l :: r))).
  apply Forall_fmap, Forall_true. intros x. cbv beta. no_nl.
Qed.

(** X2. Every value of the front matter stands on a line of its own: if the
    time stamp holds no line feed, splitting the text that
    [buildFrontMatter] returns at the line feeds gives the opening fence,
    one line for each property that is set and not empty, the line
    [labels:] and one line for each label when there are labels, the line
    of the time stamp, the closing fence and an empty last line. *)
Theorem buildFrontMatter_lines (now title : jsstring) (m : metadata) :
  nl ∉ now ->
  splitLines [] (buildFrontMatter now title m)
  = [str "---"]
    ++ field (str "title") (Some title)
    ++ field (str "space") (space m)
    ++ field (str "author") (author m)
    ++ field (str "last_modified") (lastModified m)
    ++ field (str "source_url") (Some (sourceUrl m))
    ++ labelLines (labels m)
    ++ [str "converted_at: " ++ [quote] ++ now ++ [quote]; str "---"; []].
Proof.
  intros Hnow. unfold buildFrontMatter, frontMatterLines.
  set (body := field (str "title") (Some title) ++ field (str "space") (space m)
               ++ field (str "author") (author m)
               ++ field (str "last_modified") (lastModified m)
               ++ field (str "source_url") (Some (sourceUrl m))
               ++ labelLines (labels m)).
  set (stamp := str "converted_at: " ++ [quote] ++ now ++ [quote]).
  assert (Hbody : Forall (fun l => nl ∉ l) body).
  { unfold body. repeat apply Forall_app_2;
      first [apply field_no_nl; (apply (bool_decide_unpack _); vm_compute; exact I) | apply labelLines_no_nl]. }
  assert (Hstamp : nl ∉ stamp).
  { unfold stamp. no_nl. }
  replace ([str "---"] ++ field (str "title") (Some title) ++ field (str "space") (space m)
           ++ field (str "author") (author m)
           ++ field (str "last_modified") (lastModified m)
           ++ field (str "source_url") (Some (sourceUrl m))
           ++ labelLines (labels m) ++ [stamp; str "---" ++ [nl]])
    with (([str "---"] ++ body ++ [stamp]) ++ [str "---" ++ [nl]])
    by (unfold body; rewrite <- !app_assoc; reflexivity).
  rewrite joinLines_last_nl.
  replace ([str "---"] ++ field (str "title") (Some title) ++ field (str "space") (space m)
           ++ field (str "author") (author m)
           ++ field (str "last_modified") (lastModified m)
           ++ field (str "source_url") (Some (sourceUrl m))
           ++ labelLines (labels m) ++ [stamp; str "---"; []])
    with (([str "---"] ++ body ++ [stamp]) ++ [str "---"; []])
    by (unfold body; rewrite <- !app_assoc; reflexivity).
  change (([str "---"] ++ body ++ [stamp]) ++ [str "---"; []])
    with (str "---" :: ((body ++ [stamp]) ++ [str "---"; []])).
  apply splitLines_joinLines.
  constructor; [(apply (bool_decide_unpack _); vm_compute; exact I)|].
  apply Forall_app_2; [apply Forall_app_2; [done|by constructor]|].
  constructor; [(apply (bool_decide_unpack _); vm_compute; exact I)|].
  constructor; [|constructor]. apply not_elem_of_nil.
Qed.

Lemma buildFrontMatter_lines_witness :
  splitLines [] (buildFrontMatter (str "2026-02-13T10:00:00.000Z")
                   (str "Release notes")
                   (mkMetadata (str "https://wiki.example/x") (Some (str "DOC")) None None
                      (Some [str "a"; str "b"])))
  = [str "---";
     str "title: " ++ [quote] ++ str "Release notes" ++ [quote];
     str "space: " ++ [quote] ++ str "DOC" ++ [quote];
     str "source_url: " ++ [quote] ++ str "https://wiki.example/x" ++ [quote];
     str "labels:";
     str "  - " ++ [quote] ++ str "a" ++ [quote];
     str "  - " ++ [quote] ++ str "b" ++ [quote];
     str "converted_at: " ++ [quote] ++ str "2026-02-13T10:00:00.000Z" ++ [quote];
     str "---"; []].
Proof.
  apply (buildFrontMatter_lines (str "2026-02-13T10:00:00.000Z") (str "Release notes")
           (mkMetadata (str "https://wiki.example/x") (Some (str "DOC")) None None
              (Some [str "a"; str "b"]))).
  (apply (bool_decide_unpack _); vm_compute; exact I).
Defined.

End FrontMatter.

(** ** File names *)

Section FileNames.
Import Popup PopupSpec.

Lemma replaceInvalid_valid (s : jsstring) :
  Forall (fun c => invalidChar c = false) (replaceInvalid s).
Proof.
  unfold replaceInvalid. apply Forall_fmap, Forall_true. intros c. simpl.
  by destruct (invalidChar c) eqn:E.
Qed.

Lemma runsToHyphen_Forall (P : N -> Prop) (p : N -> bool) (b : bool) (s : jsstring) :
  P hyphen -> Forall P s -> Forall P (runsToHyphen p b s).
Proof.
  intros Hh Hs. revert b. induction Hs as [|c s Hc Hs IH]; intros b; [constructor|].
  simpl. destruct (p c); [destruct b|]; auto.
Qed.

Lemma runsToHyphen_none (p : N -> bool) (b : bool) (s : jsstring) :
  p hyphen = false -> Forall (fun c => p c = false) (runsToHyphen p b s).
Proof.
  intros Hh. revert b. induction s as [|c s IH]; intros b; [constructor|].
  simpl. destruct (p c) eqn:E; [destruct b|]; auto.
Qed.

Lemma runsToHyphen_noHyphenRun (b : bool) (s : jsstring) :
  noHyphenRun (runsToHyphen isHyphen b s) = true
  /\ (b = true -> head (runsToHyphen isHyphen b s) <> Some hyphen).
Proof.
  revert b. induction s as [|c s IH]; intros b; [done|].
  simpl. destruct (isHyphen c) eqn:E.
  - destruct b.
    + apply IH.
    + destruct (IH true) as [Hrun Hhead]. split; [|done].
      simpl. rewrite Hrun, andb_true_r.
      destruct (runsToHyphen isHyphen true s) as [|d r] eqn:Er; [done|].
      assert (d <> hyphen) as Hd by (intros ->; by apply Hhead).
      apply N.eqb_neq in Hd. unfold isHyphen. by rewrite Hd.
  - destruct (IH false) as [Hrun _]. split.
    + simpl. rewrite Hrun, andb_true_r.
      destruct (runsToHyphen isHyphen false s); [done|]. by rewrite E.
    + intros _. simpl. intros [= ->]. discriminate.
Qed.

Lemma noHyphenRun_app_l (a b : jsstring) :
  noHyphenRun (a ++ b) = true -> noHyphenRun a = true.
Proof.
  induction a as [|x a IH]; [done|].
  simpl. intros [H1 H2]%andb_true_iff. rewrite IH, andb_true_r by done.
  destruct a as [|y a]; [done|]. exact H1.
Qed.

Lemma noHyphenRun_tail (x : N) (a : jsstring) :
  noHyphenRun (x :: a) = true -> noHyphenRun a = true.
Proof. simpl. by intros [_ H]%andb_true_iff. Qed.

Lemma noHyphenRun_snoc (a : jsstring) (x : N) :
  noHyphenRun (a ++ [x; hyphen]) = true -> x <> hyphen.
Proof.
  induction a as [|y a IH].
  - simpl. rewrite andb_true_r. intros H ->. discriminate.
  - intros H. apply IH. by apply noHyphenRun_tail in H.
Qed.

Lemma dropLastHyphen_prefix (s : jsstring) :
  exists x, s = dropLastHyphen s ++ x.
Proof.
  unfold dropLastHyphen. destruct (rev s) as [|c r] eqn:E.
  - exists []. by rewrite app_nil_r.
  - assert (s = rev r ++ [c]) as Hs.
    { rewrite <- (rev_involutive s), E. reflexivity. }
    destruct (decide (c = 45%N)) as [->|Hc].
    + by exists [45%N].
    + exists []. rewrite app_nil_r.
      destruct c as [|p]; [done|].
      repeat (destruct p as [p|p|]; try done).
Qed.

Lemma dropLastHyphen_last (s : jsstring) :
  noHyphenRun s = true -> list.last (dropLastHyphen s) <> Some hyphen.
Proof.
  intros Hrun. unfold dropLastHyphen. destruct (rev s) as [|c r] eqn:E.
  - assert (s = []) as -> by (rewrite <- (rev_involutive s), E; reflexivity). done.
  - assert (s = rev r ++ [c]) as Hs.
    { rewrite <- (rev_involutive s), E. reflexivity. }
    destruct (decide (c = 45%N)) as [->|Hc].
    + destruct r as [|d r]; [done|].
      simpl rev. rewrite last_snoc. intros [= ->].
      subst s. simpl rev in Hrun. rewrite <- app_assoc in Hrun. simpl in Hrun.
      by apply noHyphenRun_snoc in Hrun.
    + assert (list.last s <> Some hyphen) as Hl.
      { rewrite Hs, last_snoc. intros [= ->]. by apply Hc. }
      destruct c as [|p]; [done|].
      repeat (destruct p as [p|p|]; try done).
Qed.

Lemma dropLastHyphen_head (s : jsstring) :
  head s <> Some hyphen -> head (dropLastHyphen s) <> Some hyphen.
Proof.
  intros Hs. destruct (dropLastHyphen_prefix s) as [x Hx].
  destruct (dropLastHyphen s) as [|c r]; [done|].
  rewrite Hx in Hs. exact Hs.
Qed.

Lemma trimHyphens_facts (s : jsstring) :
  noHyphenRun s = true ->
  (forall P : N -> Prop, Forall P s -> Forall P (trimHyphens s))
  /\ noHyphenRun (trimHyphens s) = true
  /\ head (trimHyphens s) <> Some hyphen
  /\ list.last (trimHyphens s) <> Some hyphen.
Proof.
  intros Hrun.
  assert (exists s', trimHyphens s = dropLastHyphen s'
                     /\ noHyphenRun s' = true
                     /\ head s' <> Some hyphen
                     /\ (forall P : N -> Prop, Forall P s -> Forall P s'))
    as (s' & -> & Hrun' & Hhead & Hall).
  { destruct s as [|c r]; [by exists []|].
    destruct (decide (c = 45%N)) as [->|Hc].
    - exists r. split; [done|]. split; [by apply noHyphenRun_tail in Hrun|].
      split; [|by intros P [_ H]%List.Forall_cons_iff].
      destruct r as [|d r]; [done|]. simpl in Hrun.
      apply andb_true_iff in Hrun as [Hd _]. intros [= ->]. discriminate.
    - exists (c :: r). split; [|split; [done|split; [|done]]].
      + unfold trimHyphens. destruct c as [|p]; [done|].
        repeat (destruct p as [p|p|]; try done).
      + simpl. intros [= ->]. by apply Hc. }
  destruct (dropLastHyphen_prefix s') as [x Hx].
  split_and!.
  - intros P HP. apply Hall in HP. rewrite Hx in HP.
    by apply Forall_app in HP as [HP _].
  - rewrite Hx in Hrun'. by apply noHyphenRun_app_l in Hrun'.
  - by apply dropLastHyphen_head.
  - by apply dropLastHyphen_last.
Qed.

(** X3. The file name is the lower-case form of a text of at most 100 units
    in which no unit is one of the excluded characters or white space, no
    two hyphens are neighbours and the first unit is no hyphen; the last
    unit is no hyphen either unless the text was cut at 100 units. *)
Theorem sanitizeFilename_shape (toLowerCase : jsstring -> jsstring) (name : jsstring) :
  exists s,
    sanitizeFilename toLowerCase name = toLowerCase s
    /\ (length s <= 100)%nat
    /\ Forall (fun c => invalidChar c = false /\ isSpace c = false) s
    /\ noHyphenRun s = true
    /\ head s <> Some hyphen
    /\ ((length s < 100)%nat -> list.last s <> Some hyphen).
Proof.
  unfold sanitizeFilename.
  set (t := runsToHyphen isHyphen false (runsToHyphen isSpace false (replaceInvalid name))).
  assert (Ht : Forall (fun c => invalidChar c = false /\ isSpace c = false) t).
  { unfold t. apply Forall_and. split.
    - apply runsToHyphen_Forall; [done|]. apply runsToHyphen_Forall; [done|].
      apply replaceInvalid_valid.
    - apply runsToHyphen_Forall; [done|]. by apply runsToHyphen_none. }
  assert (Hrun : noHyphenRun t = true) by apply runsToHyphen_noHyphenRun.
  destruct (trimHyphens_facts t Hrun) as (Hall & Hrun' & Hhead & Hlast).
  exists (take 100 (trimHyphens t)). split_and!.
  - reflexivity.
  - rewrite length_take. lia.
  - apply Forall_take, Hall, Ht.
  - rewrite <- (take_drop 100 (trimHyphens t)) in Hrun'.
    by apply noHyphenRun_app_l in Hrun'.
  - destruct (trimHyphens t) as [|c r]; [done|]. exact Hhead.
  - rewrite length_take. intros Hlen.
    rewrite take_ge by lia. exact Hlast.
Qed.

End FileNames.

(** ** Page detection *)

Section Detection.
Import Promote Popup.

Lemma startsWith_length (p s : jsstring) :
  startsWith p s = true -> (length p <= length s)%nat.
Proof.
  revert s. induction p as [|a p IH]; intros s; [simpl; lia|].
  destruct s as [|b s]; [done|]. simpl.
  intros [_ H]%andb_true_iff. apply IH in H. lia.
Qed.

Lemma startsWithCI_app (p s x : jsstring) :
  startsWithCI p s = true -> startsWithCI p (s ++ x) = true.
Proof.
  unfold startsWithCI. intros H.
  assert (length p <= length s)%nat as Hlen.
  { apply startsWith_length in H. rewrite length_fmap, length_take in H. lia. }
  by rewrite take_app_le.
Qed.

Lemma startsWithCI_length (p s : jsstring) :
  startsWithCI p s = true -> (length p <= length s)%nat.
Proof.
  unfold startsWithCI. intros H.
  apply startsWith_length in H. rewrite length_fmap, length_take in H. lia.
Qed.

Lemma suffixExists_app_r (f : jsstring -> bool) (s x : jsstring) :
  (forall a, f a = true -> f (a ++ x) = true) ->
  suffixExists f s = true -> suffixExists f (s ++ x) = true.
Proof.
  intros Hf. induction s as [|c s IH].
  - simpl. rewrite orb_false_r. intros H. apply (Hf []) in H. simpl in H.
    destruct x; simpl; by rewrite H.
  - simpl. intros [H|H]%orb_true_iff.
    + apply Hf in H. simpl in H. by rewrite H.
    + rewrite IH by done. apply orb_true_r.
Qed.

Lemma suffixExists_app_l (f : jsstring -> bool) (pre s : jsstring) :
  suffixExists f s = true -> suffixExists f (pre ++ s) = true.
Proof.
  intros H. induction pre as [|c pre IH]; [done|].
  simpl. rewrite IH. apply orb_true_r.
Qed.

Lemma suffixExists_extend (f : jsstring -> bool) (pre s post : jsstring) :
  (forall a x, f a = true -> f (a ++ x) = true) ->
  suffixExists f s = true -> suffixExists f (pre ++ s ++ post) = true.
Proof.
  intros Hf H. apply suffixExists_app_l, suffixExists_app_r; [|done].
  intros a. apply Hf.
Qed.

Lemma containsCI_extend (lit pre s post : jsstring) :
  containsCI lit s = true -> containsCI lit (pre ++ s ++ post) = true.
Proof.
  apply suffixExists_extend. intros a x. apply startsWithCI_app.
Qed.

Lemma takeWhile_app_prefix (p : N -> bool) (a x : jsstring) :
  exists y, takeWhile p (a ++ x) = takeWhile p a ++ y.
Proof.
  induction a as [|c a [y IH]].
  - by exists (takeWhile p x).
  - simpl. destruct (p c); [|by exists []].
    exists y. by rewrite IH.
Qed.

Lemma dropWhile_app_stop (p : N -> bool) (a x : jsstring) (c : N) (r : jsstring) :
  dropWhile p a = c :: r -> dropWhile p (a ++ x) = c :: r ++ x.
Proof.
  induction a as [|d a IH]; [done|].
  simpl. destruct (p d); [exact IH|].
  intros [= -> ->]. reflexivity.
Qed.

Lemma takeWhile_app_nonempty (p : N -> bool) (a x : jsstring) :
  takeWhile p a <> [] -> takeWhile p (a ++ x) <> [].
Proof.
  destruct a as [|c a]; [done|]. simpl. by destruct (p c).
Qed.

Lemma cloudPagesAt_app (a x : jsstring) :
  cloudPagesAt a = true -> cloudPagesAt (a ++ x) = true.
Proof.
  unfold cloudPagesAt. intros [H1 H2]%andb_true_iff.
  rewrite startsWithCI_app by done. simpl.
  pose proof (startsWithCI_length _ _ H1) as Hlen. simpl in Hlen.
  rewrite drop_app_le by done.
  destruct (takeWhile_app_prefix notLineTerminator (drop 15 a) x) as [y ->].
  apply (containsCI_extend _ [] _ y). exact H2.
Qed.

Lemma displayAt_app (a x : jsstring) :
  displayAt a = true -> displayAt (a ++ x) = true.
Proof.
  unfold displayAt. intros [H1 H2]%andb_true_iff.
  rewrite startsWithCI_app by done. simpl.
  pose proof (startsWithCI_length _ _ H1) as Hlen. simpl in Hlen.
  rewrite drop_app_le by done.
  destruct (dropWhile isAlnum (drop 9 a)) as [|c r] eqn:E; [done|].
  rewrite (dropWhile_app_stop _ _ x _ _ E).
  destruct c as [|q]; [done|].
  repeat (destruct q as [q|q|]; try done).
  apply negb_true_iff, bool_decide_eq_false in H2.
  apply negb_true_iff, bool_decide_eq_false.
  by apply takeWhile_app_nonempty.
Qed.

(** X4. Detection looks for patterns anywhere in the address, so it survives
    any text put before or after: an address recognised as Cloud stays
    Cloud, and a recognised address stays recognised. *)
Theorem detectConfluence_extends (pre url post : jsstring) :
  (detectConfluence url = Some Cloud ->
   detectConfluence (pre ++ url ++ post) = Some Cloud)
  /\ (detectConfluence url <> None ->
      detectConfluence (pre ++ url ++ post) <> None).
Proof.
  assert (Hne : url <> [] -> exists c r, pre ++ url ++ post = c :: r).
  { intros Hurl. destruct (pre ++ url ++ post) as [|c r] eqn:E; [|by eauto].
    apply app_eq_nil in E as [_ E]. by apply app_eq_nil in E as [E _]. }
  unfold detectConfluence.
  destruct url as [|u0 url']; [by split|].
  destruct (Hne ltac:(done)) as (c & r & Hcr). rewrite Hcr, <- Hcr.
  set (url := u0 :: url') in *. clearbody url. clear Hcr Hne.
  pose proof (containsCI_extend (str ".atlassian.net/wiki/") pre url post) as H1.
  pose proof (suffixExists_extend cloudPagesAt pre url post cloudPagesAt_app) as H2.
  pose proof (suffixExists_extend displayAt pre url post displayAt_app) as H3.
  pose proof (containsCI_extend (str "/pages/viewpage.action") pre url post) as H4.
  pose proof (containsCI_extend (str "/confluence/") pre url post) as H5.
  split; intros H.
  - destruct (containsCI (str ".atlassian.net/wiki/") url);
      [by rewrite H1|].
    destruct (suffixExists cloudPagesAt url);
      [rewrite H2 by done; by case_match|].
    repeat case_match; done.
  - destruct (containsCI (str ".atlassian.net/wiki/") url);
      [by rewrite H1|].
    destruct (suffixExists cloudPagesAt url);
      [rewrite H2 by done; by repeat case_match|].
    destruct (suffixExists displayAt url);
      [rewrite H3 by done; by repeat case_match|].
    destruct (containsCI (str "/pages/viewpage.action") url);
      [rewrite H4 by done; by repeat case_match|].
    destruct (containsCI (str "/confluence/") url);
      [rewrite H5 by done; by repeat case_match|].
    done.
Qed.

End Detection.

(* ===================================================================== *)
(** * Properties of the clean-up of the Markdown text *)
(* ===================================================================== *)

Section PostProcessSteps.
Import Render Promote Popup PostProcess.

Lemma takeWhile_dropWhile {A} (p : A -> bool) (l : list A) :
  takeWhile p l ++ dropWhile p l = l.
Proof.
  induction l as [|x l IH]; [done|].
  simpl. destruct (p x); [|done]. simpl. by rewrite IH.
Qed.

Lemma startsWith_split (p s : jsstring) :
  startsWith p s = true -> s = p ++ drop (length p) s.
Proof.
  revert s. induction p as [|a p IH]; intros s; [done|].
  destruct s as [|b s]; [done|]. simpl.
  intros [Hab H]%andb_true_iff. apply N.eqb_eq in Hab. subst b.
  f_equal. by apply IH.
Qed.

Lemma respaceFences_same (fuel : nat) (s : jsstring) :
  respaceFences fuel s = s.
Proof.
  revert s. induction fuel as [|f IH]; intros s; [done|].
  destruct s as [|c r]; [done|].
  cbn [respaceFences].
  destruct (startsWith (str "```") (c :: r)) eqn:E; [|by rewrite IH].
  destruct (dropWhile isWord (drop 3 (c :: r))) as [|d rest] eqn:Ed; [by rewrite IH|].
  destruct (decide (d = 10%N)) as [->|Hd].
  - rewrite IH. apply startsWith_split in E.
    change (length (str "```")) with 3%nat in E.
    change (nl :: rest) with (10%N :: rest).
    rewrite <- Ed, takeWhile_dropWhile. symmetry. exact E.
  - rewrite IH.
    destruct d as [|p]; [done|].
    repeat (destruct p as [p|p|]; try done).
Qed.

(** X5. The replacement that is meant to give code fences their spacing puts
    back exactly what it matched: whatever the text, it is returned
    unchanged. *)
Theorem respaceFences_identity (fuel : nat) (s : jsstring) :
  respaceFences fuel s = s.
Proof. apply respaceFences_same. Qed.

Lemma length_capNewlines (run : nat) (s : jsstring) :
  (length (capNewlines run s) <= run + length s)%nat.
Proof.
  revert run. induction s as [|c s IH]; intros run.
  - simpl. rewrite length_replicate. lia.
  - simpl. destruct (c =? nl)%N.
    + specialize (IH (S run)). lia.
    + rewrite length_app, length_replicate. simpl. specialize (IH 0%nat). lia.
Qed.

Lemma length_stripLineEnds (held s : jsstring) :
  (length (stripLineEnds held s) <= length held + length s)%nat.
Proof.
  revert held. induction s as [|c s IH]; intros held; [simpl; lia|].
  simpl. destruct (isBlank c).
  - specialize (IH (c :: held)). simpl in IH. lia.
  - destruct (isLineTerminator c).
    + simpl. specialize (IH []). simpl in IH. lia.
    + rewrite length_app, length_rev. simpl. specialize (IH []). simpl in IH. lia.
Qed.

Lemma length_dropWhile {A} (p : A -> bool) (l : list A) :
  (length (dropWhile p l) <= length l)%nat.
Proof.
  induction l as [|x l IH]; [done|]. simpl. destruct (p x); simpl; lia.
Qed.

Lemma length_takeWhile_dropWhile {A} (p : A -> bool) (l : list A) :
  (length (takeWhile p l) + length (dropWhile p l) = length l)%nat.
Proof. by rewrite <- length_app, takeWhile_dropWhile. Qed.

(** What a match of the status pattern takes is at least as long as what
    it is replaced by, and it is not empty. *)
Lemma statusAt_length (s x rest : jsstring) :
  statusAt s = Some (x, rest) ->
  (length x + 4 + length rest <= length s)%nat.
Proof.
  unfold statusAt.
  pose proof (length_takeWhile_dropWhile isSpace s) as H1.
  destruct (takeWhile isSpace s) as [|w1 ws1]; [done|].
  destruct (dropWhile isSpace s) as [|b1 r1]; [done|].
  destruct (decide (b1 = 96%N)) as [->|Hb];
    [|destruct b1 as [|p]; [done|]; repeat (destruct p as [p|p|]; try done)].
  pose proof (length_takeWhile_dropWhile isCapitalOrSpace r1) as H2.
  destruct (takeWhile isCapitalOrSpace r1) as [|x0 xs]; [done|].
  destruct (dropWhile isCapitalOrSpace r1) as [|b2 r2]; [done|].
  destruct (decide (b2 = 96%N)) as [->|Hb];
    [|destruct b2 as [|p]; [done|]; repeat (destruct p as [p|p|]; try done)].
  pose proof (length_takeWhile_dropWhile isSpace r2) as H3.
  destruct (takeWhile isSpace r2) as [|w2 ws2]; [done|].
  intros [= <- <-]. simpl in *. lia.
Qed.

Lemma length_tidyStatus (fuel : nat) (s : jsstring) :
  (length (tidyStatus fuel s) <= length s)%nat.
Proof.
  revert s. induction fuel as [|f IH]; intros s; [done|].
  cbn [tidyStatus]. destruct (statusAt s) as [[x rest]|] eqn:E.
  - apply statusAt_length in E. specialize (IH rest).
    simpl. rewrite length_app. simpl. lia.
  - destruct s as [|c r]; [done|]. simpl. specialize (IH r). lia.
Qed.

Lemma tableRowAt_length (s row w rest : jsstring) :
  tableRowAt s = Some (row, w, rest) ->
  (length row + length rest <= length s)%nat /\ row <> [].
Proof.
  unfold tableRowAt. destruct s as [|c r]; [done|].
  destruct (decide (c = 124%N)) as [->|Hc];
    [|destruct c as [|p]; [done|]; repeat (destruct p as [p|p|]; try done)].
  set (s := 124%N :: r).
  set (k := (length (takeWhile notLineTerminator s)
             - length (takeWhile (fun c => negb (c =? pipe)%N)
                         (rev (takeWhile notLineTerminator s))))%nat).
  destruct (3 <=? k)%nat eqn:Ek; [|done]. apply Nat.leb_le in Ek.
  assert (k <= length s)%nat as Hk.
  { pose proof (length_takeWhile_dropWhile notLineTerminator s). unfold k. lia. }
  destruct (dropWhile isSpace (drop k s)) as [|d after'] eqn:Ed.
  - intros [= <- <- <-]. rewrite length_take. simpl length at 2. split; [lia|].
    intros H%(f_equal length). rewrite length_take in H. simpl in H. lia.
  - destruct (_ <? _)%nat; [|done].
    intros [= <- <- <-]. rewrite length_take, length_drop, length_drop.
    split; [lia|].
    intros H%(f_equal length). rewrite length_take in H. simpl in H. lia.
Qed.

Lemma length_tidyTableRows (fuel : nat) (b : bool) (s : jsstring) :
  (length (tidyTableRows fuel b s) <= length s)%nat.
Proof.
  revert b s. induction fuel as [|f IH]; intros b s; [done|].
  cbn [tidyTableRows].
  destruct (if b then tableRowAt s else None) as [[[row w] rest]|] eqn:E.
  - destruct b; [|done]. apply tableRowAt_length in E as [E _].
    rewrite length_app. specialize (IH (from_option isLineTerminator false (list.last w)) rest).
    lia.
  - destruct s as [|c r]; [done|]. simpl. specialize (IH (isLineTerminator c) r). lia.
Qed.

Lemma tagAt_length (s rest : jsstring) :
  tagAt s = Some rest -> (length rest < length s)%nat.
Proof.
  unfold tagAt. destruct s as [|c r1]; [done|].
  destruct (decide (c = 60%N)) as [->|Hc];
    [|destruct c as [|p]; [done|]; repeat (destruct p as [p|p|]; try done)].
  set (r2 := match r1 with 47%N :: r => r | _ => r1 end).
  assert (length r2 <= length r1)%nat as Hr2.
  { unfold r2. destruct r1 as [|d r]; [done|].
    destruct d as [|p]; [done|]; repeat (destruct p as [p|p|]; try (simpl; lia)). }
  destruct (existsb _ tableTags); [|done].
  pose proof (length_dropWhile (fun c => negb (c =? 62)%N) r2) as Hd.
  destruct (dropWhile _ r2) as [|d rest']; [done|].
  destruct (decide (d = 62%N)) as [->|Hd'];
    [|destruct d as [|p]; [done|]; repeat (destruct p as [p|p|]; try done)].
  intros [= <-]. simpl in *. lia.
Qed.

Lemma length_stripTableTags (fuel : nat) (s : jsstring) :
  (length (stripTableTags fuel s) <= length s)%nat.
Proof.
  revert s. induction fuel as [|f IH]; intros s; [done|].
  cbn [stripTableTags]. destruct (tagAt s) as [rest|] eqn:E.
  - apply tagAt_length in E. specialize (IH rest). lia.
  - destruct s as [|c r]; [done|]. simpl. specialize (IH r). lia.
Qed.

(** X6. The clean-up never makes the text longer. *)
Theorem postProcess_length (markdown : jsstring) :
  (length (postProcess markdown) <= length markdown)%nat.
Proof.
  unfold postProcess. cbv zeta.
  rewrite respaceFences_same.
  etrans; [apply length_stripTableTags|].
  etrans; [apply length_tidyTableRows|].
  etrans; [apply length_tidyStatus|].
  etrans; [apply length_stripLineEnds|].
  simpl. apply (length_capNewlines 0).
Qed.

End PostProcessSteps.

(** ** A table row followed by a paragraph *)

Section RowAndParagraph.
Import Render Promote Popup PostProcess PostProcessSpec.

Lemma calm_facts (c : N) :
  calm c = true ->
  isLineTerminator c = false /\ c <> nl /\ c <> backtick /\ c <> 60%N.
Proof.
  unfold calm, notLineTerminator.
  intros [[H1 H2]%andb_true_iff H3]%andb_true_iff.
  apply negb_true_iff in H1, H2, H3.
  apply N.eqb_neq in H2, H3. split_and!; try done.
  intros ->. discriminate.
Qed.

Lemma capNewlines_no_nl (a b : jsstring) :
  nl ∉ a -> capNewlines 0 (a ++ b) = a ++ capNewlines 0 b.
Proof.
  induction a as [|c a IH]; intros Ha; [done|].
  simpl. destruct (c =? nl)%N eqn:E.
  - apply N.eqb_eq in E. subst c. exfalso. apply Ha. by left.
  - rewrite IH; [done|]. intros H. apply Ha. by right.
Qed.

Lemma stripLineEnds_keep (held a b : jsstring) :
  a <> [] ->
  Forall (fun c => isLineTerminator c = false) a ->
  (forall d, list.last a = Some d -> isBlank d = false) ->
  stripLineEnds held (a ++ b) = rev held ++ a ++ stripLineEnds [] b.
Proof.
  revert held. induction a as [|c a IH]; intros held Hne Hlt Hlast; [done|].
  apply List.Forall_cons_iff in Hlt as [Hc Hlt].
  destruct a as [|c' a'].
  - simpl. rewrite (Hlast c eq_refl), Hc. reflexivity.
  - assert (forall d, list.last (c' :: a') = Some d -> isBlank d = false) as Hlast'.
    { intros d Hd. apply Hlast. exact Hd. }
    change ((c :: c' :: a') ++ b) with (c :: ((c' :: a') ++ b)).
    cbn [stripLineEnds]. destruct (isBlank c).
    + rewrite IH by done. simpl. by rewrite <- app_assoc.
    + rewrite Hc. rewrite IH by done. reflexivity.
Qed.

Lemma elem_of_dropWhile {A} (p : A -> bool) (x : A) (l : list A) :
  x ∈ dropWhile p l -> x ∈ l.
Proof.
  induction l as [|y l IH]; [done|]. simpl.
  destruct (p y); [|done]. intros H. right. by apply IH.
Qed.

Lemma statusAt_no_backtick (s : jsstring) :
  backtick ∉ s -> statusAt s = None.
Proof.
  intros Hs. unfold statusAt.
  destruct (takeWhile isSpace s) as [|w ws]; [done|].
  destruct (dropWhile isSpace s) as [|b r1] eqn:E; [done|].
  destruct (decide (b = 96%N)) as [->|Hb].
  - exfalso. apply Hs. apply (elem_of_dropWhile isSpace). rewrite E. by left.
  - destruct b as [|p]; [done|]. repeat (destruct p as [p|p|]; try done).
Qed.

Lemma tidyStatus_no_backtick (fuel : nat) (s : jsstring) :
  backtick ∉ s -> tidyStatus fuel s = s.
Proof.
  revert s. induction fuel as [|f IH]; intros s Hs; [done|].
  cbn [tidyStatus]. rewrite statusAt_no_backtick by done.
  destruct s as [|c r]; [done|]. rewrite IH; [done|].
  intros H. apply Hs. by right.
Qed.

Lemma tagAt_no_bracket (s : jsstring) : 60%N ∉ s -> tagAt s = None.
Proof.
  intros Hs. destruct s as [|c r]; [done|].
  destruct (decide (c = 60%N)) as [->|Hc].
  - exfalso. apply Hs. by left.
  - unfold tagAt. destruct c as [|p]; [done|].
    repeat (destruct p as [p|p|]; try done).
Qed.

Lemma stripTableTags_no_bracket (fuel : nat) (s : jsstring) :
  60%N ∉ s -> stripTableTags fuel s = s.
Proof.
  revert s. induction fuel as [|f IH]; intros s Hs; [done|].
  cbn [stripTableTags]. rewrite tagAt_no_bracket by done.
  destruct s as [|c r]; [done|]. rewrite IH; [done|].
  intros H. apply Hs. by right.
Qed.

Lemma tidyTableRows_one_line (fuel : nat) (s : jsstring) :
  Forall (fun c => isLineTerminator c = false) s ->
  tidyTableRows fuel false s = s.
Proof.
  revert s. induction fuel as [|f IH]; intros s Hs; [done|].
  cbn [tidyTableRows]. destruct s as [|c r]; [done|].
  apply List.Forall_cons_iff in Hs as [Hc Hr]. by rewrite Hc, IH.
Qed.

Lemma takeWhile_app_stop {A} (p : A -> bool) (a : list A) (x : A) (b : list A) :
  Forall (fun c => p c = true) a -> p x = false ->
  takeWhile p (a ++ x :: b) = a.
Proof.
  intros Ha Hx. induction Ha as [|c a Hc Ha IH]; simpl.
  - by rewrite Hx.
  - by rewrite Hc, IH.
Qed.

Lemma tableRowAt_row (inner rest : jsstring) (c : N) :
  inner <> [] ->
  Forall (fun c => isLineTerminator c = false) inner ->
  isSpace c = false ->
  tableRowAt ((pipe :: inner ++ [pipe]) ++ nl :: nl :: c :: rest)
  = Some (pipe :: inner ++ [pipe], [nl], nl :: c :: rest).
Proof.
  intros Hne Hlt Hc.
  set (row := pipe :: inner ++ [pipe]).
  assert (Hrow : Forall (fun c => notLineTerminator c = true) row).
  { unfold row. constructor; [done|]. apply Forall_app_2; [|by repeat constructor].
    eapply List.Forall_impl; [|exact Hlt]. intros a Ha. unfold notLineTerminator.
    by rewrite Ha. }
  assert (Hline : takeWhile notLineTerminator (row ++ nl :: nl :: c :: rest) = row).
  { by apply takeWhile_app_stop. }
  assert (Hlast : takeWhile (fun c => negb (c =? pipe)%N) (rev row) = []).
  { unfold row. simpl rev. rewrite rev_app_distr. reflexivity. }
  assert (Hlen : (3 <= length row)%nat).
  { unfold row. destruct inner; [done|]. simpl. rewrite length_app. simpl. lia. }
  unfold tableRowAt.
  change (row ++ nl :: nl :: c :: rest)
    with (124%N :: (inner ++ [pipe]) ++ nl :: nl :: c :: rest) at 1.
  cbv iota beta.
  cbv zeta. fold row.
  change (124%N :: (inner ++ [pipe]) ++ nl :: nl :: c :: rest)
    with (row ++ nl :: nl :: c :: rest).
  rewrite Hline, Hlast. change (length (@nil N)) with 0%nat. rewrite Nat.sub_0_r.
  destruct (3 <=? length row)%nat eqn:E; [|apply Nat.leb_gt in E; lia].
  rewrite drop_app_length, take_app_length.
  cbn [takeWhile dropWhile]. change (isSpace nl) with true. cbv iota.
  rewrite Hc. reflexivity.
Qed.

Lemma tableRowAt_not_pipe (c : N) (r : jsstring) :
  c <> pipe -> tableRowAt (c :: r) = None.
Proof.
  intros Hc. unfold tableRowAt. destruct c as [|p]; [done|].
  repeat (destruct p as [p|p|]; try done).
Qed.

Lemma tidyTableRows_row (fuel : nat) (inner rest : jsstring) (c : N) :
  inner <> [] ->
  Forall (fun c => isLineTerminator c = false) inner ->
  Forall (fun c => isLineTerminator c = false) (c :: rest) ->
  isSpace c = false -> c <> pipe ->
  tidyTableRows (S (S (S fuel))) true
    ((pipe :: inner ++ [pipe]) ++ nl :: nl :: c :: rest)
  = (pipe :: inner ++ [pipe]) ++ nl :: c :: rest.
Proof.
  intros Hne Hinner Hrest Hc Hpipe.
  apply List.Forall_cons_iff in Hrest as [Hc' Hrest].
  cbn [tidyTableRows]. rewrite tableRowAt_row by done.
  f_equal. change (from_option isLineTerminator false (list.last [nl])) with true.
  cbv iota.
  change (tableRowAt (nl :: c :: rest)) with (@None (jsstring * jsstring * jsstring)).
  cbv iota. f_equal. change (isLineTerminator nl) with true. cbv iota.
  rewrite tableRowAt_not_pipe by done. f_equal.
  rewrite Hc'. destruct fuel; [done|]. by apply tidyTableRows_one_line.
Qed.

(** X7. The clean-up removes the empty line between a table row and the
    paragraph after it: for a line that starts and ends with a bar,
    followed by an empty line and by a line of text that starts with
    neither white space nor a bar and does not end with a space or a tab
    (no line holding a line terminator, a backtick or an opening angle
    bracket), the paragraph ends up on the line right after the row. *)
Theorem postProcess_row_then_paragraph (inner rest : jsstring) (c : N) :
  inner <> [] ->
  Forall (fun x => calm x = true) inner ->
  Forall (fun x => calm x = true) (c :: rest) ->
  isSpace c = false ->
  c <> pipe ->
  (forall d, list.last (c :: rest) = Some d -> isBlank d = false) ->
  postProcess ((pipe :: inner ++ [pipe]) ++ [nl; nl] ++ c :: rest)
  = (pipe :: inner ++ [pipe]) ++ [nl] ++ c :: rest.
Proof.
  intros Hne Hinner Hrest Hc Hpipe Hlast.
  set (row := pipe :: inner ++ [pipe]).
  assert (Hrow : Forall (fun x => calm x = true) row).
  { unfold row. constructor; [done|]. apply Forall_app_2; [done|by repeat constructor]. }
  assert (Hlt : forall l, Forall (fun x => calm x = true) l ->
                          Forall (fun x => isLineTerminator x = false) l).
  { intros l. apply List.Forall_impl. intros a Ha. apply calm_facts in Ha as (?&?&?&?); done. }
  assert (Hno : forall (x : N) l, (forall a, calm a = true -> a <> x) ->
                                  Forall (fun a => calm a = true) l -> x ∉ l).
  { intros x l Hx Hl Hin. rewrite List.Forall_forall in Hl.
    apply list_elem_of_In in Hin. apply Hl in Hin. by apply Hx in Hin. }
  set (s := row ++ [nl; nl] ++ c :: rest).
  assert (Hrest' : Forall (fun x => calm x = true) rest)
    by (by apply List.Forall_cons_iff in Hrest as [_ Hrest]).
  assert (Ha0 : capNewlines 0 rest = rest).
  { rewrite <- (app_nil_r rest) at 1. rewrite capNewlines_no_nl; [by rewrite app_nil_r|].
    apply Hno; [|done]. intros a Ha. apply calm_facts in Ha as (?&?&?&?); done. }
  assert (Ha : capNewlines 0 s = s).
  { unfold s. rewrite capNewlines_no_nl.
    2:{ apply Hno; [|done]. intros a Ha. apply calm_facts in Ha as (?&?&?&?); done. }
    f_equal.
    change (capNewlines 0 ([nl; nl] ++ c :: rest)) with (capNewlines 2 (c :: rest)).
    cbn [capNewlines].
    destruct (c =? nl)%N eqn:E.
    { apply N.eqb_eq in E. subst c. discriminate. }
    rewrite Ha0. reflexivity. }
  assert (Hb0 : stripLineEnds [] (c :: rest) = c :: rest).
  { rewrite <- (app_nil_r (c :: rest)) at 1.
    rewrite stripLineEnds_keep; [by rewrite app_nil_r|done|by apply Hlt|done]. }
  assert (Hb : stripLineEnds [] s = s).
  { unfold s. rewrite stripLineEnds_keep.
    - change (stripLineEnds [] ([nl; nl] ++ c :: rest))
        with (nl :: nl :: stripLineEnds [] (c :: rest)).
      by rewrite Hb0.
    - done.
    - by apply Hlt.
    - unfold row. intros d. change (pipe :: inner ++ [pipe]) with ((pipe :: inner) ++ [pipe]).
      rewrite last_snoc. by intros [= <-]. }
  assert (Hs : Forall (fun x => x = nl \/ calm x = true) s).
  { unfold s. apply Forall_app_2; [eapply List.Forall_impl; [|exact Hrow]; tauto|].
    constructor; [by left|]. constructor; [by left|].
    eapply List.Forall_impl; [|exact Hrest]. tauto. }
  assert (Hnox : forall x : N, x <> nl -> (forall a, calm a = true -> a <> x) -> x ∉ s).
  { intros x Hx1 Hx2 Hin. rewrite List.Forall_forall in Hs.
    apply list_elem_of_In in Hin. apply Hs in Hin as [->|Hin]; [done|].
    by apply Hx2 in Hin. }
  unfold postProcess. cbv zeta. fold s.
  rewrite Ha, Hb, respaceFences_same.
  rewrite tidyStatus_no_backtick.
  2:{ apply Hnox; [done|]. intros a Ha'. apply calm_facts in Ha' as (?&?&?&?); done. }
  assert (Hfuel : exists f, length s = S (S (S f))).
  { exists (length inner + length rest + 2)%nat. unfold s, row.
    rewrite !length_app. simpl. rewrite length_app. simpl. lia. }
  destruct Hfuel as [f Hf]. rewrite Hf.
  unfold s. cbn [app].
  change (row ++ nl :: nl :: c :: rest)
    with ((pipe :: inner ++ [pipe]) ++ nl :: nl :: c :: rest).
  rewrite tidyTableRows_row; [|done|by apply Hlt|by apply Hlt|done|done].
  apply stripTableTags_no_bracket.
  intros Hin. apply elem_of_app in Hin as [Hin|Hin].
  - revert Hin. apply Hno; [|exact Hrow]. intros a Ha'. apply calm_facts in Ha' as (?&?&?&?); done.
  - apply elem_of_cons in Hin as [Hin|Hin]; [done|].
    revert Hin. apply Hno; [|exact Hrest]. intros a Ha'. apply calm_facts in Ha' as (?&?&?&?); done.
Qed.

Lemma postProcess_row_then_paragraph_witness :
  postProcess (str "| a |" ++ [nl; nl] ++ str "text") = str "| a |" ++ [nl] ++ str "text".
Proof.
  apply (postProcess_row_then_paragraph (str " a ") (str "ext") 116%N).
  - done.
  - by repeat constructor.
  - by repeat constructor.
  - reflexivity.
  - done.
  - intros d [= <-]. reflexivity.
Defined.

End RowAndParagraph.

(** ** The document that the popup shows *)

Section Envelope.
Import Render Popup PostProcess.

Lemma head_dropWhile {A} (p : A -> bool) (l : list A) (c : A) :
  head (dropWhile p l) = Some c -> p c = false.
Proof.
  induction l as [|x l IH]; [done|]. simpl.
  destruct (p x) eqn:E; [exact IH|]. by intros [= <-].
Qed.

Lemma last_rev {A} (l : list A) : list.last (rev l) = head l.
Proof. destruct l as [|x l]; [done|]. simpl. by rewrite last_snoc. Qed.

Lemma trimEnd_prefix (t : jsstring) : exists x, t = trimEnd t ++ x.
Proof.
  exists (rev (takeWhile isSpace (rev t))). unfold trimEnd.
  rewrite <- rev_app_distr, takeWhile_dropWhile. by rewrite rev_involutive.
Qed.

(** [trim] leaves no white space at either end. *)
Lemma trim_ends (s : jsstring) :
  (forall c, head (trim s) = Some c -> isSpace c = false)
  /\ (forall c, list.last (trim s) = Some c -> isSpace c = false).
Proof.
  unfold trim. split; intros c Hc.
  - destruct (trimEnd_prefix (trimStart s)) as [x Hx].
    apply (head_dropWhile isSpace s). fold (trimStart s). rewrite Hx.
    destruct (trimEnd (trimStart s)); [done|]. exact Hc.
  - unfold trimEnd in Hc. rewrite last_rev in Hc.
    by apply head_dropWhile in Hc.
Qed.

(** X8. Whatever the renderer yields and whatever the options are, the
    document ends with a line feed, and the text before that line feed
    neither starts nor ends with white space: the document never opens
    with an empty line and never ends with more than one line feed. *)
Theorem convertToMarkdown_envelope (turndown : jsstring -> jsstring)
    (now html title : jsstring) (meta : option metadata)
    (includeFrontMatter includeTitle : bool) :
  exists body,
    convertToMarkdown turndown now html title meta includeFrontMatter includeTitle
    = body ++ [nl]
    /\ (forall c, head body = Some c -> isSpace c = false)
    /\ (forall c, list.last body = Some c -> isSpace c = false).
Proof.
  unfold convertToMarkdown. cbv zeta. eexists. split; [reflexivity|].
  apply trim_ends.
Qed.

End Envelope.

(* ===================================================================== *)
(** * More properties of the table rules *)
(* ===================================================================== *)

Section CellRule.
Import Render.

Lemma foldNewlines_no_nl (run : nat) (s : jsstring) : nl ∉ foldNewlines run s.
Proof.
  assert (Hflush : forall k : nat,
            nl ∉ match k with O => [] | S O => [32%N] | _ => str "<br>" end).
  { intros [|[|k]]; apply (bool_decide_unpack _); vm_compute; exact I. }
  revert run. induction s as [|c s IH]; intros run.
  - apply Hflush.
  - cbn [foldNewlines]. destruct (c =? nl)%N eqn:E; [apply IH|].
    intros [H|H]%elem_of_app; [by apply (Hflush run)|].
    apply elem_of_cons in H as [H|H]; [|by apply (IH 0%nat)].
    apply N.eqb_neq in E. congruence.
Qed.

Lemma escapePipes_cons (c : N) (s : jsstring) :
  escapePipes (c :: s)
  = (if (c =? pipe)%N then [92%N; pipe] else [c]) ++ escapePipes s.
Proof. reflexivity. Qed.

Lemma escapePipes_no_nl (s : jsstring) : nl ∉ s -> nl ∉ escapePipes s.
Proof.
  induction s as [|c s IH]; intros Hs; [done|].
  rewrite escapePipes_cons.
  assert (c <> nl) as Hc by (intros ->; apply Hs; by left).
  assert (nl ∉ s) as Hs' by (intros H; apply Hs; by right).
  intros [H|H]%elem_of_app; [|by apply IH].
  destruct (c =? pipe)%N.
  - apply elem_of_cons in H as [H|H]; [done|].
    by apply elem_of_cons in H as [H|H%elem_of_nil].
  - by apply elem_of_cons in H as [H|H%elem_of_nil].
Qed.

Lemma escapePipes_escaped (s : jsstring) (i : nat) :
  escapePipes s !! i = Some pipe ->
  exists j, i = S j /\ escapePipes s !! j = Some 92%N.
Proof.
  revert i. induction s as [|c s IH]; intros i Hi; [by destruct i|].
  rewrite escapePipes_cons in *. destruct (c =? pipe)%N eqn:E.
  - destruct i as [|[|k]]; [discriminate | by exists 0%nat |].
    simpl in Hi. destruct (IH k Hi) as (j & -> & Hj).
    exists (S (S j)). by split.
  - destruct i as [|k].
    + simpl in Hi. apply N.eqb_neq in E. congruence.
    + simpl in Hi. destruct (IH k Hi) as (j & -> & Hj).
      exists (S j). by split.
Qed.

(** Dropping leading white space commutes with a replacement that maps
    white space to itself and anything else to a text that starts with no
    white space. *)
Lemma dropWhile_pieces (f : N -> jsstring) (s : jsstring) :
  (forall c, isSpace c = true -> f c = [c]) ->
  (forall c, isSpace c = false -> exists d r, f c = d :: r /\ isSpace d = false) ->
  dropWhile isSpace (concat (f <$> s)) = concat (f <$> dropWhile isSpace s).
Proof.
  intros Hsp Hns. induction s as [|c s IH]; [done|].
  rewrite fmap_cons. simpl concat. simpl dropWhile at 2.
  destruct (isSpace c) eqn:E.
  - rewrite (Hsp c E). simpl. by rewrite E.
  - destruct (Hns c E) as (d & r & Hf & Hd). rewrite fmap_cons. simpl concat.
    rewrite Hf. simpl. by rewrite Hd.
Qed.

Lemma rev_concat_fmap (f : N -> jsstring) (s : jsstring) :
  rev (concat (f <$> s)) = concat ((fun c => rev (f c)) <$> rev s).
Proof.
  induction s as [|c s IH]; [done|].
  rewrite fmap_cons. simpl. rewrite rev_app_distr, IH, fmap_app, concat_app.
  simpl. by rewrite app_nil_r.
Qed.

Lemma concat_fmap_rev_rev (f : N -> jsstring) (s : jsstring) :
  rev (concat ((fun c => rev (f c)) <$> s)) = concat (f <$> rev s).
Proof.
  rewrite (rev_concat_fmap (fun c => rev (f c))).
  f_equal. apply list_fmap_ext. intros _ c _. apply rev_involutive.
Qed.

Lemma trim_escapePipes (s : jsstring) :
  trim (escapePipes s) = escapePipes (trim s).
Proof.
  set (f := fun c : N => if (c =? pipe)%N then [92%N; pipe] else [c]).
  assert (Hsp : forall c, isSpace c = true -> f c = [c]).
  { intros c Hc. unfold f. destruct (c =? pipe)%N eqn:E; [|done].
    apply N.eqb_eq in E. subst c. discriminate. }
  assert (Hns : forall c, isSpace c = false ->
                          exists d r, f c = d :: r /\ isSpace d = false).
  { intros c Hc. unfold f. destruct (c =? pipe)%N; eauto. }
  assert (Hsp' : forall c, isSpace c = true -> rev (f c) = [c]).
  { intros c Hc. by rewrite Hsp. }
  assert (Hns' : forall c, isSpace c = false ->
                           exists d r, rev (f c) = d :: r /\ isSpace d = false).
  { intros c Hc. unfold f. destruct (c =? pipe)%N eqn:E; simpl; eauto. }
  unfold trim, trimEnd, trimStart, escapePipes. fold f.
  rewrite (dropWhile_pieces f) by done.
  rewrite rev_concat_fmap.
  rewrite (dropWhile_pieces (fun c => rev (f c))) by done.
  apply concat_fmap_rev_rev.
Qed.

(** X9. The text of a cell is one line, and every bar of its content comes
    right after a backslash: between the bars that open and close the
    cell there is no line feed and no bar that would end the cell. *)
Theorem tableCell_one_line (content : jsstring) (index : nat) :
  (nl ∉ tableCell content index)
  /\ exists clean,
       tableCell content index
       = match index with O => str "| " | _ => str " " end ++ clean ++ str " |"
       /\ forall i, clean !! i = Some pipe ->
                    exists j, i = S j /\ clean !! j = Some 92%N.
Proof.
  unfold tableCell. cbv zeta. rewrite trim_escapePipes. split.
  - assert (nl ∉ trim (foldNewlines 0 content)) as Htrim.
    { intros H. apply (foldNewlines_no_nl 0 content).
      unfold trim, trimEnd, trimStart in H.
      apply list_elem_of_In, in_rev, list_elem_of_In in H.
      apply elem_of_dropWhile in H.
      apply list_elem_of_In, in_rev, list_elem_of_In in H.
      by apply elem_of_dropWhile in H. }
    intros [H|H]%elem_of_app.
    + destruct index; revert H; apply (bool_decide_unpack _); vm_compute; exact I.
    + apply elem_of_app in H as [H|H]; [by apply escapePipes_no_nl in H|].
      revert H. apply (bool_decide_unpack _). vm_compute. exact I.
  - eexists. split; [reflexivity|]. apply escapePipes_escaped.
Qed.

End CellRule.

(* ===================================================================== *)
(** * Properties of the macro passes *)
(* ===================================================================== *)

Section Selectors.
Import Panels.

Lemma findFirst_Elem (p : jsstring -> attrs -> bool) (t : jsstring) (a : attrs)
    (kids : list node) :
  findFirst p (Elem t a kids)
  = if p t a then Some (Elem t a kids) else querySelector p kids.
Proof.
  simpl. destruct (p t a); [done|].
  induction kids as [|k kids IH]; [done|].
  simpl. destruct (findFirst p k); [done|]. exact IH.
Qed.

Lemma querySelector_None (p : jsstring -> attrs -> bool) (kids : list node) :
  querySelector p kids = None <-> Forall (fun k => findFirst p k = None) kids.
Proof.
  induction kids as [|k kids IH]; [by split; [constructor|]|].
  simpl. rewrite List.Forall_cons_iff, <- IH.
  destruct (findFirst p k); [by split; [|intros [? _]]|]. tauto.
Qed.

Lemma findFirst_None_matches (p : jsstring -> attrs -> bool) (k : node) :
  findFirst p k = None ->
  matches p k = false /\ querySelector p (kidsOf k) = None.
Proof.
  destruct k as [s|t a kids]; [done|].
  rewrite findFirst_Elem. simpl. by destruct (p t a).
Qed.

Lemma findFirst_None_intro (p : jsstring -> attrs -> bool) (k : node) :
  matches p k = false -> querySelector p (kidsOf k) = None ->
  findFirst p k = None.
Proof.
  destruct k as [s|t a kids]; [done|].
  rewrite findFirst_Elem. simpl. by intros ->.
Qed.

End Selectors.

Section Removal.
Import Panels Macros.

Lemma removeAll_Elem (p : jsstring -> attrs -> bool) (t : jsstring) (a : attrs)
    (kids : list node) :
  removeAll p (Elem t a kids)
  = Elem t a (removeAll p <$> base.filter (fun k => matches p k = false) kids).
Proof.
  simpl. f_equal. induction kids as [|k kids IH]; [done|].
  rewrite filter_cons. destruct (matches p k) eqn:E.
  - rewrite decide_False by done. exact IH.
  - rewrite decide_True by done. rewrite fmap_cons. by rewrite IH.
Qed.

Lemma matches_removeAll (p q : jsstring -> attrs -> bool) (k : node) :
  matches p (removeAll q k) = matches p k.
Proof. by destruct k. Qed.

(** After the loop for a selector, nothing below the container matches
    it. *)
Lemma removeAll_clean (p : jsstring -> attrs -> bool) (n : node) :
  querySelector p (kidsOf (removeAll p n)) = None.
Proof.
  induction n as [s|t a kids IH] using node_rect_nested; [done|].
  rewrite removeAll_Elem. simpl. apply querySelector_None.
  apply Forall_fmap. apply List.Forall_forall. intros k Hk.
  apply list_elem_of_In, list_elem_of_filter in Hk as [Hm Hk].
  rewrite List.Forall_forall in IH. apply list_elem_of_In in Hk.
  apply findFirst_None_intro; [by rewrite matches_removeAll|by apply IH].
Qed.

(** Removing the elements of one selector brings in no element of
    another. *)
Lemma removeAll_keeps_clean (p q : jsstring -> attrs -> bool) (n : node) :
  querySelector p (kidsOf n) = None ->
  querySelector p (kidsOf (removeAll q n)) = None.
Proof.
  induction n as [s|t a kids IH] using node_rect_nested; [done|].
  rewrite removeAll_Elem. simpl. rewrite !querySelector_None.
  intros Hfree. apply Forall_fmap. apply List.Forall_forall. intros k Hk.
  apply list_elem_of_In, list_elem_of_filter in Hk as [_ Hk].
  rewrite List.Forall_forall in IH, Hfree. apply list_elem_of_In in Hk.
  destruct (findFirst_None_matches p k (Hfree k Hk)) as [Hm Hq].
  apply findFirst_None_intro; [by rewrite matches_removeAll|by apply IH].
Qed.

Lemma removeAll_same (p : jsstring -> attrs -> bool) (n : node) :
  querySelector p (kidsOf n) = None -> removeAll p n = n.
Proof.
  induction n as [s|t a kids IH] using node_rect_nested; [done|].
  rewrite removeAll_Elem. simpl. rewrite querySelector_None.
  intros Hfree. f_equal.
  induction IH as [|k kids Hk _ IHkids]; [done|].
  apply List.Forall_cons_iff in Hfree as [Hfk Hfree].
  destruct (findFirst_None_matches p k Hfk) as [Hm Hq].
  rewrite filter_cons, decide_True by done.
  rewrite fmap_cons, (Hk Hq). f_equal. by apply IHkids.
Qed.

Lemma removeEach_clean (ps : list (jsstring -> attrs -> bool)) (c : node) :
  Forall (fun p => querySelector p (kidsOf (foldl (fun n p => removeAll p n) c ps)) = None) ps.
Proof.
  revert c. induction ps as [|p ps IH]; intros c; [constructor|].
  simpl. constructor; [|apply IH].
  generalize (removeAll_clean p c). generalize (removeAll p c). clear.
  induction ps as [|q ps IH]; intros n Hn; [done|].
  simpl. apply IH. by apply removeAll_keeps_clean.
Qed.

Lemma removeEach_same (ps : list (jsstring -> attrs -> bool)) (c : node) :
  Forall (fun p => querySelector p (kidsOf c) = None) ps ->
  foldl (fun n p => removeAll p n) c ps = c.
Proof.
  induction 1 as [|p ps Hp _ IH]; [done|].
  simpl. by rewrite removeAll_same.
Qed.

(** X10. When [removeUnwantedElements] is done, no element below the
    container matches any of its selectors, and running it again changes
    nothing. *)
Theorem removeUnwantedElements_complete (container : node) :
  Forall (fun p => querySelector p (kidsOf (removeUnwantedElements container)) = None)
    removeSelectors
  /\ removeUnwantedElements (removeUnwantedElements container)
     = removeUnwantedElements container.
Proof.
  pose proof (removeEach_clean removeSelectors container) as H.
  split; [exact H|]. by apply removeEach_same.
Qed.

End Removal.

Section Replacement.
Import Panels CodeLanguage Macros.

Lemma matches_replaceAll (p q : jsstring -> attrs -> bool) (build : node -> node)
    (k : node) :
  matches p (replaceAll q build k) = matches p k.
Proof. by destruct k. Qed.

(** When what is put in place of an element holds no element of the
    selector, none is left below the container after the loop. *)
Lemma replaceAll_clean (p : jsstring -> attrs -> bool) (build : node -> node)
    (n : node) :
  (forall k, findFirst p (build k) = None) ->
  querySelector p (kidsOf (replaceAll p build n)) = None.
Proof.
  intros Hbuild.
  induction n as [s|t a kids IH] using node_rect_nested; [done|].
  simpl. apply querySelector_None.
  rewrite List.Forall_forall in IH.
  apply List.Forall_forall. intros k' Hk'.
  apply in_map_iff in Hk' as (k & <- & Hk).
  destruct (matches p k) eqn:E; [apply Hbuild|].
  apply findFirst_None_intro; [by rewrite matches_replaceAll|by apply IH].
Qed.

Lemma replaceAll_same (p : jsstring -> attrs -> bool) (build : node -> node)
    (n : node) :
  querySelector p (kidsOf n) = None -> replaceAll p build n = n.
Proof.
  induction n as [s|t a kids IH] using node_rect_nested; [done|].
  simpl. rewrite querySelector_None. intros Hfree. f_equal.
  induction IH as [|k kids Hk _ IHkids]; [done|].
  apply List.Forall_cons_iff in Hfree as [Hfk Hfree].
  destruct (findFirst_None_matches p k Hfk) as [Hm Hq].
  simpl. rewrite Hm, (Hk Hq). f_equal. by apply IHkids.
Qed.

Lemma replaceWhere_same (p : jsstring -> attrs -> bool) (build : node -> option node)
    (n : node) :
  querySelector p (kidsOf n) = None -> replaceWhere p build n = n.
Proof.
  induction n as [s|t a kids IH] using node_rect_nested; [done|].
  simpl. rewrite querySelector_None. intros Hfree. f_equal.
  induction IH as [|k kids Hk _ IHkids]; [done|].
  apply List.Forall_cons_iff in Hfree as [Hfk Hfree].
  destruct (findFirst_None_matches p k Hfk) as [Hm Hq].
  simpl. rewrite Hm, (Hk Hq). f_equal. by apply IHkids.
Qed.

(** A loop that puts a text node in place of each element it selects
    leaves none of them below the container, so that a second run finds
    nothing to do. *)
Lemma text_pass_complete (p : jsstring -> attrs -> bool) (build : node -> node)
    (n : node) :
  (forall k, exists s, build k = Text s) ->
  querySelector p (kidsOf (replaceAll p build n)) = None
  /\ replaceAll p build (replaceAll p build n) = replaceAll p build n.
Proof.
  intros Hbuild.
  assert (querySelector p (kidsOf (replaceAll p build n)) = None) as H.
  { apply replaceAll_clean. intros k. by destruct (Hbuild k) as [s ->]. }
  split; [exact H|]. by apply replaceAll_same.
Qed.

(** X11. Emoticons, user mentions and status lozenges are all replaced: after
    each of the three passes no element below the container matches the
    selector of the pass, nested ones included, and the pass run again
    gives the same tree. *)
Theorem text_passes_complete (toUpperCase : jsstring -> jsstring) (container : node) :
  (querySelector isEmoticon (kidsOf (convertEmoticons container)) = None
   /\ convertEmoticons (convertEmoticons container) = convertEmoticons container)
  /\ (querySelector isMention (kidsOf (convertUserMentions container)) = None
      /\ convertUserMentions (convertUserMentions container)
         = convertUserMentions container)
  /\ (querySelector isStatus (kidsOf (convertStatusMacros toUpperCase container)) = None
      /\ convertStatusMacros toUpperCase (convertStatusMacros toUpperCase container)
         = convertStatusMacros toUpperCase container).
Proof.
  split_and!; try (apply text_pass_complete; intros k; eexists; reflexivity).
  all: apply (text_pass_complete _ _ container); intros k; eexists; reflexivity.
Qed.

Lemma textContent_Elem (t : jsstring) (a : attrs) (kids : list node) :
  textContent (Elem t a kids) = concat (map textContent kids).
Proof. reflexivity. Qed.

(** A loop whose replacements have the text of what they replace keeps
    the text of the container. *)
Lemma replaceAll_textContent (p : jsstring -> attrs -> bool) (build : node -> node)
    (n : node) :
  (forall k, textContent (build k) = textContent k) ->
  textContent (replaceAll p build n) = textContent n.
Proof.
  intros Hbuild.
  induction n as [s|t a kids IH] using node_rect_nested; [done|].
  cbn [replaceAll]. rewrite !textContent_Elem. f_equal. rewrite map_map.
  induction IH as [|k kids Hk _ IHkids]; [done|].
  simpl. rewrite IHkids. f_equal.
  destruct (matches p k); [apply Hbuild|exact Hk].
Qed.

Lemma textContent_codeBlock (cls : attrs) (text : jsstring) :
  textContent (codeBlock cls text) = text.
Proof.
  unfold codeBlock. destruct text as [|c r]; [done|].
  simpl. by rewrite !app_nil_r.
Qed.

(** X12. In a container without code panels of the old editor,
    [convertCodeBlocks] keeps the text unit for unit: the code of a block
    of the new editor is neither trimmed nor re-indented, and nothing
    around it is lost. *)
Theorem convertCodeBlocks_text (toLowerCase printInherited : jsstring -> jsstring)
    (container : node) :
  querySelector isCodePanel (kidsOf container) = None ->
  textContent (convertCodeBlocks toLowerCase printInherited container)
  = textContent container.
Proof.
  intros Hold. unfold convertCodeBlocks.
  rewrite replaceWhere_same by done.
  apply replaceAll_textContent. intros k. apply textContent_codeBlock.
Qed.

Lemma convertCodeBlocks_text_witness :
  textContent
    (convertCodeBlocks asciiLower (fun s => s)
       (Elem (str "div") []
          [Text (str "see ");
           Elem (str "div")
             [(str "data-node-type", str "codeBlock"); (str "data-language", str "py")]
             [Text (str "  x = 1")]]))
  = str "see   x = 1".
Proof.
  apply (convertCodeBlocks_text asciiLower (fun s => s)
           (Elem (str "div") []
              [Text (str "see ");
               Elem (str "div")
                 [(str "data-node-type", str "codeBlock"); (str "data-language", str "py")]
                 [Text (str "  x = 1")]])).
  reflexivity.
Defined.

End Replacement.

(* ===================================================================== *)
(** * Properties of the image clean-up *)
(* ===================================================================== *)

Section Attributes.

Lemma getAttribute_setAttribute_eq (name v : jsstring) (a : attrs) :
  getAttribute name (setAttribute name v a) = Some v.
Proof.
  induction a as [|[k x] a IH]; simpl.
  - unfold Js.eqb. by rewrite bool_decide_eq_true_2.
  - destruct (Js.eqb k name) eqn:E; simpl; by rewrite E.
Qed.

Lemma getAttribute_setAttribute_ne (name other v : jsstring) (a : attrs) :
  name <> other ->
  getAttribute other (setAttribute name v a) = getAttribute other a.
Proof.
  intros Hne. induction a as [|[k x] a IH]; simpl.
  - unfold Js.eqb. by rewrite bool_decide_eq_false_2.
  - destruct (Js.eqb k name) eqn:E; simpl.
    + unfold Js.eqb in *. apply bool_decide_eq_true in E. subst k.
      by rewrite bool_decide_eq_false_2.
    + by rewrite IH.
Qed.

Lemma getAttribute_removeAttribute_ne (name other : jsstring) (a : attrs) :
  name <> other ->
  getAttribute other (removeAttribute name a) = getAttribute other a.
Proof.
  intros Hne. induction a as [|[k x] a IH]; [done|]. simpl.
  destruct (Js.eqb k name) eqn:E; simpl.
  - unfold Js.eqb in *. apply bool_decide_eq_true in E. subst k.
    by rewrite bool_decide_eq_false_2.
  - by rewrite IH.
Qed.

Lemma getAttribute_removeEach_in (names : list string) (name : string) (a : attrs) :
  In name names ->
  getAttribute (str name) (foldl (fun a n => removeAttribute (str n) a) a names) = None.
Proof.
  revert a. induction names as [|n names IH]; intros a Hin; [done|].
  simpl. destruct Hin as [->|Hin]; [|by apply IH].
  generalize (getAttribute_removeAttribute_eq (str name) a).
  generalize (removeAttribute (str name) a). clear.
  induction names as [|n names IH]; intros a Ha; [done|].
  simpl. apply IH. by apply getAttribute_removeAttribute_None.
Qed.

Lemma getAttribute_removeEach_out (names : list string) (other : jsstring) (a : attrs) :
  Forall (fun n => str n <> other) names ->
  getAttribute other (foldl (fun a n => removeAttribute (str n) a) a names)
  = getAttribute other a.
Proof.
  intros Hout. revert a. induction Hout as [|n names Hn _ IH]; intros a; [done|].
  simpl. rewrite IH. by apply getAttribute_removeAttribute_ne.
Qed.

End Attributes.

Section ImageCleanup.
Import Panels CodeLanguage Images.

Variable resolveUrl : jsstring -> jsstring -> option jsstring.
Variable origin : jsstring.

Lemma nonEmpty_Some (name : string) (a : attrs) (v : jsstring) :
  nonEmpty name a = Some v -> v <> [] /\ getAttribute (str name) a = Some v.
Proof.
  unfold nonEmpty, orElse.
  destruct (getAttribute (str name) a) as [[|c r]|]; try done.
  by intros [= <-].
Qed.

Lemma nonEmpty_intro (name : string) (a : attrs) (v : jsstring) :
  v <> [] -> getAttribute (str name) a = Some v -> nonEmpty name a = Some v.
Proof.
  unfold nonEmpty, orElse. intros Hv ->. by destruct v.
Qed.

Lemma removed_not_alt_src :
  Forall (fun n => str n <> str "alt") removeAttrs
  /\ Forall (fun n => str n <> str "src") removeAttrs.
Proof. split; repeat constructor; by vm_compute. Qed.

Lemma cleanupImage_alt (img : attrs) :
  exists v, nonEmpty "alt" (cleanupImage resolveUrl origin img) = Some v.
Proof.
  unfold cleanupImage.
  set (a1 := match resolveBestImageUrl resolveUrl origin img with
             | [] => img
             | c :: r => setAttribute (str "src") (c :: r) img
             end).
  destruct (nonEmpty "alt" a1) as [v|] eqn:E.
  - exists v. apply nonEmpty_Some in E as [Hv E].
    apply nonEmpty_intro; [done|].
    rewrite getAttribute_removeEach_out; [done|apply removed_not_alt_src].
  - set (v := default (str "image") (orElse (nonEmpty "title" a1) (nonEmpty "data-alt" a1))).
    assert (v <> []) as Hv.
    { unfold v, orElse.
      destruct (nonEmpty "title" a1) as [[|c r]|] eqn:E1; try done;
        destruct (nonEmpty "data-alt" a1) as [[|c' r']|] eqn:E2; try done;
        by apply nonEmpty_Some in E2 as [? _]. }
    exists v. apply nonEmpty_intro; [done|].
    rewrite getAttribute_removeEach_out; [|apply removed_not_alt_src].
    apply getAttribute_setAttribute_eq.
Qed.

Lemma cleanupImage_removed (img : attrs) :
  existsb (fun name => hasAttribute (str name) (cleanupImage resolveUrl origin img))
    removeAttrs = false.
Proof.
  apply not_true_is_false. intros H.
  apply existsb_exists in H as (name & Hin & H).
  unfold hasAttribute, cleanupImage in H.
  by rewrite getAttribute_removeEach_in in H.
Qed.

Lemma cleanupImage_untidy (t : jsstring) (img : attrs) :
  untidy t (cleanupImage resolveUrl origin img) = false.
Proof.
  unfold untidy. destruct (cleanupImage_alt img) as [v ->].
  rewrite cleanupImage_removed. apply andb_false_r.
Qed.

Lemma cleanupNode_untidy (n : node) :
  findFirst untidy (cleanupNode resolveUrl origin n) = None.
Proof.
  induction n as [s|t a kids IH] using node_rect_nested; [done|].
  cbn [cleanupNode]. rewrite findFirst_Elem.
  assert (untidy t (if Js.eqb t (str "img") then cleanupImage resolveUrl origin a else a)
          = false) as ->.
  { destruct (Js.eqb t (str "img")) eqn:E; [apply cleanupImage_untidy|].
    unfold untidy. by rewrite E. }
  apply querySelector_None. rewrite List.Forall_forall in IH.
  apply List.Forall_forall. intros k' Hk'.
  apply in_map_iff in Hk' as (k & <- & Hk). by apply IH.
Qed.

(** X13. After [cleanupImages], every image below the container has a
    non-empty alternative text and none of the attributes that the pass
    removes. *)
Theorem cleanupImages_tidy (container : node) :
  querySelector untidy (kidsOf (cleanupImages resolveUrl origin container)) = None.
Proof.
  destruct container as [s|t a kids]; [done|].
  simpl. apply querySelector_None.
  apply List.Forall_forall. intros k' Hk'.
  apply in_map_iff in Hk' as (k & <- & Hk). apply cleanupNode_untidy.
Qed.

(** X14. An image that has a source before the pass has one after it: the
    pass may put another address in its place, but never removes or
    empties it. *)
Theorem cleanupImage_keeps_src (img : attrs) :
  nonEmpty "src" img <> None ->
  nonEmpty "src" (cleanupImage resolveUrl origin img) <> None.
Proof.
  intros Hsrc. destruct (nonEmpty "src" img) as [v|] eqn:E; [|done]. clear Hsrc.
  apply nonEmpty_Some in E as [Hv E].
  unfold cleanupImage.
  set (a1 := match resolveBestImageUrl resolveUrl origin img with
             | [] => img
             | c :: r => setAttribute (str "src") (c :: r) img
             end).
  assert (exists w, w <> [] /\ getAttribute (str "src") a1 = Some w) as (w & Hw & Ha1).
  { unfold a1. destruct (resolveBestImageUrl resolveUrl origin img) as [|c r]; [by eauto|].
    exists (c :: r). split; [done|]. apply getAttribute_setAttribute_eq. }
  assert (forall a2, getAttribute (str "src") a2 = Some w ->
            nonEmpty "src" (foldl (fun a name => removeAttribute (str name) a) a2 removeAttrs)
            <> None) as Hfin.
  { intros a2 Ha2. erewrite nonEmpty_intro; [done|exact Hw|].
    rewrite getAttribute_removeEach_out; [done|apply removed_not_alt_src]. }
  destruct (nonEmpty "alt" a1); apply Hfin; [done|].
  rewrite getAttribute_setAttribute_ne; [done|by vm_compute].
Qed.

End ImageCleanup.

Lemma cleanupImage_keeps_src_witness :
  Images.nonEmpty "src"
    (Images.cleanupImage (fun _ _ => None) (str "https://wiki.example")
       [(str "src", str "blob:https://wiki.example/1"); (str "data-width", str "10")])
  <> None.
Proof.
  apply (cleanupImage_keeps_src (fun _ _ => None) (str "https://wiki.example")
           [(str "src", str "blob:https://wiki.example/1"); (str "data-width", str "10")]).
  by vm_compute.
Defined.

(* ===================================================================== *)
(** * Properties of the title of the page *)
(* ===================================================================== *)

Section PageTitle.
Import Promote Popup Title.

Lemma firstTitle_trimmed (doc : page) (sels : list jsstring) (t : jsstring) :
  firstTitle doc sels = Some t -> exists text, t = trim text /\ t <> [].
Proof.
  induction sels as [|sel sels IH]; [done|]. simpl.
  destruct (textOf doc sel) as [text|]; [|exact IH].
  destruct (trim text) as [|c r] eqn:E; [exact IH|].
  intros [= <-]. exists text. by rewrite E.
Qed.

(** X15. The title never starts or ends with white space, whether it comes
    from a heading of the page or from the title of the document; and a
    title taken from a heading is not empty. *)
Theorem findTitle_trimmed (doc : page) :
  (forall c, head (findTitle doc) = Some c -> isSpace c = false)
  /\ (forall c, list.last (findTitle doc) = Some c -> isSpace c = false)
  /\ (firstTitle doc titleSelectors <> None -> findTitle doc <> []).
Proof.
  unfold findTitle. destruct (firstTitle doc titleSelectors) as [t|] eqn:E.
  - apply firstTitle_trimmed in E as (text & -> & Hne).
    split_and!; [apply trim_ends | apply trim_ends | done].
  - split_and!; [apply trim_ends | apply trim_ends | done].
Qed.

Lemma dropWhile_app_found (p : N -> bool) (x rest : jsstring) (e : N) (r : jsstring) :
  dropWhile p x = e :: r -> dropWhile p (x ++ rest) = e :: r ++ rest.
Proof.
  induction x as [|c x IH]; [done|]. simpl.
  destruct (p c); [exact IH|]. by intros [= <- <-].
Qed.

Lemma dropWhile_all (p : N -> bool) (x rest : jsstring) :
  Forall (fun c => p c = true) x -> dropWhile p (x ++ rest) = dropWhile p rest.
Proof.
  induction 1 as [|c x Hc _ IH]; [done|]. simpl. by rewrite Hc.
Qed.

Lemma suffixAt_no_dash (word x rest : jsstring) (e : N) :
  Forall (fun c => isDash c = false) x ->
  e ∈ x -> isSpace e = false ->
  suffixAt word (x ++ rest) = false.
Proof.
  intros Hx He Hsp. unfold suffixAt.
  assert (exists e' r, dropWhile isSpace x = e' :: r /\ e' ∈ x) as (e' & r & Hd & He').
  { clear Hx. induction x as [|c x IH]; [by apply elem_of_nil in He|].
    simpl. destruct (isSpace c) eqn:E.
    - apply elem_of_cons in He as [->|He]; [congruence|].
      destruct (IH He) as (e' & r & Hd & He'). exists e', r. split; [done|by right].
    - exists c, x. split; [done|by left]. }
  rewrite (dropWhile_app_found _ _ rest _ _ Hd).
  rewrite List.Forall_forall in Hx. apply list_elem_of_In in He'.
  by rewrite (Hx e' He').
Qed.

Lemma stripSuffix_no_dash (word x : jsstring) :
  Forall (fun c => isDash c = false) x -> stripSuffix word x = x.
Proof.
  induction 1 as [|c x Hc Hx IH]; [done|].
  cbn [stripSuffix].
  assert (suffixAt word (c :: x) = false) as ->.
  { unfold suffixAt. destruct (dropWhile isSpace (c :: x)) as [|d r] eqn:E; [done|].
    assert (d ∈ c :: x) as Hd by (apply (elem_of_dropWhile isSpace); rewrite E; by left).
    apply elem_of_cons in Hd as [->|Hd]; [by rewrite Hc|].
    rewrite List.Forall_forall in Hx. apply list_elem_of_In in Hd.
    by rewrite (Hx d Hd). }
  by rewrite IH.
Qed.

Lemma stripSuffix_found (word x sep1 sep2 after : jsstring) (d : N) :
  Forall (fun c => isDash c = false) x ->
  (forall c, list.last x = Some c -> isSpace c = false) ->
  Forall (fun c => isSpace c = true) sep1 ->
  Forall (fun c => isSpace c = true) sep2 ->
  isDash d = true ->
  startsWithCI word after = true ->
  Forall (fun c => notLineTerminator c = true) after ->
  isSpace (default 0%N (head after)) = false ->
  stripSuffix word (x ++ sep1 ++ d :: sep2 ++ after) = x.
Proof.
  intros Hx Hlast Hs1 Hs2 Hd Hword Hafter Hhead.
  assert (Hrest : suffixAt word (sep1 ++ d :: sep2 ++ after) = true).
  { unfold suffixAt. rewrite dropWhile_all by done.
    assert (isSpace d = false) as Hdsp.
    { unfold isDash in Hd. destruct (isSpace d) eqn:E; [|done].
      apply orb_true_iff in Hd as [Hd|Hd];
        [apply orb_true_iff in Hd as [Hd|Hd]|]; apply N.eqb_eq in Hd; by subst d. }
    simpl. rewrite Hdsp, Hd. rewrite dropWhile_all by done.
    assert (dropWhile isSpace after = after) as ->.
    { destruct after as [|a after']; [done|]. simpl in *. by rewrite Hhead. }
    rewrite Hword. simpl. apply forallb_forall. intros c Hc.
    rewrite List.Forall_forall in Hafter. apply Hafter.
    apply list_elem_of_In. apply list_elem_of_In in Hc.
    apply list_elem_of_lookup_1 in Hc as [i Hi].
    rewrite lookup_drop in Hi. by eapply list_elem_of_lookup_2. }
  induction x as [|c x IH].
  - simpl. destruct sep1; simpl in *; by rewrite Hrest.
  - apply List.Forall_cons_iff in Hx as [Hc Hx].
    change ((c :: x) ++ sep1 ++ d :: sep2 ++ after)
      with (c :: (x ++ sep1 ++ d :: sep2 ++ after)).
    cbn [stripSuffix].
    assert (suffixAt word (c :: x ++ sep1 ++ d :: sep2 ++ after) = false) as ->.
    { assert (exists e, list.last (c :: x) = Some e) as [e He].
      { destruct (list.last (c :: x)) eqn:E; [by eauto|].
        by apply last_None in E. }
      apply (suffixAt_no_dash word (c :: x) _ e).
      - by constructor.
      - apply last_Some in He as [l' ->]. apply elem_of_app. right. by left.
      - by apply Hlast. }
    f_equal. destruct x as [|c' x'].
    + simpl. destruct sep1; simpl in *; by rewrite Hrest.
    + apply IH; [done|]. intros e He. apply Hlast. exact He.
Qed.

Lemma isDash_not_space (c : N) : isDash c = true -> isSpace c = false.
Proof.
  unfold isDash. intros Hd.
  apply orb_true_iff in Hd as [Hd|Hd];
    [apply orb_true_iff in Hd as [Hd|Hd]|]; apply N.eqb_eq in Hd; by subst c.
Qed.

Lemma startsWithCI_confluence_head (after : jsstring) :
  startsWithCI (str "confluence") after = true ->
  isSpace (default 0%N (head after)) = false.
Proof.
  unfold startsWithCI. destruct after as [|a after']; [done|].
  change (startsWith (99%N :: str "onfluence")
            (lowerUnit a :: (lowerUnit <$> take 9 after')) = true ->
          isSpace a = false).
  cbn [startsWith].
  intros [Ha _]%andb_true_iff. apply N.eqb_eq in Ha.
  unfold lowerUnit in Ha.
  destruct ((65 <=? a) && (a <=? 90))%N eqn:E.
  - assert (a = 67%N) as -> by lia. reflexivity.
  - by subst a.
Qed.

Lemma trim_core (lead core : jsstring) :
  Forall (fun c => isSpace c = true) lead ->
  (forall c, head core = Some c -> isSpace c = false) ->
  (forall c, list.last core = Some c -> isSpace c = false) ->
  trim (lead ++ core) = core.
Proof.
  intros Hlead Hhead Hlast. unfold trim, trimStart, trimEnd.
  rewrite dropWhile_all by done.
  assert (dropWhile isSpace core = core) as ->.
  { destruct core as [|c r]; [done|]. simpl. by rewrite (Hhead c eq_refl). }
  assert (dropWhile isSpace (rev core) = rev core) as ->.
  { destruct (rev core) as [|b r] eqn:E; [done|]. simpl.
    rewrite (Hlast b); [done|].
    rewrite <- (rev_involutive core), E. simpl. by rewrite last_snoc. }
  apply rev_involutive.
Qed.

(** X16. When no heading gives the title, it is taken from the title of the
    document, and the suffix that names the product is cut off: for a
    document title made of a name, a dash between optional white space,
    and a rest that starts with [Confluence] in any case and holds no line
    terminator, the title is the name, without the white space around
    it.  (The name holds no dash and is not blank at its ends.) *)
Theorem findTitle_strips_suffix (doc : page) (lead core sep1 sep2 after : jsstring)
    (d : N) :
  firstTitle doc titleSelectors = None ->
  documentTitle doc = lead ++ core ++ sep1 ++ d :: sep2 ++ after ->
  Forall (fun c => isSpace c = true) lead ->
  Forall (fun c => isSpace c = true) sep1 ->
  Forall (fun c => isSpace c = true) sep2 ->
  core <> [] ->
  Forall (fun c => isDash c = false) core ->
  (forall c, head core = Some c -> isSpace c = false) ->
  (forall c, list.last core = Some c -> isSpace c = false) ->
  isDash d = true ->
  startsWithCI (str "confluence") after = true ->
  Forall (fun c => notLineTerminator c = true) after ->
  findTitle doc = core.
Proof.
  intros Hnone Htitle Hlead Hsep1 Hsep2 Hne Hcore Hhead Hlast Hd Hword Hafter.
  unfold findTitle. rewrite Hnone, Htitle.
  assert (Hx : Forall (fun c => isDash c = false) (lead ++ core)).
  { apply Forall_app_2; [|done]. eapply List.Forall_impl; [|exact Hlead].
    intros c Hc. destruct (isDash c) eqn:E; [|done].
    apply isDash_not_space in E. congruence. }
  rewrite app_assoc.
  rewrite (stripSuffix_found (str "confluence") (lead ++ core) sep1 sep2 after d);
    try done.
  - rewrite stripSuffix_no_dash by done. by apply trim_core.
  - intros c Hc. apply Hlast.
    destruct core as [|c0 core'] using rev_ind; [done|].
    rewrite app_assoc, last_snoc in Hc. by rewrite last_snoc.
  - by apply startsWithCI_confluence_head.
Qed.

Lemma findTitle_strips_suffix_witness :
  findTitle (mkPage (fun _ => None) (str "  Design notes - Confluence"))
  = str "Design notes".
Proof.
  apply (findTitle_strips_suffix (mkPage (fun _ => None) (str "  Design notes - Confluence"))
           (str "  ") (str "Design notes") (str " ") (str " ") (str "Confluence") 45%N).
  - reflexivity.
  - reflexivity.
  - by repeat constructor.
  - by repeat constructor.
  - by repeat constructor.
  - done.
  - by repeat constructor.
  - intros c [= <-]. reflexivity.
  - intros c [= <-]. reflexivity.
  - reflexivity.
  - reflexivity.
  - by repeat constructor.
Defined.

End PageTitle.

(* ===================================================================== *)
(** * Properties of the usage counters *)
(* ===================================================================== *)

Section KeyOrder.
Import Analytics.

Lemma lexLe_refl (a : jsstring) : lexLe a a = true.
Proof.
  induction a as [|x a IH]; [done|]. simpl.
  by rewrite N.ltb_irrefl.
Qed.

Lemma lexLe_total (a b : jsstring) : lexLe a b = false -> lexLe b a = true.
Proof.
  revert b. induction a as [|x a IH]; intros [|y b]; try done. simpl.
  destruct (x <? y)%N eqn:E1; [done|].
  destruct (y <? x)%N eqn:E2; [done|]. apply IH.
Qed.

Lemma lexLe_trans (a b c : jsstring) :
  lexLe a b = true -> lexLe b c = true -> lexLe a c = true.
Proof.
  revert b c. induction a as [|x a IH]; intros [|y b] [|z c]; try done. simpl.
  destruct (x <? y)%N eqn:E1, (y <? x)%N eqn:E2,
           (y <? z)%N eqn:E3, (z <? y)%N eqn:E4,
           (x <? z)%N eqn:E5, (z <? x)%N eqn:E6;
    try done;
    repeat match goal with
           | H : (_ <? _)%N = true |- _ => apply N.ltb_lt in H
           | H : (_ <? _)%N = false |- _ => apply N.ltb_ge in H
           end; try lia.
  apply IH.
Qed.

Lemma lexLe_antisym (a b : jsstring) :
  lexLe a b = true -> lexLe b a = true -> a = b.
Proof.
  revert b. induction a as [|x a IH]; intros [|y b]; try done. simpl.
  destruct (x <? y)%N eqn:E1, (y <? x)%N eqn:E2; try done;
    repeat match goal with
           | H : (_ <? _)%N = true |- _ => apply N.ltb_lt in H
           | H : (_ <? _)%N = false |- _ => apply N.ltb_ge in H
           end; try lia.
  intros H1 H2. assert (x = y) as -> by lia. f_equal. by apply IH.
Qed.

Lemma insertKey_Permutation (k : jsstring) (l : list jsstring) :
  insertKey k l ≡ₚ k :: l.
Proof.
  induction l as [|x r IH]; [done|]. simpl.
  destruct (lexLe k x); [done|]. rewrite IH. apply Permutation_swap.
Qed.

Lemma insertKey_ascending (k : jsstring) (l : list jsstring) :
  ascending l -> ascending (insertKey k l).
Proof.
  induction l as [|x r IH]; [by split|]. simpl. intros [Hx Hr].
  destruct (lexLe k x) eqn:E.
  - split; [|by split]. constructor; [done|].
    eapply List.Forall_impl; [|exact Hx]. intros y Hy. by eapply lexLe_trans.
  - split; [|by apply IH].
    rewrite insertKey_Permutation. constructor; [by apply lexLe_total|done].
Qed.

Lemma sortedKeys_Permutation {A} (m : gmap jsstring A) :
  sortedKeys m ≡ₚ (map_to_list m).*1.
Proof.
  unfold sortedKeys. induction ((map_to_list m).*1) as [|k l IH]; [done|].
  simpl. by rewrite insertKey_Permutation, IH.
Qed.

Lemma sortedKeys_ascending {A} (m : gmap jsstring A) : ascending (sortedKeys m).
Proof.
  unfold sortedKeys. induction ((map_to_list m).*1) as [|k l IH]; [done|].
  simpl. by apply insertKey_ascending.
Qed.

Lemma sortedKeys_NoDup {A} (m : gmap jsstring A) : NoDup (sortedKeys m).
Proof. rewrite sortedKeys_Permutation. apply NoDup_fst_map_to_list. Qed.

Lemma elem_of_sortedKeys {A} (m : gmap jsstring A) (k : jsstring) :
  k ∈ sortedKeys m <-> is_Some (m !! k).
Proof.
  rewrite sortedKeys_Permutation, list_elem_of_fmap. split.
  - intros ([k' v] & -> & H). apply elem_of_map_to_list in H. by exists v.
  - intros [v Hv]. exists (k, v). split; [done|]. by apply elem_of_map_to_list.
Qed.

Lemma length_sortedKeys {A} (m : gmap jsstring A) : length (sortedKeys m) = size m.
Proof.
  rewrite sortedKeys_Permutation, length_fmap. apply length_map_to_list.
Qed.

End KeyOrder.

Section Pruning.
Import Analytics.

Lemma pruneLoop_lookup (keys : list jsstring) (m : gmap jsstring daily) (j : jsstring) :
  pruneLoop keys m !! j
  = if decide (j ∈ take (length keys - maxDailyEntries) keys) then None else m !! j.
Proof.
  revert m. induction keys as [|k r IH]; intros m.
  - cbn [pruneLoop]. destruct (decide _) as [H|]; [|done].
    rewrite take_nil in H. by apply elem_of_nil in H.
  - cbn [pruneLoop]. destruct (maxDailyEntries <? length (k :: r))%nat eqn:E.
    + apply Nat.ltb_lt in E. cbn [length] in E.
      replace (length (k :: r) - maxDailyEntries)%nat
        with (S (length r - maxDailyEntries)) by (cbn [length]; lia).
      rewrite IH. rewrite firstn_cons. clear IH.
      destruct (decide (j ∈ take (length r - maxDailyEntries) r)) as [Hin|Hout].
      * destruct (decide _) as [|H]; [done|]. exfalso. apply H. by right.
      * destruct (decide (j = k)) as [->|Hne].
        -- destruct (decide _) as [|H]; [|exfalso; apply H; by left].
           apply lookup_delete_eq.
        -- destruct (decide _) as [H|H].
           ++ apply elem_of_cons in H as [?|?]; done.
           ++ by apply lookup_delete_ne.
    + apply Nat.ltb_ge in E. cbn [length] in E. clear IH.
      replace (length (k :: r) - maxDailyEntries)%nat with 0%nat by (cbn [length]; lia).
      destruct (decide _) as [H|]; [|done]. by apply elem_of_nil in H.
Qed.

Lemma pruneLoop_size (keys : list jsstring) (m : gmap jsstring daily) :
  NoDup keys ->
  (forall k, k ∈ keys -> is_Some (m !! k)) ->
  size (pruneLoop keys m) = (size m - (length keys - maxDailyEntries))%nat.
Proof.
  revert m. induction keys as [|k r IH]; intros m Hnd Hin.
  - simpl. lia.
  - cbn [pruneLoop]. destruct (maxDailyEntries <? length (k :: r))%nat eqn:E.
    + apply Nat.ltb_lt in E. cbn [length] in E.
      apply NoDup_cons in Hnd as [Hk Hnd].
      rewrite IH; [|done|].
      * rewrite map_size_delete_Some by (apply Hin; by left). cbn [length]. lia.
      * intros k' Hk'. rewrite lookup_delete_ne by (intros ->; done).
        apply Hin. by right.
    + apply Nat.ltb_ge in E. cbn [length] in *. lia.
Qed.

Lemma ascending_split (pre post : list jsstring) (x y : jsstring) :
  ascending (pre ++ post) -> x ∈ pre -> y ∈ post -> lexLe x y = true.
Proof.
  induction pre as [|a pre IH]; intros Hasc Hx Hy; [by apply elem_of_nil in Hx|].
  destruct Hasc as [Ha Hasc].
  apply elem_of_cons in Hx as [->|Hx]; [|by apply IH].
  rewrite List.Forall_forall in Ha. apply Ha, list_elem_of_In, elem_of_app. by right.
Qed.

(** X17. Pruning keeps the 90 latest days: the number of entries afterwards
    is the smaller of 90 and the number before, every entry that is left
    is as it was, and every day that went sorts before every day that
    stayed. *)
Theorem pruneDailyStats_keeps_latest (d : data) :
  let before := dailyStats d in
  let after := dailyStats (pruneDailyStats d) in
  size after = (size before `min` 90)%nat
  /\ (forall k e, after !! k = Some e -> before !! k = Some e)
  /\ (forall k k', is_Some (before !! k) -> after !! k = None -> is_Some (after !! k') ->
        lexLe k k' = true /\ k <> k').
Proof.
  intros before after.
  assert (Hlook : forall j,
            after !! j
            = if decide (j ∈ take (size before - maxDailyEntries) (sortedKeys before))
              then None else before !! j).
  { intros j. unfold after, pruneDailyStats. simpl.
    rewrite pruneLoop_lookup. by rewrite length_sortedKeys. }
  split_and!.
  - unfold after, before, pruneDailyStats. simpl.
    rewrite pruneLoop_size.
    + rewrite length_sortedKeys. unfold maxDailyEntries. lia.
    + apply sortedKeys_NoDup.
    + intros k. apply elem_of_sortedKeys.
  - intros k e. rewrite Hlook. by destruct (decide _).
  - intros k k' Hk Hgone Hkept. rewrite Hlook in Hgone, Hkept.
    destruct (decide (k ∈ take (size before - maxDailyEntries) (sortedKeys before)))
      as [Hin|Hout]; [|destruct Hk as [e He]; congruence].
    destruct (decide (k' ∈ take (size before - maxDailyEntries) (sortedKeys before)))
      as [Hin'|Hout']; [by destruct Hkept|].
    split; [|intros ->; done].
    apply elem_of_sortedKeys in Hkept.
    rewrite <- (take_drop (size before - maxDailyEntries) (sortedKeys before)) in Hkept.
    apply elem_of_app in Hkept as [?|Hdrop]; [done|].
    eapply ascending_split; [|exact Hin|exact Hdrop].
    rewrite take_drop. apply sortedKeys_ascending.
Qed.

End Pruning.

Section Counters.
Import Analytics.

Lemma sum_commute (j1 j2 : jsstring) (z1 z2 y : N) :
  (z1 + (z2 + y) = z2 + (z1 + y))%N.
Proof. lia. Qed.

Lemma countedPages_insert (m : gmap jsstring N) (key : jsstring) (v : N) :
  map_fold (fun _ v acc => (v + acc)%N) 0%N (<[key := v]> m)
  = (v + map_fold (fun _ v acc => (v + acc)%N) 0%N (delete key m))%N.
Proof.
  rewrite <- insert_delete_eq.
  rewrite map_fold_insert_L; [done| |apply lookup_delete_eq].
  intros. apply sum_commute; done.
Qed.

Lemma countedPages_lookup (m : gmap jsstring N) (key : jsstring) :
  map_fold (fun _ v acc => (v + acc)%N) 0%N m
  = (default 0%N (m !! key)
     + map_fold (fun _ v acc => (v + acc)%N) 0%N (delete key m))%N.
Proof.
  destruct (m !! key) as [v|] eqn:E.
  - rewrite (map_fold_delete_L _ _ key v m); [done| |done].
    intros. apply sum_commute; done.
  - by rewrite delete_id.
Qed.

Lemma load_Some (c : clock) (d : data) : load c (Some d) = d.
Proof. reflexivity. Qed.

Lemma ensureDaily_counts (c : clock) (d : data) :
  totalConversions (ensureDaily c d) = totalConversions d
  /\ totalCopies (ensureDaily c d) = totalCopies d
  /\ totalDownloads (ensureDaily c d) = totalDownloads d
  /\ pageTypes (ensureDaily c d) = pageTypes d.
Proof. unfold ensureDaily. by destruct (dailyStats d !! today c). Qed.

Lemma consistent_load (c : clock) (st : storage) :
  consistent st -> countedPages (load c st) = totalConversions (load c st).
Proof. destruct st as [d|]; [done|]. intros _. reflexivity. Qed.

Lemma belowLimit_load (c : clock) (st : storage) :
  belowLimit st -> (totalConversions (load c st) < limit)%N.
Proof. destruct st as [d|]; [done|]. intros _. reflexivity. Qed.

(** X18. The counts of the page types always add up to the total number of
    conversions: this holds for new storage and after a reset, and each
    operation keeps it, as long as the total is below 2^53. *)
Theorem pageTypes_account_for_conversions (c : clock) (pt : option Popup.pageType)
    (o : option options) (st : storage) :
  consistent st ->
  belowLimit st ->
  consistent (trackConversion c pt o st)
  /\ consistent (trackCopy c st)
  /\ consistent (trackDownload c st)
  /\ consistent (trackPopupOpen c st)
  /\ consistent (reset c st).
Proof.
  intros Hcons Hlim.
  apply (consistent_load c) in Hcons. apply (belowLimit_load c) in Hlim.
  destruct (ensureDaily_counts c (load c st)) as (Ht & _ & _ & Hp).
  split_and!.
  - unfold trackConversion, consistent, countedPages, pruneDailyStats. simpl.
    rewrite Ht, Hp. unfold countedPages in Hcons.
    rewrite countedPages_insert.
    rewrite (countedPages_lookup _ (pageTypeKey pt)) in Hcons.
    set (v := default 0%N (pageTypes (load c st) !! pageTypeKey pt)) in *.
    set (rest := map_fold _ _ (delete _ _)) in *.
    unfold increment.
    destruct (v <? limit)%N eqn:E1; [|apply N.ltb_ge in E1; lia].
    destruct (totalConversions (load c st) <? limit)%N eqn:E2;
      [|apply N.ltb_ge in E2; lia].
    lia.
  - unfold trackCopy, consistent, countedPages. simpl. by rewrite Ht, Hp.
  - unfold trackDownload, consistent, countedPages. simpl. by rewrite Ht, Hp.
  - exact Hcons.
  - reflexivity.
Qed.

Lemma pageTypes_account_for_conversions_witness :
  consistent (trackConversion (mkClock (str "2026-02-13T10:00:00.000Z") (str "2026-02-13"))
                (Some Popup.Cloud) None None).
Proof.
  apply (pageTypes_account_for_conversions
           (mkClock (str "2026-02-13T10:00:00.000Z") (str "2026-02-13"))
           (Some Popup.Cloud) None None); exact I.
Defined.

End Counters.

Section Summary.
Import Analytics.

Lemma pruneLoop_keeps_latest (m : gmap jsstring daily) (t : jsstring) :
  is_Some (m !! t) ->
  (forall k, is_Some (m !! k) -> lexLe k t = true) ->
  pruneLoop (sortedKeys m) m !! t = m !! t.
Proof.
  intros Ht Hmax. rewrite pruneLoop_lookup.
  destruct (decide _) as [Hin|]; [|done]. exfalso.
  set (j := (length (sortedKeys m) - maxDailyEntries)%nat) in *.
  pose proof (sortedKeys_NoDup m) as Hnd.
  pose proof (sortedKeys_ascending m) as Hasc.
  rewrite <- (take_drop j (sortedKeys m)) in Hnd, Hasc.
  apply NoDup_app in Hnd as (_ & Hdisj & _).
  destruct (drop j (sortedKeys m)) as [|y rest] eqn:E.
  - assert (length (drop j (sortedKeys m)) = 0%nat) as Hlen by (by rewrite E).
    rewrite length_drop in Hlen.
    assert (j = 0%nat) as Hj by (unfold j, maxDailyEntries in *; lia).
    rewrite Hj in Hin. by apply elem_of_nil in Hin.
  - assert (y ∈ sortedKeys m) as Hy.
    { rewrite <- (take_drop j (sortedKeys m)), E. apply elem_of_app. right. by left. }
    apply elem_of_sortedKeys in Hy.
    assert (lexLe t y = true) as H1.
    { eapply ascending_split; [exact Hasc|exact Hin|by left]. }
    pose proof (lexLe_antisym _ _ H1 (Hmax y Hy)) as ->.
    apply (Hdisj y Hin). by left.
Qed.

Lemma ensureDaily_today (c : clock) (d : data) :
  dailyStats (ensureDaily c d) !! today c
  = Some (default (mkDaily 0 0 0) (dailyStats d !! today c)).
Proof.
  unfold ensureDaily. destruct (dailyStats d !! today c) as [e|] eqn:E; [done|].
  simpl. apply lookup_insert_eq.
Qed.

Lemma ensureDaily_keys (c : clock) (d : data) (k : jsstring) :
  is_Some (dailyStats (ensureDaily c d) !! k) ->
  k = today c \/ is_Some (dailyStats d !! k).
Proof.
  unfold ensureDaily. destruct (dailyStats d !! today c) as [e|] eqn:E; [by right|].
  simpl. destruct (decide (k = today c)) as [->|Hne]; [by left|].
  rewrite lookup_insert_ne by done. by right.
Qed.

(** X19. When the clock has not gone back (no stored day sorts after today),
    a conversion shows in the summary: the total and the count of today
    are each one more than before, while the numbers of copies and
    downloads stay; pruning never takes the entry of today. *)
Theorem trackConversion_summary (c : clock) (pt : option Popup.pageType)
    (o : option options) (st : storage) :
  (forall k, is_Some (dailyStats (load c st) !! k) -> lexLe k (today c) = true) ->
  (sumConversions (getSummary c st) < limit)%N ->
  (todayConversions (getSummary c st) < limit)%N ->
  let s := getSummary c st in
  let s' := getSummary c (trackConversion c pt o st) in
  sumConversions s' = (sumConversions s + 1)%N
  /\ todayConversions s' = (todayConversions s + 1)%N
  /\ sumCopies s' = sumCopies s
  /\ sumDownloads s' = sumDownloads s.
Proof.
  intros Hmax Htotal Htoday s s'. subst s s'.
  unfold getSummary in *. cbn [sumConversions todayConversions sumCopies sumDownloads] in *.
  unfold trackConversion. rewrite load_Some.
  set (d0 := load c st) in *.
  destruct (ensureDaily_counts c d0) as (Ht & Hc & Hd & _).
  pose proof (ensureDaily_today c d0) as He.
  set (e := default (mkDaily 0 0 0) (dailyStats d0 !! today c)) in *.
  unfold pruneDailyStats. cbn [totalConversions totalCopies totalDownloads dailyStats withDaily].
  rewrite Ht, Hc, Hd.
  assert (forall n, (n < limit)%N -> increment n = (n + 1)%N) as Hinc.
  { intros n Hn. unfold increment. apply N.ltb_lt in Hn. by rewrite Hn. }
  split_and!; [by apply Hinc| |done|done].
  unfold bumpDaily. rewrite He.
  rewrite pruneLoop_keeps_latest.
  - rewrite lookup_insert_eq. simpl. by apply Hinc.
  - rewrite lookup_insert_eq. by eexists.
  - intros k Hk. destruct (decide (k = today c)) as [->|Hne]; [apply lexLe_refl|].
    rewrite lookup_insert_ne in Hk by done.
    apply ensureDaily_keys in Hk as [->|Hk]; [apply lexLe_refl|by apply Hmax].
Qed.

Lemma trackConversion_summary_witness :
  let c := mkClock (str "2026-02-13T10:00:00.000Z") (str "2026-02-13") in
  let st := Some (mkData (str "2026-02-01T08:00:00.000Z") (str "2026-02-12T09:00:00.000Z")
                    3 1 0 {[ str "Cloud" := 3%N ]} (mkUsage 0 0 0)
                    {[ str "2026-02-12" := mkDaily 3 1 0 ]}) in
  sumConversions (getSummary c (trackConversion c (Some Popup.Cloud) None st)) = 4%N
  /\ todayConversions (getSummary c (trackConversion c (Some Popup.Cloud) None st)) = 1%N.
Proof.
  intros c st.
  destruct (trackConversion_summary c (Some Popup.Cloud) None st) as (H1 & H2 & _).
  - intros k [e Hk]. simpl in Hk.
    apply lookup_singleton_Some in Hk as [<- _]. reflexivity.
  - reflexivity.
  - reflexivity.
  - split; [exact H1|exact H2].
Defined.

End Summary.

(* ===================================================================== *)
(** * More properties of the image embedding *)
(* ===================================================================== *)

Section EmbeddingFrame.
Import Embed.

Lemma removeAttribute_setAttribute (name v : jsstring) (a : attrs) :
  removeAttribute name (setAttribute name v a) = removeAttribute name a.
Proof.
  induction a as [|[k x] a IH]; simpl.
  - unfold Js.eqb. by rewrite bool_decide_eq_true_2.
  - destruct (Js.eqb k name) eqn:E; simpl; rewrite E; [done|]. by rewrite IH.
Qed.

Lemma fetchAndEmbedImage_cases (w : world) (img : image) :
  fetchAndEmbedImage w img = Resolved img
  \/ (embedded img = false
      /\ exists v, fetchAndEmbedImage w img = Resolved (setAttribute (str "src") v img)).
Proof.
  unfold fetchAndEmbedImage, embedded.
  destruct (startsWith (str "data:") (srcOf img)) eqn:E at 1 2 3; [by left|].
  repeat case_match; eauto.
Qed.

(** X20. Embedding works on the [src] attribute and on nothing else: for
    every image, in the order of the document, the promise resolves, the
    image keeps all its other attributes, and an image whose source is a
    data URI already is left as it is. *)
Theorem embedImagesAsBase64_frame (w : world) (images : list image) :
  Forall2
    (fun img p =>
       exists img', p = Resolved img'
                    /\ removeAttribute (str "src") img' = removeAttribute (str "src") img
                    /\ (embedded img = true -> img' = img))
    images (embedImagesAsBase64 w images).
Proof.
  rewrite embedImagesAsBase64_map. apply Forall2_fmap_r, Forall_Forall2_diag.
  apply Forall_true. intros img. unfold compose.
  destruct (fetchAndEmbedImage_cases w img) as [->|(Hemb & v & ->)].
  - exists img. by split_and!.
  - eexists. split; [reflexivity|].
    split; [apply removeAttribute_setAttribute|]. rewrite Hemb. done.
Qed.

End EmbeddingFrame.

(* ===================================================================== *)
(** * More properties of the table normalization *)
(* ===================================================================== *)

Section PromotionFrame.
Import Promote PromoteSpec.

Variable reparse : list node -> list node.




End PromotionFrame.

Section HeaderSection.
Import Sectioning.

Lemma findSection_None_own (tag : jsstring) (k : nat) (t : table) :
  findSection tag k t = None -> Forall (fun s => ownTag s <> tag) t.
Proof.
  revert k. induction t as [|s t IH]; intros k H; [constructor|].
  simpl in H. destruct (Js.eqb (ownTag s) tag) eqn:E; [done|].
  unfold Js.eqb in E. apply bool_decide_eq_false in E.
  constructor; [done|].
  destruct s as [rs|rs|rs|r|[x|tg a kids]]; simpl in H;
    repeat (match type of H with
            | context [match ?x with _ => _ end] => destruct x; try done
            | context [if ?x then _ else _] => destruct x; try done
            end);
    by eapply IH.
Qed.

Lemma no_own_thead (t : table) :
  Forall (fun s => ownTag s <> str "thead") t ->
  Forall (fun s => theadRows s = []) t.
Proof.
  apply List.Forall_impl. intros s Hs. by destruct s.
Qed.

Lemma removeRowAt_Forall (P : section -> Prop) (k j : nat) (t : table) :
  Forall P t ->
  (forall rs, P (THead rs) -> P (THead (delete j rs))) ->
  (forall rs, P (TBody rs) -> P (TBody (delete j rs))) ->
  (forall rs, P (TFoot rs) -> P (TFoot (delete j rs))) ->
  Forall P (removeRowAt k j t).
Proof.
  intros Ht H1 H2 H3. unfold removeRowAt.
  destruct (t !! k) as [s|] eqn:E; [|done].
  pose proof (Forall_lookup_1 _ _ _ _ Ht E) as Hs.
  destruct s as [rs|rs|rs|r|n]; try done.
  - apply Forall_insert; auto.
  - apply Forall_insert; auto.
  - apply Forall_insert; auto.
  - by apply Forall_delete.
Qed.

Lemma rowsOf_filter_other (f : section -> list row) (t : table) :
  (forall r, f (DirectRow r) = []) ->
  rowsOf f (base.filter (fun s => isDirectRow s = false) t) = rowsOf f t.
Proof.
  intros Hf. induction t as [|s t IH]; [done|].
  rewrite filter_cons. destruct s as [rs|rs|rs|r|n]; simpl;
    try (rewrite !rowsOf_cons; by rewrite IH).
  rewrite rowsOf_cons, Hf. exact IH.
Qed.

Lemma rowsOf_body_no_tbody (t : table) :
  Forall (fun s => ownTag s <> str "tbody") t ->
  rowsOf bodyRows t = directRows t
  /\ rowsOf bodyRows (base.filter (fun s => isDirectRow s = false) t) = [].
Proof.
  induction 1 as [|s t Hs _ [IH1 IH2]]; [done|].
  rewrite filter_cons, rowsOf_cons. unfold directRows in *. rewrite fmap_cons. simpl.
  destruct s as [rs|rs|rs|r|n]; simpl; try done;
    try (rewrite ?rowsOf_cons; simpl; by rewrite ?IH1, ?IH2).
Qed.

(** X22. In a table that holds no header section, nested tables included,
    [ensureThead] returns, and [table.rows] lists the same rows in the
    same order afterwards.  When the first row consists of header cells,
    it is then the one row of the table's header section; otherwise the
    table is left as it is. *)
Theorem ensureThead_wraps_first_row (t : table) (firstRow : row) (rest : list row) :
  findSection (str "thead") 0 t = None ->
  tableRows t = firstRow :: rest ->
  exists t', ensureThead t = Done t'
    /\ tableRows t' = tableRows t
    /\ (forallb isTh (rowCells firstRow) = true -> rowsOf theadRows t' = [firstRow])
    /\ (forallb isTh (rowCells firstRow) = false -> t' = t).
Proof.
  intros Hnone Hrows.
  pose proof (no_own_thead t (findSection_None_own _ _ _ Hnone)) as Hhead.
  assert (Hheads : rowsOf theadRows t = []) by (by apply rowsOf_nil_Forall).
  unfold ensureThead. rewrite Hrows.
  destruct (firstRowPlace t) as [[fk fj]|] eqn:Eplace.
  2:{ apply firstRowPlace_None in Eplace. congruence. }
  change (concat (theadRows <$> t)) with (rowsOf theadRows t). rewrite Hheads.
  rewrite bool_decide_eq_true_2 by done. cbn [negb].
  destruct (forallb isTh (rowCells firstRow)) eqn:Eth; cbn [negb].
  2:{ exists t. by split_and!. }
  rewrite Hnone. cbv zeta.
  set (t1 := THead [firstRow] :: removeRowAt fk fj t).
  assert (Hrows1 : tableRows t1 = tableRows t).
  { unfold t1. rewrite Hrows.
    change (tableRows (THead [firstRow] :: removeRowAt fk fj t))
      with (firstRow :: tableRows (removeRowAt fk fj t)).
    rewrite tableRows_remove_first by done. by rewrite Hrows. }
  assert (Hhead1 : rowsOf theadRows t1 = [firstRow]).
  { unfold t1. rewrite rowsOf_cons. simpl.
    rewrite rowsOf_nil_Forall; [done|].
    apply removeRowAt_Forall; try done.
    simpl. by intros rs ->. }
  destruct (findSection (str "tbody") 0 t1) as [p|] eqn:Ebody.
  - exists t1.
    split_and!; [reflexivity | by rewrite Hrows1 | intros _; exact Hhead1 | done].
  - apply findSection_None_own in Ebody.
    destruct (rowsOf_body_no_tbody t1 Ebody) as [Hb1 Hb2].
    eexists. split; [reflexivity|]. split_and!; [| |done].
    + rewrite <- Hrows, <- Hrows1. rewrite !tableRows_rowsOf, !rowsOf_app.
      rewrite (rowsOf_filter_other theadRows), (rowsOf_filter_other tfootRows) by done.
      rewrite Hb2, Hb1.
      rewrite !rowsOf_cons. simpl. by rewrite !app_nil_r.
    + intros _. rewrite rowsOf_app, rowsOf_filter_other by done.
      rewrite Hhead1. reflexivity.
Qed.

Lemma ensureThead_wraps_first_row_witness :
  exists t',
    ensureThead [DirectRow (mkRow [] [mkCell TH [] [Text (str "Name")]]);
                 DirectRow (mkRow [] [mkCell TD [] [Text (str "Bob")]])] = Done t'
    /\ tableRows t' = [mkRow [] [mkCell TH [] [Text (str "Name")]];
                       mkRow [] [mkCell TD [] [Text (str "Bob")]]]
    /\ rowsOf theadRows t' = [mkRow [] [mkCell TH [] [Text (str "Name")]]].
Proof.
  destruct (ensureThead_wraps_first_row
              [DirectRow (mkRow [] [mkCell TH [] [Text (str "Name")]]);
               DirectRow (mkRow [] [mkCell TD [] [Text (str "Bob")]])]
              (mkRow [] [mkCell TH [] [Text (str "Name")]])
              [mkRow [] [mkCell TD [] [Text (str "Bob")]]]
              eq_refl eq_refl) as (t' & H1 & H2 & H3 & _).
  exists t'. split; [exact H1|]. split; [exact H2|]. exact (H3 eq_refl).
Defined.

End HeaderSection.

(** ** Cell linearization a second time *)

Section CleanTwice.
Import Sectioning Clean NormalForm.

Variable removeProperty : jsstring -> jsstring -> jsstring.

(** A style that has lost its two sizes has nothing left to lose. *)
Hypothesis removeProperty_settled : forall v,
  removeProperty (str "height") (removeProperty (str "width")
    (removeProperty (str "height") (removeProperty (str "width") v)))
  = removeProperty (str "height") (removeProperty (str "width") v).

Lemma collapse_is_collapsed (b : bool) (s : jsstring) :
  collapsed b (collapse b s) = true.
Proof.
  revert b. induction s as [|c s IH]; intros b; [done|].
  cbn [collapse]. destruct (isSpace c) eqn:E.
  - destruct b; [apply IH|].
    cbn [collapsed]. change (isSpace 32) with true. cbv iota.
    by rewrite IH.
  - cbn [collapsed]. rewrite E. apply IH.
Qed.

Lemma collapseText_collapsed (kids : list node) :
  forallb textCollapsed (collapseText <$> kids) = true.
Proof.
  induction kids as [|k kids IH]; [done|].
  rewrite fmap_cons. cbn [forallb]. rewrite IH, andb_true_r.
  destruct k as [s|]; [|done]. apply collapse_is_collapsed.
Qed.

Lemma collapseText_blockFree (kids : list node) :
  forallb (blockFree removeProperty) (collapseText <$> kids)
  = forallb (blockFree removeProperty) kids.
Proof.
  induction kids as [|k kids IH]; [done|].
  rewrite fmap_cons. cbn [forallb]. rewrite IH. by destruct k.
Qed.

Lemma stripSizing_sizingFree (a : attrs) :
  sizingFree removeProperty (stripSizing removeProperty a) = true.
Proof.
  unfold sizingFree, stripSizing, hasAttribute.
  set (a1 := removeAttribute (str "height") (removeAttribute (str "width") a)).
  assert (Hw : getAttribute (str "width") a1 = None).
  { unfold a1. apply getAttribute_removeAttribute_None.
    apply getAttribute_removeAttribute_eq. }
  assert (Hh : getAttribute (str "height") a1 = None)
    by apply getAttribute_removeAttribute_eq.
  destruct (getAttribute (str "style") a1) as [v|] eqn:Es.
  - rewrite !getAttribute_setAttribute_ne by done.
    rewrite Hw, Hh, getAttribute_setAttribute_eq.
    unfold Js.eqb. by rewrite bool_decide_eq_true_2.
  - by rewrite Hw, Hh, Es.
Qed.

Lemma cleanInside_blockFree (n : node) :
  forallb (blockFree removeProperty) (kidsOf (cleanInside removeProperty n)) = true
  /\ (match n with Elem t _ _ => isBlock t = false | Text _ => True end ->
      blockFree removeProperty (cleanInside removeProperty n) = true).
Proof.
  induction n as [s|t a kids IH] using node_rect_nested; [done|].
  assert (Hkids :
    forallb (blockFree removeProperty)
      (concat (map (fun k =>
                      match k with
                      | Text _ => [k]
                      | Elem kt _ _ =>
                          if isBlock kt
                          then kidsOf (cleanInside removeProperty k) ++ [br]
                          else [cleanInside removeProperty k]
                      end) kids)) = true).
  { induction IH as [|k kids [Hk1 Hk2] _ IHk]; [done|].
    cbn [map concat]. rewrite forallb_app, IHk, andb_true_r.
    destruct k as [s|kt ka kk]; [done|].
    destruct (isBlock kt) eqn:Eb.
    - by rewrite forallb_app, Hk1.
    - cbn [forallb]. by rewrite Hk2. }
  cbn [cleanInside]. cbv zeta.
  destruct (isCellTag t) eqn:Ec; cbn [kidsOf blockFree].
  - rewrite collapseText_blockFree, Hkids. split; [done|]. intros ->.
    by rewrite Ec, stripSizing_sizingFree, collapseText_collapsed.
  - rewrite Hkids. split; [done|]. intros ->. by rewrite Ec.
Qed.

Lemma unwrapNode_blockFree (n : node) (left right : nat) :
  forallb (blockFree removeProperty) (unwrapNode removeProperty left n right) = true.
Proof.
  revert left right.
  induction n as [s|t a kids IH] using node_rect_nested; intros left right; [done|].
  cbn [unwrapNode]. destruct (isBlock t) eqn:Eb.
  - cbv zeta. rewrite forallb_app.
    apply andb_true_iff. split; [|by destruct (_ =? _)%nat].
    generalize (if (left + 1 + right =? 1)%nat then right else S right).
    revert left. induction IH as [|k kids Hk _ IHk]; intros left r'; [done|].
    rewrite forallb_app, Hk. apply IHk.
  - cbn [forallb]. rewrite andb_true_r.
    apply (cleanInside_blockFree (Elem t a kids)). exact Eb.
Qed.

Lemma unwrapList_blockFree (kids : list node) (left right : nat) :
  forallb (blockFree removeProperty) (unwrapList removeProperty left kids right) = true.
Proof.
  revert left. induction kids as [|k kids IH]; intros left; [done|].
  cbn [unwrapList]. cbv zeta. by rewrite forallb_app, unwrapNode_blockFree, IH.
Qed.

Lemma cleanCell_linear (c : cell) :
  linearCell removeProperty (cleanCell removeProperty c) = true.
Proof.
  unfold linearCell, cleanCell. cbn [cellAttrs cellKids].
  by rewrite stripSizing_sizingFree, collapseText_blockFree,
    unwrapList_blockFree, collapseText_collapsed.
Qed.

Lemma cleanRows_linear (rs : list row) :
  forallb (fun r => forallb (linearCell removeProperty) (rowCells r))
    (cleanRow removeProperty <$> rs) = true.
Proof.
  apply forallb_forall. intros r' [r [-> _]]%list_elem_of_In%list_elem_of_fmap.
  apply forallb_forall. intros c' [c [-> _]]%list_elem_of_In%list_elem_of_fmap.
  apply cleanCell_linear.
Qed.

Lemma cleanOutside_linear (n : node) :
  linearOutside removeProperty (cleanOutside removeProperty n) = true.
Proof.
  induction n as [s|t a kids IH] using node_rect_nested; [done|].
  cbn [cleanOutside]. destruct (isCellTag t) eqn:Ec; cbn [linearOutside]; rewrite Ec.
  - by rewrite stripSizing_sizingFree, collapseText_blockFree,
      unwrapList_blockFree, collapseText_collapsed.
  - induction IH as [|k kids Hk _ IHk]; [done|].
    cbn [map forallb]. by rewrite Hk, IHk.
Qed.

Lemma cleanCellContent_linear (t : table) :
  forallb (linearSection removeProperty) (cleanCellContent removeProperty t) = true.
Proof.
  unfold cleanCellContent. induction t as [|s t IH]; [done|].
  rewrite fmap_cons. cbn [forallb]. rewrite IH, andb_true_r.
  destruct s as [rs|rs|rs|r|n]; cbn [linearSection sectionRows].
  - apply cleanRows_linear.
  - apply cleanRows_linear.
  - apply cleanRows_linear.
  - apply (cleanRows_linear [r]).
  - apply cleanOutside_linear.
Qed.

(** X23. Cleaning the cells of a table a second time changes nothing, as
    long as the browser leaves a style alone once the two sizes are gone
    from it: after one pass no p and no div is left in a cell, the text
    children hold single spaces only, and no width or height remains. *)
Theorem cleanCellContent_twice (t : table) :
  cleanCellContent removeProperty (cleanCellContent removeProperty t)
  = cleanCellContent removeProperty t.
Proof. apply cleanCellContent_same, cleanCellContent_linear. Qed.

End CleanTwice.

Lemma cleanCellContent_twice_witness :
  let t := [TBody [mkRow [] [mkCell TD [(str "width", str "40")]
                               [Elem (str "p") [] [Text (str "a  b")];
                                Elem (str "div") [] [Text (str "c")]]]]] in
  Clean.cleanCellContent RenderExample.keepStyle t
  = [TBody [mkRow [] [mkCell TD []
                        [Text (str "a b"); Clean.br; Text (str "c"); Clean.br]]]]
  /\ Clean.cleanCellContent RenderExample.keepStyle (Clean.cleanCellContent RenderExample.keepStyle t)
     = Clean.cleanCellContent RenderExample.keepStyle t.
Proof.
  split; [reflexivity|].
  apply (cleanCellContent_twice RenderExample.keepStyle). intros v. reflexivity.
Defined.

(** ** Span expansion of tables with ordinary spans *)

Section TameExpansion.
Import Num Expand ExpandSpec ExpandExample.

(** X24. For a table with rows whose span attributes all read as whole
    numbers from 1 to [2^53], and whose largest row sum of column spans is
    below [2^32], [expandMergedCells] returns; [getMaxColumns] is that
    largest sum; the table has the rows it had, with their attributes;
    every row has exactly that many cells, none with a [colspan] or
    [rowspan] attribute.  The cells are those that the run has placed:
    each placement is a cell of the row it was made in, and that cell,
    without its span attributes, stands at the place of the placement; a
    position that the spans of a placement cover holds the cell made for
    such a placement, which away from its own place is a cell without
    children that has its kind and its other attributes; and where no span
    reaches stands an empty data cell. *)
Theorem expandMergedCells_tame (t : table) :
  tableRows t <> [] ->
  Forall (fun r => Forall tameCell (rowCells r)) (tableRows t) ->
  let rows := rowCells <$> tableRows t in
  let w := foldr Z.max 0 ((fun r => exactWidth (rowCells r)) <$> tableRows t) in
  w < 2 ^ 32 ->
  exists t',
    expandMergedCells t = Done t' /\
    getMaxColumns t = Fin w /\
    let rows' := rowCells <$> tableRows t' in
    let tr := placements rows w in
    rowAttrs <$> tableRows t' = rowAttrs <$> tableRows t /\
    length rows' = length rows /\
    Forall (fun row' => Z.of_nat (length row') = w /\ Forall noSpanAttrs row') rows' /\
    (forall p, p ∈ tr ->
       Z.of_nat (plCol p) < w
       /\ exists src, rows !! plRow p = Some src /\ plCell p ∈ src) /\
    (forall p, p ∈ tr ->
       exists row', rows' !! plRow p = Some row'
                    /\ row' !! plCol p = Some (stripSpans (plCell p))) /\
    (forall r c, (r < length rows)%nat -> Z.of_nat c < w ->
       exists row', rows' !! r = Some row' /\
         ((exists q, q ∈ tr /\ covers q r c /\ row' !! c = Some (cellAt q r c))
          \/ ((forall q, q ∈ tr -> ~ covers q r c) /\ row' !! c = Some emptyTd))).
Proof.
  intros Hne Ht rows w Hw.
  destruct (expandMergedCells_returns t Ht Hw) as [Hm [t' Hdone]].
  fold w in Hm.
  destruct (expandMergedCells_cells t t' Hne Hdone)
    as (m & Hm' & _ & Ha & Hlen & Hrows & Hp & Hcells).
  pose proof (expandMergedCells_origins t t' Hne Hdone Ht Hw) as Hown.
  rewrite Hm in Hm'. injection Hm' as Hwm. fold w in Hown. clearbody w. subst w.
  exists t'. split; [done|]. split; [done|]. cbv zeta. split_and!; try done.
  - eapply List.Forall_impl; [|exact Hrows]. intros row' [<- ?]. done.
  - intros p Hin. destruct (Hp p Hin) as [? ?]. split; [lia|done].
  - intros r c Hr Hc. apply Hcells; [done|lia].
Qed.

Lemma expandMergedCells_tame_witness :
  exists t',
    expandMergedCells (spanTable TH) = Done t' /\
    getMaxColumns (spanTable TH) = Fin 3 /\
    length (tableRows t') = 2%nat.
Proof.
  destruct (expandMergedCells_tame (spanTable TH)) as (t' & Hd & Hm & _ & Hlen & _).
  - discriminate.
  - repeat constructor; eexists; (split; [vm_compute; reflexivity|lia]).
  - vm_compute. reflexivity.
  - exists t'. split; [exact Hd|]. split; [exact Hm|].
    rewrite !length_fmap in Hlen. exact Hlen.
Defined.

End TameExpansion.
